(** * SlowQuant: reduced density matrices and determinant-basis operator algebra

    Shallow embedding of
    [slowquant/unitary_coupled_cluster/density_matrix.py] and
    [slowquant/unitary_coupled_cluster/operator_state_algebra.py].

    Python floats are read as real numbers ([R]); Python integers as [Z].
    A numpy array is read through its index function: every read the
    embedded code performs on [rdm1], [rdm2], [h_int] and [g_int] is at the
    position the source computes. *)

From Stdlib Require Import ZArith List Bool Reals Lra Lia.
From Stdlib Require String.
From stdpp Require gmap.
Import ListNotations.

Local Open Scope Z_scope.

(** ** Common helpers *)

(** [range(n)] of Python. *)
Definition range (n : Z) : list Z := map Z.of_nat (seq 0 (Z.to_nat n)).

(** [enumerate(l)] of Python, positions counted from [start]. *)
Fixpoint enumerate_from {A : Type} (start : nat) (l : list A) : list (nat * A) :=
  match l with
  | [] => []
  | x :: l' => (start, x) :: enumerate_from (S start) l'
  end.

Definition enumerate {A : Type} (l : list A) : list (nat * A) := enumerate_from 0 l.

(** [a[i] = f(a[i])] on an array, for a position [i] that comes from
    [enumerate] over a list as long as the array and is therefore inside
    it. A two-dimensional update [a[i, j] = f(a[i, j])] is
    [update_at i (update_at j f)] on the list of rows. *)
Fixpoint update_at {A : Type} (i : nat) (f : A -> A) (a : list A) : list A :=
  match a, i with
  | [], _ => []
  | x :: a', O => f x :: a'
  | x :: a', S i' => x :: update_at i' f a'
  end.

(** [np.zeros(n)]. *)
Definition zeros (n : nat) : list R := repeat 0%R n.

(** ** density_matrix.py *)

Module DensityMatrix.

Definition array2 := Z -> Z -> R.
Definition array4 := Z -> Z -> Z -> Z -> R.

Section Oracle.

Local Open Scope R_scope.

Definition RDM1 (p q num_inactive_orbs num_active_orbs : Z) (rdm1 : array2) : R :=
  let virt_start := (num_inactive_orbs + num_active_orbs)%Z in
  if (p >=? virt_start)%Z || (q >=? virt_start)%Z then 0
  else if (p >=? num_inactive_orbs)%Z && (q >=? num_inactive_orbs)%Z then
    rdm1 (p - num_inactive_orbs)%Z (q - num_inactive_orbs)%Z
  else if (p <? num_inactive_orbs)%Z && (q <? num_inactive_orbs)%Z then
    if (p =? q)%Z then 2 else 0
  else 0.

Definition RDM2 (p q r s num_inactive_orbs num_active_orbs : Z)
    (rdm1 : array2) (rdm2 : array4) : R :=
  let ni := num_inactive_orbs in
  let virt_start := (num_inactive_orbs + num_active_orbs)%Z in
  if (p >=? virt_start)%Z || (q >=? virt_start)%Z
     || (r >=? virt_start)%Z || (s >=? virt_start)%Z then 0
  else if (p >=? ni)%Z && (q >=? ni)%Z && (r >=? ni)%Z && (s >=? ni)%Z then
    rdm2 (p - ni)%Z (q - ni)%Z (r - ni)%Z (s - ni)%Z
  else if (p <? ni)%Z && (q >=? ni)%Z && (r >=? ni)%Z && (s <? ni)%Z then
    (* iuvj type index *)
    if (p =? s)%Z then - rdm1 (q - ni)%Z (r - ni)%Z else 0
  else if (p >=? ni)%Z && (q <? ni)%Z && (r <? ni)%Z && (s >=? ni)%Z then
    (* uijv type index *)
    if (q =? r)%Z then - rdm1 (p - ni)%Z (s - ni)%Z else 0
  else if (p >=? ni)%Z && (q >=? ni)%Z && (r <? ni)%Z && (s <? ni)%Z then
    (* uvij type index *)
    if (r =? s)%Z then 2 * rdm1 (p - ni)%Z (q - ni)%Z else 0
  else if (p <? ni)%Z && (q <? ni)%Z && (r >=? ni)%Z && (s >=? ni)%Z then
    (* ijuv type index *)
    if (p =? q)%Z then 2 * rdm1 (r - ni)%Z (s - ni)%Z else 0
  else if (p <? ni)%Z && (q <? ni)%Z && (r <? ni)%Z && (s <? ni)%Z then
    (* all inactive index *)
    let val := 0 in
    let val := if (p =? q)%Z && (r =? s)%Z then val + 4 else val in
    let val := if (q =? r)%Z && (p =? s)%Z then val - 2 else val in
    val
  else 0.

End Oracle.

(** *** Orbital gradient

    The accumulators [gradient[idx]] are threaded through the loops in the
    order the source updates them. *)

Section Evaluators.

Local Open Scope R_scope.

Definition gradient_1e_loop (h_int : array2) (m n : Z)
    (num_inactive_orbs num_active_orbs : Z) (rdm1 : array2) (acc : R) : R :=
  fold_left (fun acc p =>
      let acc := acc + 2 * h_int n p * RDM1 m p num_inactive_orbs num_active_orbs rdm1 in
      let acc := acc - 2 * h_int p m * RDM1 p n num_inactive_orbs num_active_orbs rdm1 in
      acc)
    (range (num_inactive_orbs + num_active_orbs)) acc.

Definition gradient_2e_loop (g_int : array4) (m n : Z)
    (num_inactive_orbs num_active_orbs : Z) (rdm1 : array2) (rdm2 : array4)
    (acc : R) : R :=
  let orbs := range (num_inactive_orbs + num_active_orbs) in
  let rdm := fun p q r s => RDM2 p q r s num_inactive_orbs num_active_orbs rdm1 rdm2 in
  fold_left (fun acc p =>
    fold_left (fun acc q =>
      fold_left (fun acc r =>
          let acc := acc + g_int n p q r * rdm m p q r in
          let acc := acc - g_int p m q r * rdm p n q r in
          let acc := acc - g_int m p q r * rdm n p q r in
          let acc := acc + g_int p n q r * rdm p m q r in
          acc)
        orbs acc)
      orbs acc)
    orbs acc.

Definition get_orbital_gradient (h_int : array2) (g_int : array4)
    (kappa_idx : list (Z * Z)) (num_inactive_orbs num_active_orbs : Z)
    (rdm1 : array2) (rdm2 : array4) : list R :=
  fold_left (fun gradient '(idx, (m, n)) =>
      update_at idx (fun acc =>
          (* 1e contribution *)
          let acc := gradient_1e_loop h_int m n num_inactive_orbs num_active_orbs rdm1 acc in
          (* 2e contribution *)
          gradient_2e_loop g_int m n num_inactive_orbs num_active_orbs rdm1 rdm2 acc)
        gradient)
    (enumerate kappa_idx) (zeros (length kappa_idx)).

(** *** Orbital response gradient *)

Definition response_1e_loop (h_int : array2) (m n : Z)
    (num_inactive_orbs num_active_orbs : Z) (rdm1 : array2) (acc : R) : R :=
  fold_left (fun acc p =>
      let acc := acc + h_int n p * RDM1 m p num_inactive_orbs num_active_orbs rdm1 in
      let acc := acc - h_int p m * RDM1 p n num_inactive_orbs num_active_orbs rdm1 in
      acc)
    (range (num_inactive_orbs + num_active_orbs)) acc.

Definition response_2e_loop (g_int : array4) (m n : Z)
    (num_inactive_orbs num_active_orbs : Z) (rdm1 : array2) (rdm2 : array4)
    (acc : R) : R :=
  let orbs := range (num_inactive_orbs + num_active_orbs) in
  let rdm := fun p q r s => RDM2 p q r s num_inactive_orbs num_active_orbs rdm1 rdm2 in
  fold_left (fun acc p =>
    fold_left (fun acc q =>
      fold_left (fun acc r =>
          let acc := acc + 1 / 2 * g_int n p q r * rdm m p q r in
          let acc := acc - 1 / 2 * g_int p m q r * rdm p n q r in
          let acc := acc - 1 / 2 * g_int m p q r * rdm n p q r in
          let acc := acc + 1 / 2 * g_int p n q r * rdm p m q r in
          acc)
        orbs acc)
      orbs acc)
    orbs acc.

(** [2 ** (-1 / 2)]. *)
Definition two_pow_minus_half : R := Rpower 2 (- 1 / 2).

Definition get_orbital_gradient_response (h_int : array2) (g_int : array4)
    (kappa_idx : list (Z * Z)) (num_inactive_orbs num_active_orbs : Z)
    (rdm1 : array2) (rdm2 : array4) : list R :=
  let gradient := zeros (2 * length kappa_idx) in
  let gradient :=
    fold_left (fun gradient '(idx, (m, n)) =>
        update_at idx (fun acc =>
            let acc := response_1e_loop h_int m n num_inactive_orbs num_active_orbs rdm1 acc in
            response_2e_loop g_int m n num_inactive_orbs num_active_orbs rdm1 rdm2 acc)
          gradient)
      (enumerate kappa_idx) gradient in
  let shift := length kappa_idx in
  let gradient :=
    fold_left (fun gradient '(idx, (n, m)) =>
        update_at (idx + shift) (fun acc =>
            let acc := response_1e_loop h_int m n num_inactive_orbs num_active_orbs rdm1 acc in
            response_2e_loop g_int m n num_inactive_orbs num_active_orbs rdm1 rdm2 acc)
          gradient)
      (enumerate kappa_idx) gradient in
  map (fun x => two_pow_minus_half * x) gradient.

(** *** Sigma matrix, orbital-orbital block *)

Definition get_orbital_response_metric_sigma (kappa_idx : list (Z * Z))
    (num_inactive_orbs num_active_orbs : Z) (rdm1 : array2) : list (list R) :=
  let sigma := repeat (zeros (length kappa_idx)) (length kappa_idx) in
  let sigma :=
    fold_left (fun sigma '(idx1, (n, m)) =>
        fold_left (fun sigma '(idx2, (p, q)) =>
            let sigma :=
              if (p =? n)%Z then
                update_at idx1 (update_at idx2 (fun x =>
                  x + RDM1 m q num_inactive_orbs num_active_orbs rdm1)) sigma
              else sigma in
            let sigma :=
              if (m =? q)%Z then
                update_at idx1 (update_at idx2 (fun x =>
                  x - RDM1 p n num_inactive_orbs num_active_orbs rdm1)) sigma
              else sigma in
            sigma)
          (enumerate kappa_idx) sigma)
      (enumerate kappa_idx) sigma in
  map (map (fun x => - 1 / 2 * x)) sigma.

End Evaluators.

(** *** The oracle as the specification words it

    The orbital partition: three contiguous ranges, inactive first. *)

Inductive block := Inactive | Active | Virtual.

Definition classify (ni na p : Z) : block :=
  if p <? ni then Inactive
  else if p <? ni + na then Active
  else Virtual.

Definition delta (a b : Z) : R := if a =? b then 1%R else 0%R.

(** The block table of the specification: zero with a virtual index, the
    active tensor on the active block, the Kronecker-delta expression on the
    inactive block, the four mixed patterns, zero everywhere else. *)
Definition RDM2_spec (p q r s ni na : Z) (rdm1 : array2) (rdm2 : array4) : R :=
  match classify ni na p, classify ni na q, classify ni na r, classify ni na s with
  | Virtual, _, _, _ | _, Virtual, _, _ | _, _, Virtual, _ | _, _, _, Virtual => 0%R
  | Active, Active, Active, Active => rdm2 (p - ni)%Z (q - ni)%Z (r - ni)%Z (s - ni)%Z
  | Inactive, Inactive, Inactive, Inactive =>
      (4 * delta p q * delta r s - 2 * delta q r * delta p s)%R
  | Active, Active, Inactive, Inactive => (2 * delta r s * rdm1 (p - ni)%Z (q - ni)%Z)%R
  | Inactive, Inactive, Active, Active => (2 * delta p q * rdm1 (r - ni)%Z (s - ni)%Z)%R
  | Inactive, Active, Active, Inactive => (- delta p s * rdm1 (q - ni)%Z (r - ni)%Z)%R
  | Active, Inactive, Inactive, Active => (- delta q r * rdm1 (p - ni)%Z (s - ni)%Z)%R
  | _, _, _, _ => 0%R
  end.

(** The response gradient as the specification words it: one block for the
    pairs as listed and one for the swapped pairs, each entry the
    one-electron contribution of [get_orbital_gradient] plus half its
    two-electron contribution, the whole scaled by [2 ** (-1 / 2)]. *)
Definition response_entry_spec (h_int : array2) (g_int : array4) (m n ni na : Z)
    (rdm1 : array2) (rdm2 : array4) : R :=
  (gradient_1e_loop h_int m n ni na rdm1 0
   + 1 / 2 * gradient_2e_loop g_int m n ni na rdm1 rdm2 0)%R.

Definition get_orbital_gradient_response_spec (h_int : array2) (g_int : array4)
    (kappa_idx : list (Z * Z)) (ni na : Z) (rdm1 : array2) (rdm2 : array4) : list R :=
  map (fun x => (two_pow_minus_half * x)%R)
    (map (fun '(m, n) => response_entry_spec h_int g_int m n ni na rdm1 rdm2) kappa_idx
     ++ map (fun '(n, m) => response_entry_spec h_int g_int m n ni na rdm1 rdm2) kappa_idx).

(** What the loops leave in one cell that starts at zero. *)
Definition gradient_entry (h_int : array2) (g_int : array4) (ni na : Z)
    (rdm1 : array2) (rdm2 : array4) (m n : Z) : R :=
  gradient_2e_loop g_int m n ni na rdm1 rdm2
    (gradient_1e_loop h_int m n ni na rdm1 0%R).

Definition response_entry (h_int : array2) (g_int : array4) (ni na : Z)
    (rdm1 : array2) (rdm2 : array4) (m n : Z) : R :=
  response_2e_loop g_int m n ni na rdm1 rdm2
    (response_1e_loop h_int m n ni na rdm1 0%R).

(** The kappa pairs with rows and columns exchanged. *)
Definition swap_pairs (kappa_idx : list (Z * Z)) : list (Z * Z) :=
  map (fun '(m, n) => (n, m)) kappa_idx.

(** One entry of Sigma as the specification writes it, for the row pair
    [(n, m)] and the column pair [(p, q)]. *)
Definition sigma_entry (n m p q ni na : Z) (rdm1 : array2) : R :=
  (- 1 / 2 * (delta p n * RDM1 m q ni na rdm1 - delta m q * RDM1 p n ni na rdm1))%R.

(** The symmetries the active tensors are supplied with, stated on the
    active block [0 <= i < na] only. *)
Definition symmetric_on (na : Z) (rdm1 : array2) : Prop :=
  forall i j, 0 <= i < na -> 0 <= j < na -> rdm1 i j = rdm1 j i.

Definition fourfold_symmetric_on (na : Z) (rdm2 : array4) : Prop :=
  forall i j k l,
    0 <= i < na -> 0 <= j < na -> 0 <= k < na -> 0 <= l < na ->
    rdm2 i j k l = rdm2 k l i j /\
    rdm2 i j k l = rdm2 j i l k /\
    rdm2 i j k l = rdm2 l k j i.

(** What one pass of the inner loop body of
    [get_orbital_response_metric_sigma] does to the cell it addresses. *)
Definition sigma_cell_step (n m p q ni na : Z) (rdm1 : array2) (x : R) : R :=
  let x := if p =? n then (x + RDM1 m q ni na rdm1)%R else x in
  if m =? q then (x - RDM1 p n ni na rdm1)%R else x.

(** [mat[i, j]] for a matrix held as its list of rows. *)
Definition entry (mat : list (list R)) (i j : nat) : R := nth j (nth i mat []) 0%R.

End DensityMatrix.

(** ** operator_state_algebra.py *)

Module OperatorStateAlgebra.

Import stdpp.base stdpp.gmap.
Import Stdlib.Strings.String.

Local Abbreviation length := Datatypes.length.

Local Open Scope Z_scope.

(** *** Exceptions

    A call either returns or raises; a raised exception leaves every
    enclosing loop and function. *)

Inductive exception :=
| KeyError (key : Z)
| IndexError
| ValueError (msg : string)
| TypeError (msg : string).

Inductive result (A : Type) :=
| Ok (a : A)
| Raise (e : exception).

Arguments Ok {A} a.
Arguments Raise {A} e.

Definition bind {A B : Type} (m : result A) (k : A -> result B) : result B :=
  match m with
  | Ok a => k a
  | Raise e => Raise e
  end.

Declare Scope result_scope.
Delimit Scope result_scope with result.
Notation "x <- m ;; k" := (bind m (fun x => k))
  (at level 100, m at next level, right associativity) : result_scope.
Local Open Scope result_scope.

(** A [for] loop whose body may raise. *)
Fixpoint foldM {A B : Type} (f : A -> B -> result A) (l : list B) (a : A) : result A :=
  match l with
  | [] => Ok a
  | x :: l' => a' <- f a x ;; foldM f l' a'
  end.

(** *** Arrays, lists and dictionaries of Python *)

Definition state_vector := list R.
Definition matrix := list (list R).

(** The position an integer index addresses in a sequence of length [len]:
    negative indices count from the end, anything else is out of range. *)
Definition normalize_index (len : nat) (i : Z) : option nat :=
  if (0 <=? i) && (i <? Z.of_nat len) then Some (Z.to_nat i)
  else if (- Z.of_nat len <=? i) && (i <? 0) then Some (Z.to_nat (Z.of_nat len + i))
  else None.

(** [a[i]] for a loop position [i]. *)
Definition item_at {A : Type} (a : list A) (i : nat) : result A :=
  match nth_error a i with
  | Some x => Ok x
  | None => Raise IndexError
  end.

(** [a[i]] for an integer [i]. *)
Definition getitem {A : Type} (a : list A) (i : Z) : result A :=
  match normalize_index (length a) i with
  | Some n => item_at a n
  | None => Raise IndexError
  end.

(** [a[i] += v]. *)
Definition additem (a : state_vector) (i : Z) (v : R) : result state_vector :=
  match normalize_index (length a) i with
  | Some n => Ok (update_at n (fun x => (x + v)%R) a)
  | None => Raise IndexError
  end.

(** [m[i, j] += v], row [i] an integer, column [j] a loop position. *)
Definition additem2 (m : matrix) (i : Z) (j : nat) (v : R) : result matrix :=
  match normalize_index (length m) i with
  | Some n =>
      row <- item_at m n ;;
      if (j <? length row)%nat
      then Ok (update_at n (update_at j (fun x => (x + v)%R)) m)
      else Raise IndexError
  | None => Raise IndexError
  end.

(** [d[key]]. *)
Definition dict_getitem (d : gmap Z Z) (key : Z) : result Z :=
  match d !! key with
  | Some v => Ok v
  | None => Raise (KeyError key)
  end.

(** [key in d]. *)
Definition dict_contains (d : gmap Z Z) (key : Z) : bool :=
  match d !! key with
  | Some _ => true
  | None => false
  end.

(** [x >> n] and [x << n]: a negative shift count raises. *)
Definition rshift (x n : Z) : result Z :=
  if n <? 0 then Raise (ValueError "negative shift count"%string) else Ok (Z.shiftr x n).

Definition lshift (x n : Z) : result Z :=
  if n <? 0 then Raise (ValueError "negative shift count"%string) else Ok (Z.shiftl x n).

(** Elementwise arithmetic on arrays of one shape. *)
Definition vadd (u v : state_vector) : state_vector :=
  map (fun '(x, y) => (x + y)%R) (combine u v).

Definition vscale (c : R) (v : state_vector) : state_vector :=
  map (fun x => (c * x)%R) v.

Definition mneg (m : matrix) : matrix := map (map Ropp) m.

(** [10 ** -14]. *)
Definition threshold : R := (/ 100000000000000)%R.

(** [abs(x) < 10 ** -14]. *)
Definition below_threshold (x : R) : bool :=
  if Rlt_dec (Rabs x) threshold then true else false.

(** *** bitcount

    The [while x > 0] loop, run for at most [fuel] rounds; [bitcount] gives
    it [x] rounds, which it never exhausts
    (see [bitcount_loop_fuel_enough]). *)
Fixpoint bitcount_loop (fuel : nat) (x b : Z) : Z :=
  match fuel with
  | O => b
  | S fuel' =>
      if x >? 0 then bitcount_loop fuel' (Z.land x (x - 1)) (b + 1) else b
  end.

Definition bitcount (x : Z) : Z := bitcount_loop (Z.to_nat x) x 0.

(** *** The data of a calculation *)

(** One fermionic string is a tuple of [(orbital, is_creation)] pairs; an
    operator maps strings to coefficients. The dictionary is kept as the
    list of its items in iteration order. *)
Record FermionicOperator := {
  operators : list (list (Z * bool) * R)
}.

Record CI_Info := {
  idx2det : list Z;
  det2idx : gmap Z Z;
  num_inactive_orbs : Z;
  num_active_orbs : Z;
  num_virtual_orbs : Z;
  space_extension_offset : Z
}.

Record UpsStructure := {
  ups_excitation_operator_type : list string;
  ups_excitation_indices : list (list Z)
}.

Record UccStructure := {
  ucc_excitation_operator_type : list string;
  ucc_excitation_indices : list (list Z)
}.

(** [wf_struct] is an [UpsStructure], an [UccStructure], or an object of
    another type. *)
Inductive wf_structure :=
| Ups (ups_struct : UpsStructure)
| Ucc (ucc_struct : UccStructure)
| OtherStructure (type_name : string).

Inductive operator_item :=
| OpStr (label : string)
| OpFermi (op : FermionicOperator).

(** What the file imports: the excitation generators of [operators.py]
    ([G3] to [G6] take their unpacked indices in order), the sum and the
    scalar multiple of [FermionicOperator], its folding, and
    [scipy.sparse.linalg.expm_multiply]. *)
Record Externals := {
  G1 : Z -> Z -> bool -> FermionicOperator;
  G2 : Z -> Z -> Z -> Z -> bool -> FermionicOperator;
  G3 : list Z -> bool -> FermionicOperator;
  G4 : list Z -> bool -> FermionicOperator;
  G5 : list Z -> bool -> FermionicOperator;
  G6 : list Z -> bool -> FermionicOperator;
  G1_sa : Z -> Z -> bool -> FermionicOperator;
  G2_1_sa : Z -> Z -> Z -> Z -> bool -> FermionicOperator;
  G2_2_sa : Z -> Z -> Z -> Z -> bool -> FermionicOperator;
  op_add : FermionicOperator -> FermionicOperator -> FermionicOperator;
  op_scale : R -> FermionicOperator -> FermionicOperator;
  get_folded_operator : FermionicOperator -> Z -> Z -> Z -> FermionicOperator;
  expm_multiply : matrix -> state_vector -> state_vector
}.

(** *** The action of an operator string on one determinant *)

(** The loop over [anni_idxs] ([kill_bit = 0]) and the loop over
    [create_idxs] ([kill_bit = 1]): the two differ in nothing else. [None] is
    the kill state. *)
Fixpoint operator_loop (kill_bit : Z) (idxs : list Z) (num_active_orbs : Z)
    (parity_check : list Z) (det phase_changes : Z) : result (option (Z * Z)) :=
  match idxs with
  | [] => Ok (Some (det, phase_changes))
  | orb_idx :: idxs' =>
      shifted <- rshift det (2 * num_active_orbs - 1 - orb_idx) ;;
      if Z.land shifted 1 =? kill_bit then Ok None
      else
        mask <- lshift 1 (2 * num_active_orbs - 1 - orb_idx) ;;
        let det := Z.lxor det mask in
        parity <- getitem parity_check orb_idx ;;
        let phase_changes := phase_changes + bitcount (Z.land det parity) in
        operator_loop kill_bit idxs' num_active_orbs parity_check det phase_changes
  end.

(** Annihilations, then creations, each list already reversed. *)
Definition apply_string (anni_idxs create_idxs : list Z) (num_active_orbs : Z)
    (parity_check : list Z) (det : Z) : result (option (Z * Z)) :=
  r <- operator_loop 0 anni_idxs num_active_orbs parity_check det 0 ;;
  match r with
  | None => Ok None
  | Some (det, phase_changes) =>
      operator_loop 1 create_idxs num_active_orbs parity_check det phase_changes
  end.

(** [(-1) ** phase_changes]. *)
Definition sign (phase_changes : Z) : R := ((-1) ^ Z.to_nat phase_changes)%R.

(** The body of the loop over [enumerate(idx2det)] in [apply_operator];
    [anni_idxs] and [create_idxs] are the reversed lists. *)
Definition apply_operator_body (state : state_vector) (anni_idxs create_idxs : list Z)
    (num_active_orbs : Z) (parity_check : list Z) (det2idx : gmap Z Z)
    (do_unsafe : bool) (factor : R) (tmp_state : state_vector) (i : nat) (det : Z)
    : result state_vector :=
  amplitude <- item_at state i ;;
  if below_threshold amplitude then Ok tmp_state
  else
    r <- apply_string anni_idxs create_idxs num_active_orbs parity_check det ;;
    match r with
    | None => Ok tmp_state
    | Some (det, phase_changes) =>
        if do_unsafe && negb (dict_contains det2idx det) then Ok tmp_state
        else
          idx <- dict_getitem det2idx det ;;
          additem tmp_state idx (factor * sign phase_changes * amplitude)%R
    end.

Definition apply_operator (state : state_vector) (anni_idxs create_idxs : list Z)
    (num_active_orbs : Z) (parity_check : list Z) (idx2det : list Z)
    (det2idx : gmap Z Z) (do_unsafe : bool) (tmp_state : state_vector)
    (factor : R) : result state_vector :=
  let anni_idxs := rev anni_idxs in
  let create_idxs := rev create_idxs in
  foldM (fun tmp_state '(i, det) =>
      apply_operator_body state anni_idxs create_idxs num_active_orbs parity_check
        det2idx do_unsafe factor tmp_state i det)
    (enumerate idx2det) tmp_state.

(** The body of the loop over [enumerate(idx2det)] in
    [add_operator_matrix]. *)
Definition add_operator_matrix_body (anni_idxs create_idxs : list Z)
    (num_active_orbs : Z) (parity_check : list Z) (det2idx : gmap Z Z)
    (do_unsafe : bool) (factor : R) (op_mat : matrix) (i : nat) (det : Z)
    : result matrix :=
  r <- apply_string anni_idxs create_idxs num_active_orbs parity_check det ;;
  match r with
  | None => Ok op_mat
  | Some (det, phase_changes) =>
      if do_unsafe && negb (dict_contains det2idx det) then Ok op_mat
      else
        idx <- dict_getitem det2idx det ;;
        additem2 op_mat idx i (factor * sign phase_changes)%R
  end.

Definition add_operator_matrix (op_mat : matrix) (anni_idxs create_idxs : list Z)
    (num_active_orbs : Z) (parity_check : list Z) (idx2det : list Z)
    (det2idx : gmap Z Z) (do_unsafe : bool) (factor : R) : result matrix :=
  let anni_idxs := rev anni_idxs in
  let create_idxs := rev create_idxs in
  foldM (fun op_mat '(i, det) =>
      add_operator_matrix_body anni_idxs create_idxs num_active_orbs parity_check
        det2idx do_unsafe factor op_mat i det)
    (enumerate idx2det) op_mat.

(** The bitstrings for the parity check, built as in [build_operator_matrix]
    and [propagate_state]: one round of the loop over
    [range(2 * num_active_orbs - 1, -1, -1)], and the loop. *)
Definition parity_check_round (num_active_orbs : Z) (acc : Z * list Z) (i : Z)
    : Z * list Z :=
  let '(num, parity_check) := acc in
  let num := num + 2 ^ i in
  (num, update_at (Z.to_nat (2 * num_active_orbs - i)) (fun _ => num) parity_check).

Definition build_parity_check (num_active_orbs : Z) : list Z :=
  let parity_check := repeat 0 (Z.to_nat (2 * num_active_orbs + 1)) in
  snd (fold_left (parity_check_round num_active_orbs)
         (rev (range (2 * num_active_orbs))) (0, parity_check)).

(** The creation and the annihilation indices of a string, in order. *)
Definition create_indices (fermi_label : list (Z * bool)) : list Z :=
  map fst (List.filter (fun fermi_op => snd fermi_op) fermi_label).

Definition anni_indices (fermi_label : list (Z * bool)) : list Z :=
  map fst (List.filter (fun fermi_op => negb (snd fermi_op)) fermi_label).

Definition build_operator_matrix (op : FermionicOperator) (ci_info : CI_Info)
    (do_unsafe : bool) : result matrix :=
  let num_dets := length (idx2det ci_info) in
  let op_mat := repeat (zeros num_dets) num_dets in
  let parity_check := build_parity_check (num_active_orbs ci_info) in
  foldM (fun op_mat '(fermi_label, coefficient) =>
      add_operator_matrix op_mat (anni_indices fermi_label) (create_indices fermi_label)
        (num_active_orbs ci_info) parity_check (idx2det ci_info) (det2idx ci_info)
        do_unsafe coefficient)
    (operators op) op_mat.

(** *** propagate_state

    [propagate_state] calls [construct_ups_state] for a string item, and
    [construct_ups_state] calls [propagate_state] back, on lists of
    generators only and without folding. Those inner calls are embedded
    first, as [propagate_operators]; [propagate_state] itself follows the
    constructors ([propagate_state_operators] relates the two). *)

Section WithExternals.

Variable ext : Externals.

(** One pass of the loop over [operators[::-1]] for a [FermionicOperator]
    item: [tmp_state] is cleared, every string is applied, and the result is
    copied into [new_state]. [state] is the argument of [propagate_state],
    whose shape [tmp_state] has. *)
Definition propagate_operator (op : FermionicOperator) (state new_state : state_vector)
    (ci_info : CI_Info) (parity_check : list Z) (do_folding do_unsafe : bool)
    : result state_vector :=
  let tmp_state := zeros (length state) in
  let op_folded :=
    if do_folding
    then get_folded_operator ext op (num_inactive_orbs ci_info)
           (num_active_orbs ci_info) (num_virtual_orbs ci_info)
    else op in
  foldM (fun tmp_state '(fermi_label, coefficient) =>
      apply_operator new_state (anni_indices fermi_label) (create_indices fermi_label)
        (num_active_orbs ci_info) parity_check (idx2det ci_info) (det2idx ci_info)
        do_unsafe tmp_state coefficient)
    (operators op_folded) tmp_state.

(** [propagate_state(operators, state, ci_info, thetas, wf_struct,
    do_folding=False)] for a list of [FermionicOperator]s. *)
Definition propagate_operators (operators : list FermionicOperator)
    (state : state_vector) (ci_info : CI_Info) : result state_vector :=
  if (length operators =? 0)%nat then Ok state
  else
    let parity_check := build_parity_check (num_active_orbs ci_info) in
    foldM (fun new_state op =>
        propagate_operator op state new_state ci_info parity_check false false)
      (rev operators) state.

(** [(i, a) = ...] and [(i, j, a, b) = ...]. *)
Definition unpack2 (l : list Z) : result (Z * Z) :=
  match l with
  | [i; a] => Ok (i, a)
  | _ => Raise (ValueError "values to unpack"%string)
  end.

Definition unpack4 (l : list Z) : result (Z * Z * Z * Z) :=
  match l with
  | [i; j; a; b] => Ok (i, j, a, b)
  | _ => Raise (ValueError "values to unpack"%string)
  end.

(** The unpacking of [n] values, kept as a list. *)
Definition unpack (n : nat) (l : list Z) : result (list Z) :=
  if (length l =? n)%nat then Ok l
  else Raise (ValueError "values to unpack"%string).

(** [np.array(exc_indices) + offset]. *)
Definition shift_indices (exc_indices : list Z) (offset : Z) : list Z :=
  map (fun x => x + offset) exc_indices.

Definition unknown_excitation_type (exc_type : string) : exception :=
  ValueError ("Got unknown excitation type, " ++ exc_type)%string.

(** The body of the loop of [construct_ups_state]. *)
Definition ups_step (ci_info : CI_Info) (dagger : bool) (tmp : state_vector)
    (exc_type : string) (exc_indices : list Z) (theta : R) : result state_vector :=
  let offset := space_extension_offset ci_info in
  if below_threshold theta then Ok tmp
  else
    let theta := if dagger then (- theta)%R else theta in
    if (exc_type =? "sa_single")%string then
      let A := 1%R in
      ia <- unpack2 (shift_indices exc_indices offset) ;;
      let '(i, a) := ia in
      let Ta := G1 ext (i * 2) (a * 2) true in
      let Tb := G1 ext (i * 2 + 1) (a * 2 + 1) true in
      v1 <- propagate_operators [Ta] tmp ci_info ;;
      v2 <- propagate_operators [Ta; Ta] tmp ci_info ;;
      let tmp :=
        vadd (vadd tmp (vscale (sin (A * theta)) v1))
          (vscale (1 - cos (A * theta)) v2) in
      v1 <- propagate_operators [Tb] tmp ci_info ;;
      v2 <- propagate_operators [Tb; Tb] tmp ci_info ;;
      Ok (vadd (vadd tmp (vscale (sin (A * theta)) v1))
            (vscale (1 - cos (A * theta)) v2))
    else if (exc_type =? "single")%string || (exc_type =? "double")%string then
      T <- (if (exc_type =? "single")%string then
              ia <- unpack2 (shift_indices exc_indices (2 * offset)) ;;
              let '(i, a) := ia in
              Ok (G1 ext i a true)
            else if (exc_type =? "double")%string then
              ijab <- unpack4 (shift_indices exc_indices (2 * offset)) ;;
              let '(i, j, a, b) := ijab in
              Ok (G2 ext i j a b true)
            else
              Raise (ValueError ("Got unknown excitation type: " ++ exc_type)%string)) ;;
      v1 <- propagate_operators [T] tmp ci_info ;;
      v2 <- propagate_operators [T; T] tmp ci_info ;;
      Ok (vadd (vadd tmp (vscale (sin theta) v1)) (vscale (1 - cos theta) v2))
    else Raise (unknown_excitation_type exc_type).

(** [l[::order]]. *)
Definition ordered {A : Type} (dagger : bool) (l : list A) : list A :=
  if dagger then rev l else l.

Definition construct_ups_state (state : state_vector) (ci_info : CI_Info)
    (thetas : list R) (ups_struct : UpsStructure) (dagger : bool)
    : result state_vector :=
  foldM (fun tmp '(exc_type, exc_indices, theta) =>
      ups_step ci_info dagger tmp exc_type exc_indices theta)
    (combine (combine (ordered dagger (ups_excitation_operator_type ups_struct))
                (ordered dagger (ups_excitation_indices ups_struct)))
       (ordered dagger thetas))
    state.

Definition propagate_unitary (state : state_vector) (idx : Z) (ci_info : CI_Info)
    (thetas : list R) (ups_struct : UpsStructure) : result state_vector :=
  exc_type <- getitem (ups_excitation_operator_type ups_struct) idx ;;
  exc_indices <- getitem (ups_excitation_indices ups_struct) idx ;;
  theta <- getitem thetas idx ;;
  let offset := space_extension_offset ci_info in
  if below_threshold theta then Ok state
  else if (exc_type =? "sa_single")%string then
    let A := 1%R in
    ia <- unpack2 (shift_indices exc_indices offset) ;;
    let '(i, a) := ia in
    let Ta := G1 ext (i * 2) (a * 2) true in
    let Tb := G1 ext (i * 2 + 1) (a * 2 + 1) true in
    v1 <- propagate_operators [Ta] state ci_info ;;
    v2 <- propagate_operators [Ta; Ta] state ci_info ;;
    let tmp :=
      vadd (vadd state (vscale (sin (A * theta)) v1))
        (vscale (1 - cos (A * theta)) v2) in
    v1 <- propagate_operators [Tb] tmp ci_info ;;
    v2 <- propagate_operators [Tb; Tb] tmp ci_info ;;
    Ok (vadd (vadd tmp (vscale (sin (A * theta)) v1))
          (vscale (1 - cos (A * theta)) v2))
  else if (exc_type =? "single")%string || (exc_type =? "double")%string then
    T <- (if (exc_type =? "single")%string then
            ia <- unpack2 (shift_indices exc_indices (2 * offset)) ;;
            let '(i, a) := ia in
            Ok (G1 ext i a true)
          else if (exc_type =? "double")%string then
            ijab <- unpack4 (shift_indices exc_indices (2 * offset)) ;;
            let '(i, j, a, b) := ijab in
            Ok (G2 ext i j a b true)
          else
            Raise (ValueError ("Got unknown excitation type: " ++ exc_type)%string)) ;;
    v1 <- propagate_operators [T] state ci_info ;;
    v2 <- propagate_operators [T; T] state ci_info ;;
    Ok (vadd (vadd state (vscale (sin theta) v1)) (vscale (1 - cos theta) v2))
  else Raise (unknown_excitation_type exc_type).

(** *** The UCC operator and state *)

(** The body of the loop of [get_ucc_T]; [T += theta * G] is written with
    the sum and the scalar multiple of [FermionicOperator]. *)
Definition ucc_step (offset : Z) (T : FermionicOperator) (exc_type : string)
    (exc_indices : list Z) (theta : R) : result FermionicOperator :=
  let add := fun G => op_add ext T (op_scale ext theta G) in
  if below_threshold theta then Ok T
  else if (exc_type =? "sa_single")%string then
    ia <- unpack2 (shift_indices exc_indices offset) ;;
    let '(i, a) := ia in Ok (add (G1_sa ext i a true))
  else if (exc_type =? "sa_double_1")%string then
    ijab <- unpack4 (shift_indices exc_indices offset) ;;
    let '(i, j, a, b) := ijab in Ok (add (G2_1_sa ext i j a b true))
  else if (exc_type =? "sa_double_2")%string then
    ijab <- unpack4 (shift_indices exc_indices offset) ;;
    let '(i, j, a, b) := ijab in Ok (add (G2_2_sa ext i j a b true))
  else if (exc_type =? "single")%string then
    ia <- unpack2 (shift_indices exc_indices (2 * offset)) ;;
    let '(i, a) := ia in Ok (add (G1 ext i a true))
  else if (exc_type =? "double")%string then
    ijab <- unpack4 (shift_indices exc_indices (2 * offset)) ;;
    let '(i, j, a, b) := ijab in Ok (add (G2 ext i j a b true))
  else if (exc_type =? "triple")%string then
    idxs <- unpack 6 (shift_indices exc_indices (2 * offset)) ;;
    Ok (add (G3 ext idxs true))
  else if (exc_type =? "quadruple")%string then
    idxs <- unpack 8 (shift_indices exc_indices (2 * offset)) ;;
    Ok (add (G4 ext idxs true))
  else if (exc_type =? "quintuple")%string then
    idxs <- unpack 10 (shift_indices exc_indices (2 * offset)) ;;
    Ok (add (G5 ext idxs true))
  else if (exc_type =? "sextuple")%string then
    idxs <- unpack 12 (shift_indices exc_indices (2 * offset)) ;;
    Ok (add (G6 ext idxs true))
  else Raise (unknown_excitation_type exc_type).

Definition get_ucc_T (thetas : list R) (ucc_struct : UccStructure) (offset : Z)
    : result FermionicOperator :=
  foldM (fun T '(exc_type, exc_indices, theta) =>
      ucc_step offset T exc_type exc_indices theta)
    (combine (combine (ucc_excitation_operator_type ucc_struct)
                (ucc_excitation_indices ucc_struct))
       thetas)
    {| operators := [] |}.

(** [expm_multiply] is called with [traceA=0.0], a hint for its internal
    scaling that does not change the product it returns. *)
Definition construct_ucc_state (state : state_vector) (ci_info : CI_Info)
    (thetas : list R) (ucc_struct : UccStructure) (dagger : bool)
    : result state_vector :=
  T <- get_ucc_T thetas ucc_struct (space_extension_offset ci_info) ;;
  Tmat <- build_operator_matrix T ci_info false ;;
  if dagger then Ok (expm_multiply ext (mneg Tmat) state)
  else Ok (expm_multiply ext Tmat state).

(** *** propagate_state, all items *)

Definition propagate_state (operators : list operator_item) (state : state_vector)
    (ci_info : CI_Info) (thetas : list R) (wf_struct : wf_structure)
    (do_folding do_unsafe : bool) : result state_vector :=
  if (length operators =? 0)%nat then Ok state
  else
    let parity_check := build_parity_check (num_active_orbs ci_info) in
    foldM (fun new_state op =>
        match op with
        | OpStr op =>
            if negb ((op =? "U")%string || (op =? "Ud")%string) then
              Raise (ValueError
                       ("Unknown str operator, expected ('U', 'Ud') got " ++ op)%string)
            else
              let dagger := (op =? "Ud")%string in
              match wf_struct with
              | Ups ups_struct =>
                  construct_ups_state new_state ci_info thetas ups_struct dagger
              | Ucc ucc_struct =>
                  construct_ucc_state new_state ci_info thetas ucc_struct dagger
              | OtherStructure type_name =>
                  Raise (TypeError
                           ("Got unknown wave function structure type, " ++ type_name)%string)
              end
        | OpFermi op =>
            propagate_operator op state new_state ci_info parity_check
              do_folding do_unsafe
        end)
      (rev operators) state.

(** *** The calls of a step

    What the body of a "single" or "double" step calls, named once: the
    generator it builds, the call of [propagate_state] on that generator, and
    the expression it returns. These are the code's own calls, the threshold
    of [apply_operator] included. *)

(** The generator a "single" or "double" step builds. *)
Definition step_generator (offset : Z) (exc_type : string) (exc_indices : list Z)
    : result FermionicOperator :=
  if (exc_type =? "single")%string then
    ia <- unpack2 (shift_indices exc_indices (2 * offset)) ;;
    let '(i, a) := ia in Ok (G1 ext i a true)
  else
    ijab <- unpack4 (shift_indices exc_indices (2 * offset)) ;;
    let '(i, j, a, b) := ijab in Ok (G2 ext i j a b true).

(** [propagate_state([T], psi, ci_info, thetas, wf_struct, do_folding=False)]:
    [T] applied by [apply_operator], which passes over every amplitude below
    the threshold. *)
Definition apply_generator (ci_info : CI_Info) (T : FermionicOperator)
    (psi : state_vector) : result state_vector :=
  propagate_operators [T] psi ci_info.

(** [psi + sin(theta) * v1 + (1 - cos(theta)) * v2] for the results [v1]
    and [v2] of that call on [psi] and on [v1]. *)
Definition loop_rotation (ci_info : CI_Info) (T : FermionicOperator) (theta : R)
    (psi : state_vector) : result state_vector :=
  v1 <- apply_generator ci_info T psi ;;
  v2 <- apply_generator ci_info T v1 ;;
  Ok (vadd (vadd psi (vscale (sin theta) v1)) (vscale (1 - cos theta) v2)).

(** The parameter a step is applied with. *)
Definition applied_theta (dagger : bool) (theta : R) : R :=
  if dagger then (- theta)%R else theta.

(** The steps of a structure with their parameters. *)
Definition ups_steps (thetas : list R) (ups_struct : UpsStructure)
    : list (string * list Z * R) :=
  combine (combine (ups_excitation_operator_type ups_struct)
             (ups_excitation_indices ups_struct)) thetas.

End WithExternals.

(** *** The matrix of an operator applied to a state *)

(** [row @ v] and [m @ v]. *)
Definition dot_step (acc : R) (ab : R * R) : R :=
  let '(a, b) := ab in (acc + a * b)%R.

Definition dot (row v : list R) : R := fold_left dot_step (combine row v) 0%R.

Definition matvec (m : matrix) (v : state_vector) : state_vector :=
  map (fun row => dot row v) m.

(** Amplitudes that are exactly zero or not below the threshold. *)
Definition clear_amplitudes (state : state_vector) : Prop :=
  Forall (fun x => x = 0%R \/ below_threshold x = false) state.

(** A square matrix of side [n]. *)
Definition square (n : nat) (m : matrix) : Prop :=
  length m = n /\ Forall (fun row => length row = n) m.

(** The tags [construct_ups_state] and [propagate_unitary] have a branch
    for, and the tags [get_ucc_T] has a branch for. *)
Definition ups_known (exc_type : string) : bool :=
  ((exc_type =? "sa_single") || (exc_type =? "single") || (exc_type =? "double"))%string.

Definition ucc_known (exc_type : string) : bool :=
  ((exc_type =? "sa_single") || (exc_type =? "sa_double_1")
   || (exc_type =? "sa_double_2") || (exc_type =? "single")
   || (exc_type =? "double") || (exc_type =? "triple")
   || (exc_type =? "quadruple") || (exc_type =? "quintuple")
   || (exc_type =? "sextuple"))%string.

(** The structure cut after its first [k] steps. *)
Definition ups_prefix (k : nat) (ups_struct : UpsStructure) : UpsStructure :=
  {| ups_excitation_operator_type := firstn k (ups_excitation_operator_type ups_struct);
     ups_excitation_indices := firstn k (ups_excitation_indices ups_struct) |}.

Definition ucc_prefix (k : nat) (ucc_struct : UccStructure) : UccStructure :=
  {| ucc_excitation_operator_type := firstn k (ucc_excitation_operator_type ucc_struct);
     ucc_excitation_indices := firstn k (ucc_excitation_indices ucc_struct) |}.

(** *** An instance of the imported code, for the examples *)

(** Modelled from the spec: [G1], the anti-Hermitian single-excitation
    generator [a+_a a_i - a+_i a_a] ([operators.py] is not among the
    sources). *)
Definition G1_model (i a : Z) (return_anti_hermitian : bool) : FermionicOperator :=
  {| operators :=
       ([(a, true); (i, false)], 1%R)
       :: (if return_anti_hermitian then [([(i, true); (a, false)], (-1)%R)] else []) |}.

(** Modelled from the spec: [G2], the anti-Hermitian double-excitation
    generator [a+_a a+_b a_j a_i - a+_i a+_j a_b a_a]. *)
Definition G2_model (i j a b : Z) (return_anti_hermitian : bool) : FermionicOperator :=
  {| operators :=
       ([(a, true); (b, true); (j, false); (i, false)], 1%R)
       :: (if return_anti_hermitian
           then [([(i, true); (j, true); (b, false); (a, false)], (-1)%R)]
           else []) |}.

(** Modelled from the spec: the sum and the scalar multiple of operators
    held as lists of items. The generators of higher order, the
    spin-adapted generators, the folding and the matrix exponential are not
    described by the specification and are used by no example: they are
    filled with the empty operator and with identities. *)
Definition example_externals : Externals :=
  {| G1 := G1_model;
     G2 := G2_model;
     G3 := fun _ _ => {| operators := [] |};
     G4 := fun _ _ => {| operators := [] |};
     G5 := fun _ _ => {| operators := [] |};
     G6 := fun _ _ => {| operators := [] |};
     G1_sa := fun _ _ _ => {| operators := [] |};
     G2_1_sa := fun _ _ _ _ _ => {| operators := [] |};
     G2_2_sa := fun _ _ _ _ _ => {| operators := [] |};
     op_add := fun S T => {| operators := operators S ++ operators T |};
     op_scale := fun c T =>
       {| operators := map (fun '(label, x) => (label, (c * x)%R)) (operators T) |};
     get_folded_operator := fun op _ _ _ => op;
     expm_multiply := fun _ v => v |}.

(** Two determinants of a space with two active orbitals: spin orbital 0
    occupied ([0b1000]) and spin orbital 2 occupied ([0b0010]). *)
Definition example_ci : CI_Info :=
  {| idx2det := [8; 2];
     det2idx := <[8 := 0]> (<[2 := 1]> ∅);
     num_inactive_orbs := 0;
     num_active_orbs := 2;
     num_virtual_orbs := 0;
     space_extension_offset := 0 |}.

(** The space of the first of these determinants alone: moving its
    electron to spin orbital 2 leaves the space. *)
Definition single_determinant_ci : CI_Info :=
  {| idx2det := [8];
     det2idx := {[ 8 := 0 ]};
     num_inactive_orbs := 0;
     num_active_orbs := 2;
     num_virtual_orbs := 0;
     space_extension_offset := 0 |}.

(** One "single" step that excites spin orbital 0 to spin orbital 2. *)
Definition example_ups : UpsStructure :=
  {| ups_excitation_operator_type := ["single"%string];
     ups_excitation_indices := [[0; 2]] |}.

(** An amplitude as [apply_operator] sees it. *)
Definition kept (x : R) : R := if below_threshold x then 0%R else x.

(** What the step of [example_ups] with parameter [theta] makes of a state
    of [example_ci]. *)
Definition example_rotated (theta : R) (psi : state_vector) : state_vector :=
  match psi with
  | [x; y] =>
      [(x + sin theta * - kept y + (1 - cos theta) * - kept (kept x))%R;
       (y + sin theta * kept x + (1 - cos theta) * kept (- kept y))%R]
  | _ => psi
  end.

(** [10 ** -15], an amplitude below the threshold. *)
Definition tiny : R := (/ 1000000000000000)%R.

End OperatorStateAlgebra.

(** ** density_matrix.py, the remaining scalar evaluators *)

Module DensityMatrixEvaluators.

Import DensityMatrix.

Local Open Scope Z_scope.

Section Evaluators.

Local Open Scope R_scope.

Definition get_electronic_energy (h_int : array2) (g_int : array4)
    (num_inactive_orbs num_active_orbs : Z) (rdm1 : array2) (rdm2 : array4) : R :=
  let orbs := range (num_inactive_orbs + num_active_orbs) in
  let energy := 0 in
  let energy :=
    fold_left (fun energy p =>
      fold_left (fun energy q =>
          energy + h_int p q * RDM1 p q num_inactive_orbs num_active_orbs rdm1)
        orbs energy)
      orbs energy in
  fold_left (fun energy p =>
    fold_left (fun energy q =>
      fold_left (fun energy r =>
        fold_left (fun energy s =>
            energy + 1 / 2 * g_int p q r s
                     * RDM2 p q r s num_inactive_orbs num_active_orbs rdm1 rdm2)
          orbs energy)
        orbs energy)
      orbs energy)
    orbs energy.

(** [response_vectors] is read at the rows [i] and [i + number_excitations]
    of the column [state_number]. *)
Definition get_orbital_response_vector_norm (kappa_idx : list (Z * Z))
    (num_inactive_orbs num_active_orbs : Z) (rdm1 : array2)
    (response_vectors : array2) (state_number number_excitations : Z) : R :=
  let rdm := fun p q => RDM1 p q num_inactive_orbs num_active_orbs rdm1 in
  let norm :=
    fold_left (fun norm '(i, (m, n)) =>
      fold_left (fun norm '(j, (t, u)) =>
          let i := Z.of_nat i in
          let j := Z.of_nat j in
          let norm :=
            if (n =? u)%Z then
              norm + response_vectors i state_number
                     * response_vectors j state_number * rdm m t
            else norm in
          let norm :=
            if (m =? t)%Z then
              norm - response_vectors i state_number
                     * response_vectors j state_number * rdm n u
            else norm in
          let norm :=
            if (m =? t)%Z then
              norm + response_vectors (i + number_excitations)%Z state_number
                     * response_vectors (j + number_excitations)%Z state_number
                     * rdm n u
            else norm in
          let norm :=
            if (n =? u)%Z then
              norm - response_vectors (i + number_excitations)%Z state_number
                     * response_vectors (j + number_excitations)%Z state_number
                     * rdm m t
            else norm in
          norm)
        (enumerate kappa_idx) norm)
      (enumerate kappa_idx) 0 in
  1 / 2 * norm.

Definition get_orbital_response_property_gradient (x_mo : array2)
    (kappa_idx : list (Z * Z)) (num_inactive_orbs num_active_orbs : Z)
    (rdm1 : array2) (response_vectors : array2)
    (state_number number_excitations : Z) : R :=
  let rdm := fun p q => RDM1 p q num_inactive_orbs num_active_orbs rdm1 in
  let prop_grad :=
    fold_left (fun prop_grad '(i, (m, n)) =>
      fold_left (fun prop_grad p =>
          let i := Z.of_nat i in
          let prop_grad :=
            prop_grad
            + (response_vectors (i + number_excitations)%Z state_number
               - response_vectors i state_number)
              * x_mo n p * rdm m p in
          let prop_grad :=
            prop_grad
            + (response_vectors i state_number
               - response_vectors (i + number_excitations)%Z state_number)
              * x_mo m p * rdm n p in
          prop_grad)
        (range (num_inactive_orbs + num_active_orbs)) prop_grad)
      (enumerate kappa_idx) 0 in
  two_pow_minus_half * prop_grad.

End Evaluators.

(** *** Words for the statements *)

(** An array that is symmetric everywhere. *)
Definition symmetric_array (h : array2) : Prop := forall a b, h a b = h b a.

(** Two response arrays whose excitation rows [0 .. K - 1] and de-excitation
    rows [ne .. ne + K - 1] are exchanged, in the column [s]. *)
Definition blocks_exchanged (K ne s : Z) (rv rv' : array2) : Prop :=
  forall i, 0 <= i < K -> rv' i s = rv (i + ne) s /\ rv' (i + ne) s = rv i s.

(** [sum f l] adds [f x] over [l], from the left. *)
Definition sum {X : Type} (f : X -> R) (l : list X) : R :=
  fold_left (fun acc x => (acc + f x)%R) l 0%R.

(** The closed-shell energy of [n] doubly occupied orbitals. *)
Definition closed_shell_energy (h_int : array2) (g_int : array4) (n : Z) : R :=
  (sum (fun p => 2 * h_int p p) (range n)
   + sum (fun p => sum (fun q => 2 * g_int p p q q - g_int p q q p) (range n))
       (range n))%R.

End DensityMatrixEvaluators.

(** ** operator_state_algebra.py, the state-averaged loop, the gradient
    action and words for the statements *)

Module OperatorStateAlgebraRest.

Import stdpp.base stdpp.gmap.
Import Stdlib.Strings.String.
Import OperatorStateAlgebra.

Local Abbreviation length := Datatypes.length.

Local Open Scope Z_scope.
Local Open Scope result_scope.

(** *** apply_operator_SA

    The state-averaged functions work on two-dimensional arrays, one row
    for each state and one column for each determinant: the rows, and the
    number of columns, which an array with no row has as well. *)
Record array2d := {
  ncols : nat;
  rows : list (list R)
}.

(** [abs(x) > 10 ** -14]. *)
Definition above_threshold (x : R) : bool :=
  if Rlt_dec threshold (Rabs x) then true else false.

(** A list built by a function that may raise. *)
Fixpoint mapM {A B : Type} (f : A -> result B) (l : list A) : result (list B) :=
  match l with
  | [] => Ok []
  | x :: l' => y <- f x ;; ys <- mapM f l' ;; Ok (y :: ys)
  end.

(** [state[:, i]] for a loop position [i]. *)
Definition column_at (state : array2d) (i : nat) : result (list R) :=
  if (i <? ncols state)%nat then mapM (fun row => item_at row i) (rows state)
  else Raise IndexError.

(** What numpy makes of [values] to add it to a column of [n] entries: one
    value for each entry, or one value for all. *)
Definition broadcast (n : nat) (values : list R) : result (list R) :=
  if (length values =? n)%nat then Ok values
  else
    match values with
    | [v] => Ok (repeat v n)
    | _ => Raise (ValueError "operands could not be broadcast together"%string)
    end.

(** [tmp_state[:, idx] += values]. *)
Definition addcolumn (tmp_state : array2d) (idx : Z) (values : list R)
    : result array2d :=
  match normalize_index (ncols tmp_state) idx with
  | Some n =>
      values <- broadcast (length (rows tmp_state)) values ;;
      Ok {| ncols := ncols tmp_state;
            rows := map (fun '(row, v) => update_at n (fun x => (x + v)%R) row)
                      (combine (rows tmp_state) values) |}
  | None => Raise IndexError
  end.

(** The body of the loop over [enumerate(idx2det)] in [apply_operator_SA];
    [anni_idxs] and [create_idxs] are the reversed lists. *)
Definition apply_operator_SA_body (state : array2d) (anni_idxs create_idxs : list Z)
    (num_active_orbs : Z) (parity_check : list Z) (det2idx : gmap Z Z)
    (do_unsafe : bool) (factor : R) (tmp_state : array2d) (i : nat) (det : Z)
    : result array2d :=
  column <- column_at state i ;;
  let is_non_zero := existsb above_threshold column in
  if negb is_non_zero then Ok tmp_state
  else
    r <- apply_string anni_idxs create_idxs num_active_orbs parity_check det ;;
    match r with
    | None => Ok tmp_state
    | Some (det, phase_changes) =>
        if do_unsafe && negb (dict_contains det2idx det) then Ok tmp_state
        else
          let val := (factor * sign phase_changes)%R in
          idx <- dict_getitem det2idx det ;;
          addcolumn tmp_state idx (map (fun x => (val * x)%R) column)
    end.

Definition apply_operator_SA (state : array2d) (anni_idxs create_idxs : list Z)
    (num_active_orbs : Z) (parity_check : list Z) (idx2det : list Z)
    (det2idx : gmap Z Z) (do_unsafe : bool) (tmp_state : array2d)
    (factor : R) : result array2d :=
  let anni_idxs := rev anni_idxs in
  let create_idxs := rev create_idxs in
  foldM (fun tmp_state '(i, det) =>
      apply_operator_SA_body state anni_idxs create_idxs num_active_orbs parity_check
        det2idx do_unsafe factor tmp_state i det)
    (enumerate idx2det) tmp_state.

(** A one-dimensional array as the only row of a two-dimensional one with
    [n] columns. *)
Definition single_row (n : nat) (v : state_vector) : array2d :=
  {| ncols := n; rows := [v] |}.

(** No amplitude is [10 ** -14] in absolute value exactly. *)
Definition off_threshold (state : state_vector) : Prop :=
  Forall (fun x => Rabs x <> threshold) state.

Section WithExternals.

Variable ext : Externals.

(** [get_grad_action]: the generator of step [idx] applied once, through
    [propagate_state] with [thetas = (0.0,)] and [do_folding=False]. Unlike
    [propagate_unitary] it reads no parameter. [A * (Ta + Tb)] is written
    with the sum and the scalar multiple of [FermionicOperator]. *)
Definition get_grad_action (state : state_vector) (idx : Z) (ci_info : CI_Info)
    (ups_struct : UpsStructure) : result state_vector :=
  exc_type <- getitem (ups_excitation_operator_type ups_struct) idx ;;
  exc_indices <- getitem (ups_excitation_indices ups_struct) idx ;;
  let offset := space_extension_offset ci_info in
  if (exc_type =? "sa_single")%string then
    let A := 1%R in
    ia <- unpack2 (shift_indices exc_indices offset) ;;
    let '(i, a) := ia in
    let Ta := G1 ext (i * 2) (a * 2) true in
    let Tb := G1 ext (i * 2 + 1) (a * 2 + 1) true in
    propagate_state ext [OpFermi (op_scale ext A (op_add ext Ta Tb))] state ci_info
      [0%R] (Ups ups_struct) false false
  else if (exc_type =? "single")%string || (exc_type =? "double")%string then
    T <- (if (exc_type =? "single")%string then
            ia <- unpack2 (shift_indices exc_indices (2 * offset)) ;;
            let '(i, a) := ia in
            Ok (G1 ext i a true)
          else if (exc_type =? "double")%string then
            ijab <- unpack4 (shift_indices exc_indices (2 * offset)) ;;
            let '(i, j, a, b) := ijab in
            Ok (G2 ext i j a b true)
          else
            Raise (ValueError ("Got unknown excitation type: " ++ exc_type)%string)) ;;
    propagate_state ext [OpFermi T] state ci_info [0%R] (Ups ups_struct) false false
  else Raise (unknown_excitation_type exc_type).

(** The closed form of a rotation by [theta], built from [get_grad_action]
    applied once and twice:
    [state + sin(theta) g1 + (1 - cos(theta)) g2]. *)
Definition rotation_from_grad_action (state : state_vector) (idx : Z)
    (ci_info : CI_Info) (ups_struct : UpsStructure) (theta : R)
    : result state_vector :=
  g1 <- get_grad_action state idx ci_info ups_struct ;;
  g2 <- get_grad_action g1 idx ci_info ups_struct ;;
  Ok (vadd (vadd state (vscale (sin theta) g1)) (vscale (1 - cos theta) g2)).

(** [propagate_unitary] for [idx = 0, 1, ..., n - 1] in turn. *)
Definition propagate_unitaries (n : nat) (state : state_vector) (ci_info : CI_Info)
    (thetas : list R) (ups_struct : UpsStructure) : result state_vector :=
  foldM (fun tmp idx => propagate_unitary ext tmp idx ci_info thetas ups_struct)
    (range (Z.of_nat n)) state.

(** One round of the loop over [operators[::-1]] in [propagate_state];
    [state] is the argument of [propagate_state]. *)
Definition propagate_item (state : state_vector) (ci_info : CI_Info)
    (thetas : list R) (wf_struct : wf_structure) (do_folding do_unsafe : bool)
    (new_state : state_vector) (op : operator_item) : result state_vector :=
  match op with
  | OpStr op =>
      if negb ((op =? "U")%string || (op =? "Ud")%string) then
        Raise (ValueError
                 ("Unknown str operator, expected ('U', 'Ud') got " ++ op)%string)
      else
        let dagger := (op =? "Ud")%string in
        match wf_struct with
        | Ups ups_struct =>
            construct_ups_state ext new_state ci_info thetas ups_struct dagger
        | Ucc ucc_struct =>
            construct_ucc_state ext new_state ci_info thetas ucc_struct dagger
        | OtherStructure type_name =>
            Raise (TypeError
                     ("Got unknown wave function structure type, " ++ type_name)%string)
        end
  | OpFermi op =>
      propagate_operator ext op state new_state ci_info
        (build_parity_check (num_active_orbs ci_info)) do_folding do_unsafe
  end.

(** The imported [expm_multiply] returns an array of the shape of its
    second argument. *)
Definition expm_keeps_shape : Prop :=
  forall (m : matrix) (v : state_vector), length (expm_multiply ext m v) = length v.

End WithExternals.

(** *** Words for the statements *)

(** The number of ones in the binary representation of a positive number,
    and of an integer: none for zero and for a negative integer, on which
    the loop of [bitcount] does not run. *)
Fixpoint ones (p : positive) : Z :=
  match p with
  | xH => 1
  | xO q => ones q
  | xI q => 1 + ones q
  end.

Definition popcount (x : Z) : Z :=
  match x with
  | Zpos p => ones p
  | _ => 0
  end.

(** The bit of a determinant that holds spin orbital [orb_idx]. *)
Definition orbital_bit (num_active_orbs orb_idx : Z) : Z :=
  2 * num_active_orbs - 1 - orb_idx.

(** The spin orbitals [0 .. 2 * num_active_orbs - 1]. *)
Definition in_active_space (num_active_orbs : Z) (idxs : list Z) : Prop :=
  Forall (fun k => 0 <= k < 2 * num_active_orbs) idxs.

(** Entry [k] of the parity table: the bits of the spin orbitals
    [0 .. k - 1]. *)
Definition parity_mask (num_active_orbs k : Z) : Z :=
  2 ^ (2 * num_active_orbs) - 2 ^ (2 * num_active_orbs - k).

(** The outcome of a loop over indices with [c] added to its phase count. *)
Definition shift_phase (c : Z) (r : result (option (Z * Z))) : result (option (Z * Z)) :=
  match r with
  | Ok (Some (det, phase_changes)) => Ok (Some (det, phase_changes + c))
  | _ => r
  end.

(** The loop over [idxs] continued from the outcome of the loop before. *)
Definition continue_loop (kill_bit : Z) (idxs : list Z) (num_active_orbs : Z)
    (parity_check : list Z) (r : result (option (Z * Z))) : result (option (Z * Z)) :=
  r <- r ;;
  match r with
  | None => Ok None
  | Some (det, phase_changes) =>
      operator_loop kill_bit idxs num_active_orbs parity_check det phase_changes
  end.

(** Two outcomes that are the same exception, both the kill state, or the
    same determinant with phase counts that differ by one. *)
Definition opposite_phase (r r' : result (option (Z * Z))) : Prop :=
  match r, r' with
  | Raise e, Raise e' => e = e'
  | Ok None, Ok None => True
  | Ok (Some (det, phase_changes)), Ok (Some (det', phase_changes')) =>
      det = det' /\ 0 <= phase_changes /\ 0 <= phase_changes'
      /\ (phase_changes' = phase_changes + 1 \/ phase_changes = phase_changes' + 1)
  | _, _ => False
  end.

(** [m[r, c]] read as zero outside the matrix. *)
Definition cell (m : matrix) (r c : nat) : R := nth c (nth r m []) 0%R.

(** The state that is determinant [c] alone, among [n] determinants. *)
Definition unit_vector (n c : nat) : state_vector :=
  update_at c (fun _ => 1%R) (zeros n).

(** [det2idx] is the inverse of [idx2det]. *)
Definition indexed (idx2det : list Z) (det2idx : gmap Z Z) : Prop :=
  (forall i det, nth_error idx2det i = Some det -> det2idx !! det = Some (Z.of_nat i))
  /\ (forall det v, det2idx !! det = Some v ->
        exists i, v = Z.of_nat i /\ nth_error idx2det i = Some det).

(** The matrix element of one string with factor [factor] between the
    determinants at the positions [r] and [c]: the sign times the factor
    when the string, its lists as the loops run through them, takes
    determinant [c] to determinant [r], and zero otherwise. *)
Definition string_entry (anni_idxs create_idxs : list Z) (num_active_orbs : Z)
    (idx2det : list Z) (factor : R) (r c : nat) : R :=
  match nth_error idx2det c, nth_error idx2det r with
  | Some det, Some det_r =>
      match apply_string anni_idxs create_idxs num_active_orbs
              (build_parity_check num_active_orbs) det with
      | Ok (Some (det', phase_changes)) =>
          if det' =? det_r then (factor * sign phase_changes)%R else 0%R
      | _ => 0%R
      end
  | _, _ => 0%R
  end.

(** The Hermitian conjugate of a string: the operators in the opposite
    order, creation and annihilation exchanged. *)
Definition conjugate (fermi_label : list (Z * bool)) : list (Z * bool) :=
  rev (map (fun fermi_op => (fst fermi_op, negb (snd fermi_op))) fermi_label).

(** A string with a factor less its conjugate with the same factor. *)
Definition anti_hermitian_pair (fermi_label : list (Z * bool)) (factor : R)
    : FermionicOperator :=
  {| operators := [(fermi_label, factor); (conjugate fermi_label, (- factor)%R)] |}.

(** The steps of a structure in the opposite order. *)
Definition ups_reversed (ups_struct : UpsStructure) : UpsStructure :=
  {| ups_excitation_operator_type := rev (ups_excitation_operator_type ups_struct);
     ups_excitation_indices := rev (ups_excitation_indices ups_struct) |}.

(** Every parameter is below the threshold [10 ** -14]. *)
Definition all_below_threshold (thetas : list R) : Prop :=
  Forall (fun theta => below_threshold theta = true) thetas.

(** An exception that, if it is a KeyError, names a determinant outside
    [det2idx] and comes from a call with [do_unsafe = false]. *)
Definition absent_key (det2idx : gmap Z Z) (do_unsafe : bool) (e : exception) : Prop :=
  forall det, e = KeyError det -> do_unsafe = false /\ det2idx !! det = None.

End OperatorStateAlgebraRest.

(** ** The exponential unitary as the specification words it

    The specification gives the action of a "single" or "double" step as
    [psi + sin(theta) T psi + (1 - cos(theta)) T^2 psi] for the generator
    [T] of the step. Here [T psi] is the linear action of [T]: the matrix of
    [T] on the determinants of the space applied to [psi], with no
    threshold. *)

Module AnalyticUnitary.

Import stdpp.base stdpp.gmap.
Import Stdlib.Strings.String.
Import OperatorStateAlgebra OperatorStateAlgebraRest.

Local Abbreviation length := Datatypes.length.

Local Open Scope Z_scope.
Local Open Scope result_scope.

(** [psi + sin(theta) T psi + (1 - cos(theta)) T (T psi)] for the matrix
    [T_mat] of [T]. *)
Definition rotation (T_mat : matrix) (theta : R) (psi : state_vector) : state_vector :=
  vadd (vadd psi (vscale (sin theta) (matvec T_mat psi)))
    (vscale (1 - cos theta) (matvec T_mat (matvec T_mat psi))).

(** The matrix of an operator on the determinants of the space. *)
Definition matrix_of (ci_info : CI_Info) (T : FermionicOperator) (T_mat : matrix)
    : Prop :=
  build_operator_matrix T ci_info false = Ok T_mat.

(** A state of the space none of whose amplitudes, and none of those of
    [T psi], is lost to the threshold [10 ** -14]: each is zero or not
    below it. *)
Definition regular (ci_info : CI_Info) (T_mat : matrix) (psi : state_vector) : Prop :=
  length psi = length (idx2det ci_info)
  /\ clear_amplitudes psi
  /\ clear_amplitudes (matvec T_mat psi).

Section WithExternals.

Variable ext : Externals.

(** What the specification says one step makes of [psi], on the states
    that are regular for its generators: nothing when the parameter is
    below the threshold; the closed form for the generator of a "single" or
    "double" step; the closed form for the alpha generator and then, on the
    result, for the beta generator of a "sa_single" step. The parameter is
    negated under [dagger]. *)
Definition step_closed_form (ci_info : CI_Info) (dagger : bool) (psi : state_vector)
    (exc_type : string) (exc_indices : list Z) (theta : R) (out : state_vector)
    : Prop :=
  let offset := space_extension_offset ci_info in
  let theta' := applied_theta dagger theta in
  if below_threshold theta then out = psi
  else if (exc_type =? "sa_single")%string then
    exists (i a : Z) (Ta_mat Tb_mat : matrix),
      unpack2 (shift_indices exc_indices offset) = Ok (i, a)
      /\ matrix_of ci_info (G1 ext (i * 2) (a * 2) true) Ta_mat
      /\ matrix_of ci_info (G1 ext (i * 2 + 1) (a * 2 + 1) true) Tb_mat
      /\ regular ci_info Ta_mat psi
      /\ regular ci_info Tb_mat (rotation Ta_mat theta' psi)
      /\ out = rotation Tb_mat theta' (rotation Ta_mat theta' psi)
  else if (exc_type =? "single")%string || (exc_type =? "double")%string then
    exists (T : FermionicOperator) (T_mat : matrix),
      step_generator ext offset exc_type exc_indices = Ok T
      /\ matrix_of ci_info T T_mat
      /\ regular ci_info T_mat psi
      /\ out = rotation T_mat theta' psi
  else False.

(** The steps one after the other. *)
Fixpoint pass_closed_form (ci_info : CI_Info) (dagger : bool)
    (steps : list (string * list Z * R)) (psi out : state_vector) : Prop :=
  match steps with
  | [] => out = psi
  | (exc_type, exc_indices, theta) :: steps' =>
      exists mid : state_vector,
        step_closed_form ci_info dagger psi exc_type exc_indices theta mid
        /\ pass_closed_form ci_info dagger steps' mid out
  end.

End WithExternals.

(** The steps of a structure with their parameters, in the order the pass
    takes them: reversed under [dagger]. *)
Definition ordered_steps (dagger : bool) (thetas : list R) (ups_struct : UpsStructure)
    : list (string * list Z * R) :=
  combine (combine (ordered dagger (ups_excitation_operator_type ups_struct))
             (ordered dagger (ups_excitation_indices ups_struct)))
    (ordered dagger thetas).

(** *** The generators of the specification

    An excitation string annihilates a spin orbital it does not create; its
    generator is the string less its conjugate. The generator of a single
    excitation from spin orbital [i] to spin orbital [a] is
    [a+_a a_i - a+_i a_a]. *)
Definition excitation (num_active_orbs : Z) (fermi_label : list (Z * bool)) : Prop :=
  in_active_space num_active_orbs (anni_indices fermi_label)
  /\ in_active_space num_active_orbs (create_indices fermi_label)
  /\ exists k, In k (anni_indices fermi_label) /\ ~ In k (create_indices fermi_label).

Definition excitation_generator (num_active_orbs : Z) (T : FermionicOperator) : Prop :=
  exists fermi_label,
    excitation num_active_orbs fermi_label
    /\ T = anti_hermitian_pair fermi_label 1.

Definition single_excitation_generator (num_active_orbs i a : Z) (T : FermionicOperator)
    : Prop :=
  0 <= i < 2 * num_active_orbs /\ 0 <= a < 2 * num_active_orbs /\ i <> a
  /\ T = anti_hermitian_pair [(a, true); (i, false)] 1.

(** *** The generator on determinants

    What a generator [S - S+] does along the row of a determinant: the
    conjugate string, when it applies, gives the determinant of the one
    cell of the row that is not zero and its sign; otherwise the string
    itself does, with the opposite sign. The lists are those the loops of
    [add_operator_matrix] run through. *)
Definition row_action (num_active_orbs : Z) (fermi_label : list (Z * bool)) (det : Z)
    : option (Z * R) :=
  let parity_check := build_parity_check num_active_orbs in
  let anni_idxs := anni_indices fermi_label in
  let create_idxs := create_indices fermi_label in
  match apply_string create_idxs anni_idxs num_active_orbs parity_check det with
  | Ok (Some (det', phase_changes)) => Some (det', sign phase_changes)
  | _ =>
      match apply_string (rev anni_idxs) (rev create_idxs) num_active_orbs
              parity_check det with
      | Ok (Some (det', phase_changes)) => Some (det', (- sign phase_changes)%R)
      | _ => None
      end
  end.

(** The amplitude of a determinant in a state, zero outside the space. *)
Definition amplitude_of (det2idx : gmap Z Z) (x : state_vector) (det : Z) : R :=
  match det2idx !! det with
  | Some idx => nth (Z.to_nat idx) x 0%R
  | None => 0%R
  end.

(** The component of [T x] on a determinant, from [row_action]. *)
Definition row_value (num_active_orbs : Z) (det2idx : gmap Z Z)
    (fermi_label : list (Z * bool)) (x : state_vector) (det : Z) : R :=
  match row_action num_active_orbs fermi_label det with
  | Some (det', a) => (a * amplitude_of det2idx x det')%R
  | None => 0%R
  end.

(** The sign of the occupied spin orbitals below [k], and the sign of one
    operator passing another. *)
Definition parity_sign (num_active_orbs k det : Z) : R :=
  sign (popcount (Z.land det (parity_mask num_active_orbs k))).

Definition crossing (b : bool) : R := if b then (-1)%R else 1%R.

(** *** The law of the matrix exponential

    [expm_multiply(-A, expm_multiply(A, v))] is [v], for a square matrix
    [A] and a vector of its size. *)
Definition expm_inverse (ext : Externals) : Prop :=
  forall (n : nat) (m : matrix) (v : state_vector),
    square n m -> length v = n ->
    expm_multiply ext (mneg m) (expm_multiply ext m v) = v.

Section RoundTrip.

Variable ext : Externals.

(** A step that can be taken forwards from [psi] and backwards from its
    result with no amplitude lost: the generators are those of the
    specification, and the states the two passes apply them to are
    regular. *)
Definition step_reversible (ci_info : CI_Info) (psi : state_vector) (exc_type : string)
    (exc_indices : list Z) (theta : R) : Prop :=
  let offset := space_extension_offset ci_info in
  let n := num_active_orbs ci_info in
  if below_threshold theta then True
  else if (exc_type =? "sa_single")%string then
    exists (i a : Z) (Ta_mat Tb_mat : matrix),
      unpack2 (shift_indices exc_indices offset) = Ok (i, a)
      /\ single_excitation_generator n (i * 2) (a * 2) (G1 ext (i * 2) (a * 2) true)
      /\ single_excitation_generator n (i * 2 + 1) (a * 2 + 1)
           (G1 ext (i * 2 + 1) (a * 2 + 1) true)
      /\ matrix_of ci_info (G1 ext (i * 2) (a * 2) true) Ta_mat
      /\ matrix_of ci_info (G1 ext (i * 2 + 1) (a * 2 + 1) true) Tb_mat
      /\ regular ci_info Ta_mat psi
      /\ regular ci_info Tb_mat (rotation Ta_mat theta psi)
      /\ regular ci_info Ta_mat (rotation Tb_mat theta (rotation Ta_mat theta psi))
      /\ regular ci_info Tb_mat (rotation Tb_mat theta psi)
  else if (exc_type =? "single")%string || (exc_type =? "double")%string then
    exists (T : FermionicOperator) (T_mat : matrix),
      step_generator ext offset exc_type exc_indices = Ok T
      /\ excitation_generator n T
      /\ matrix_of ci_info T T_mat
      /\ regular ci_info T_mat psi
      /\ regular ci_info T_mat (rotation T_mat theta psi)
  else False.

(** Every step is reversible from the state the forward pass brings to
    it. *)
Fixpoint pass_reversible (ci_info : CI_Info) (steps : list (string * list Z * R))
    (psi : state_vector) : Prop :=
  match steps with
  | [] => True
  | (exc_type, exc_indices, theta) :: steps' =>
      step_reversible ci_info psi exc_type exc_indices theta
      /\ forall mid,
           step_closed_form ext ci_info false psi exc_type exc_indices theta mid ->
           pass_reversible ci_info steps' mid
  end.

End RoundTrip.

(** The matrix of the generator of [example_ups] on [example_ci]. *)
Definition example_matrix : matrix := [[0%R; (-1)%R]; [1%R; 0%R]].

(** The four determinants of two active orbitals that hold one alpha and
    one beta electron: spin orbitals (0, 1), (0, 3), (1, 2) and (2, 3). *)
Definition paired_ci : CI_Info :=
  {| idx2det := [12; 9; 6; 3];
     det2idx := <[12 := 0]> (<[9 := 1]> (<[6 := 2]> (<[3 := 3]> ∅)));
     num_inactive_orbs := 0;
     num_active_orbs := 2;
     num_virtual_orbs := 0;
     space_extension_offset := 0 |}.

(** The double excitation from spin orbitals 0 and 1 to spin orbitals 2 and
    3, then the single excitation from spin orbital 0 to spin orbital 2,
    then the spin-adapted single excitation from orbital 0 to orbital 1. *)
Definition paired_ups : UpsStructure :=
  {| ups_excitation_operator_type :=
       ["double"%string; "single"%string; "sa_single"%string];
     ups_excitation_indices := [[0; 1; 2; 3]; [0; 2]; [0; 1]] |}.

(** The parameter [PI / 2] for each of its steps. *)
Definition paired_thetas : list R := [(PI / 2)%R; (PI / 2)%R; (PI / 2)%R].

(** The matrices of the double excitation and of the alpha and the beta
    single excitation of [paired_ups] on [paired_ci]. *)
Definition paired_double_matrix : matrix :=
  [[0; 0; 0; -1]; [0; 0; 0; 0]; [0; 0; 0; 0]; [1; 0; 0; 0]]%R.

Definition paired_alpha_matrix : matrix :=
  [[0; 0; 1; 0]; [0; 0; 0; -1]; [-1; 0; 0; 0]; [0; 1; 0; 0]]%R.

Definition paired_beta_matrix : matrix :=
  [[0; -1; 0; 0]; [1; 0; 0; 0]; [0; 0; 0; 1]; [0; 0; -1; 0]]%R.

(** The exponential of the matrix [[0, -t], [t, 0]] applied to a vector of
    the plane, the rotation by the angle [t]; the vector itself for every
    other matrix. *)
Definition plane_expm (m : matrix) (v : state_vector) : state_vector :=
  match m, v with
  | [[a; b]; [c; d]], [x; y] =>
      if Req_dec_T a 0 then
        if Req_dec_T d 0 then
          if Req_dec_T b (- c) then
            [(cos c * x - sin c * y)%R; (sin c * x + cos c * y)%R]
          else v
        else v
      else v
  | _, _ => v
  end.

(** [example_externals] with that exponential. *)
Definition plane_externals : Externals :=
  {| G1 := G1 example_externals;
     G2 := G2 example_externals;
     G3 := G3 example_externals;
     G4 := G4 example_externals;
     G5 := G5 example_externals;
     G6 := G6 example_externals;
     G1_sa := G1_sa example_externals;
     G2_1_sa := G2_1_sa example_externals;
     G2_2_sa := G2_2_sa example_externals;
     op_add := op_add example_externals;
     op_scale := op_scale example_externals;
     get_folded_operator := get_folded_operator example_externals;
     expm_multiply := plane_expm |}.

(** The UCC structure of the single excitation of [example_ups]. *)
Definition example_ucc : UccStructure :=
  {| ucc_excitation_operator_type := ["single"%string];
     ucc_excitation_indices := [[0; 2]] |}.

(** Its operator with the parameter [PI / 2], and the matrix of that
    operator on [example_ci]. *)
Definition example_ucc_operator : FermionicOperator :=
  {| operators :=
       [([(2, true); (0, false)], (PI / 2 * 1)%R);
        ([(0, true); (2, false)], (PI / 2 * -1)%R)] |}.

Definition example_ucc_matrix : matrix :=
  [[0%R; (0 + PI / 2 * -1 * 1)%R]; [(0 + PI / 2 * 1 * 1)%R; 0%R]].

End AnalyticUnitary.

(** * Properties of the RDM oracle and of the evaluators *)

Module DensityMatrixFacts.

Import DensityMatrix.

Local Open Scope Z_scope.

(** ** Deciding the block tests *)

Lemma geb_true a b : b <= a -> (a >=? b) = true.
Proof. intros H. rewrite Z.geb_leb. now apply Z.leb_le. Qed.

Lemma geb_false a b : a < b -> (a >=? b) = false.
Proof. intros H. rewrite Z.geb_leb. now apply Z.leb_gt. Qed.

Lemma ltb_true a b : a < b -> (a <? b) = true.
Proof. intros H. now apply Z.ltb_lt. Qed.

Lemma ltb_false a b : b <= a -> (a <? b) = false.
Proof. intros H. now apply Z.ltb_ge. Qed.

(** Every comparison of the goal whose outcome follows from the context is
    replaced by its value. *)
Ltac decide_tests :=
  repeat match goal with
  | |- context [(?a >=? ?b)] =>
      first [ rewrite (geb_true a b) by lia | rewrite (geb_false a b) by lia ]
  | |- context [(?a <? ?b)] =>
      first [ rewrite (ltb_true a b) by lia | rewrite (ltb_false a b) by lia ]
  end.

(** The three-way position of an index, in the order the code tests it. *)
Lemma index_position (ni na p : Z) :
  ni + na <= p \/ (ni <= p < ni + na) \/ (p < ni /\ p < ni + na).
Proof. lia. Qed.

Ltac split_position ni na p :=
  destruct (index_position ni na p) as [? | [? | [? ?]]].

Ltac split_equalities :=
  repeat match goal with
  | |- context [(?a =? ?b)] => destruct (Z.eqb_spec a b)
  end.

(** C1. Under a non-negative active count, [RDM2] is the block table of the
    specification: zero as soon as one index is virtual, the active tensor
    entry on four active indices, [4 d_pq d_rs - 2 d_qr d_ps] on four
    inactive indices, the four signed and scaled 1-RDM lookups on the mixed
    patterns uvij, ijuv, iuvj and uijv, and zero on every other pattern. *)
Theorem RDM2_branch_exact (p q r s ni na : Z) (rdm1 : array2) (rdm2 : array4) :
  0 <= na ->
  RDM2 p q r s ni na rdm1 rdm2 = RDM2_spec p q r s ni na rdm1 rdm2.
Proof.
  intros Hna. unfold RDM2, RDM2_spec, classify, delta.
  split_position ni na p; split_position ni na q;
    split_position ni na r; split_position ni na s;
    decide_tests; cbn [orb andb]; try reflexivity;
    split_equalities; cbn [orb andb]; try lia; lra.
Qed.

Lemma RDM2_branch_exact_witness :
  0 <= 2 /\
  RDM2 0 2 1 0 1 2 (fun i j => IZR (i + j)) (fun i j k l => IZR (i * k + j * l))
  = RDM2_spec 0 2 1 0 1 2 (fun i j => IZR (i + j)) (fun i j k l => IZR (i * k + j * l)).
Proof. split; [lia | apply RDM2_branch_exact; lia]. Defined.

(** ** Permutation symmetry *)

Ltac use_symmetry H1 H2 :=
  first
    [ reflexivity
    | lia
    | apply H2; lia
    | apply H1; lia
    | f_equal; apply H1; lia
    | lra ].

(** C5. With a symmetric active 1-RDM and an active 2-RDM that has the
    fourfold permutation symmetry on the active block, the full-space oracle
    satisfies RDM2(p,q,r,s) = RDM2(r,s,p,q) = RDM2(q,p,s,r) = RDM2(s,r,q,p)
    for every index quadruple. *)
Theorem RDM2_permutation_symmetry (ni na : Z) (rdm1 : array2) (rdm2 : array4) :
  symmetric_on na rdm1 ->
  fourfold_symmetric_on na rdm2 ->
  forall p q r s,
    RDM2 p q r s ni na rdm1 rdm2 = RDM2 r s p q ni na rdm1 rdm2 /\
    RDM2 r s p q ni na rdm1 rdm2 = RDM2 q p s r ni na rdm1 rdm2 /\
    RDM2 q p s r ni na rdm1 rdm2 = RDM2 s r q p ni na rdm1 rdm2.
Proof.
  intros H1 H2 p q r s.
  assert (Hact : forall i j k l,
             ni <= i < ni + na -> ni <= j < ni + na ->
             ni <= k < ni + na -> ni <= l < ni + na ->
             rdm2 (i - ni) (j - ni) (k - ni) (l - ni)
             = rdm2 (k - ni) (l - ni) (i - ni) (j - ni) /\
             rdm2 (i - ni) (j - ni) (k - ni) (l - ni)
             = rdm2 (j - ni) (i - ni) (l - ni) (k - ni) /\
             rdm2 (i - ni) (j - ni) (k - ni) (l - ni)
             = rdm2 (l - ni) (k - ni) (j - ni) (i - ni)).
  { intros. apply H2; lia. }
  unfold RDM2.
  split_position ni na p; split_position ni na q;
    split_position ni na r; split_position ni na s;
    decide_tests; cbn [orb andb]; try (repeat split; reflexivity).
  - (* four active indices *)
    destruct (Hact p q r s) as (E1 & E2 & E3); try lia.
    repeat split; congruence.
  - (* uvij *)
    split_equalities; repeat split; use_symmetry H1 H2.
  - (* uijv *)
    split_equalities; repeat split; use_symmetry H1 H2.
  - (* iuvj *)
    split_equalities; repeat split; use_symmetry H1 H2.
  - (* ijuv *)
    split_equalities; repeat split; use_symmetry H1 H2.
  - (* four inactive indices *)
    split_equalities; cbn [andb]; repeat split; use_symmetry H1 H2.
Qed.

Lemma RDM2_permutation_symmetry_witness :
  symmetric_on 2 (fun i j => IZR (i + j)) /\
  fourfold_symmetric_on 2 (fun i j k l => IZR (i * k + j * l)) /\
  RDM2 1 2 2 1 1 2 (fun i j => IZR (i + j)) (fun i j k l => IZR (i * k + j * l))
  = RDM2 2 1 1 2 1 2 (fun i j => IZR (i + j)) (fun i j k l => IZR (i * k + j * l)).
Proof.
  assert (H1 : symmetric_on 2 (fun i j => IZR (i + j))).
  { intros i j _ _. f_equal. lia. }
  assert (H2 : fourfold_symmetric_on 2 (fun i j k l => IZR (i * k + j * l))).
  { intros i j k l _ _ _ _. repeat split; f_equal; lia. }
  split; [exact H1 | split; [exact H2 |]].
  exact (proj1 (RDM2_permutation_symmetry 1 2
                  (fun i j => IZR (i + j)) (fun i j k l => IZR (i * k + j * l))
                  H1 H2 1 2 2 1)).
Defined.

(** ** Loops over [enumerate] that update one array cell per iteration *)

Section ArrayLoops.

Context {A X : Type}.

Lemma update_at_app (pre : list A) (x : A) (rest : list A) (f : A -> A) (i : nat) :
  length pre = i ->
  update_at i f (pre ++ x :: rest) = pre ++ f x :: rest.
Proof.
  revert i. induction pre as [|y pre IH]; intros i Hi; cbn in *.
  - now subst i.
  - destruct i as [|i]; [discriminate|]. cbn. f_equal. apply IH. lia.
Qed.

Lemma length_update_at (i : nat) (f : A -> A) (a : list A) :
  length (update_at i f a) = length a.
Proof.
  revert i. induction a as [|x a IH]; intros [|i]; cbn; auto.
Qed.

Lemma fold_left_ext {B : Type} (f f' : B -> X -> B) (l : list X) (b : B) :
  (forall b x, f b x = f' b x) -> fold_left f l b = fold_left f' l b.
Proof.
  intros E. revert b. induction l as [|x l IH]; intros b; cbn; [reflexivity|].
  now rewrite E, IH.
Qed.

(** A loop [for idx, x in enumerate(l): a[idx + shift] = F x a[idx + shift]]
    rewrites the window of [a] that starts at [shift] and leaves the rest. *)
Lemma fold_update_window (F : X -> A -> A) (shift : nat) (l : list X) :
  forall (start : nat) (pre mid post : list A),
    length pre = (start + shift)%nat ->
    length mid = length l ->
    fold_left (fun a '(idx, x) => update_at (idx + shift) (F x) a)
      (enumerate_from start l) (pre ++ mid ++ post)
    = pre ++ map (fun '(x, y) => F x y) (combine l mid) ++ post.
Proof.
  induction l as [|x l IH]; intros start pre mid post Hpre Hmid.
  - destruct mid; [reflexivity | discriminate].
  - destruct mid as [|y mid]; [discriminate|].
    cbn [enumerate_from fold_left combine map app].
    rewrite update_at_app by assumption.
    change (pre ++ F x y :: mid ++ post) with (pre ++ [F x y] ++ mid ++ post).
    rewrite app_assoc, IH.
    + now rewrite <- app_assoc.
    + rewrite length_app. cbn. lia.
    + cbn in Hmid. lia.
Qed.

End ArrayLoops.

(** Two loops over the same list whose bodies keep a relation between the
    accumulators keep it to the end. *)
Lemma fold_left_related {X : Type} (Rel : R -> R -> Prop) (f f' : R -> X -> R)
    (l : list X) :
  (forall a a' x, Rel a a' -> Rel (f a x) (f' a' x)) ->
  forall a a', Rel a a' -> Rel (fold_left f l a) (fold_left f' l a').
Proof.
  intros Hstep. induction l as [|x l IH]; intros a a' Ha; cbn; auto.
Qed.

Lemma map_combine_repeat {X Y Z : Type} (G : X * Y -> Z) (c : Y) (l : list X) :
  map G (combine l (repeat c (length l))) = map (fun x => G (x, c)) l.
Proof.
  induction l as [|x l IH]; cbn; [reflexivity|]. now rewrite IH.
Qed.

Lemma combine_zeros {X : Type} (F : X -> R -> R) (l : list X) :
  map (fun '(x, y) => F x y) (combine l (zeros (length l)))
  = map (fun x => F x 0%R) l.
Proof.
  induction l as [|x l IH]; cbn; [reflexivity|]. now rewrite <- IH.
Qed.

Lemma zeros_app (n m : nat) : zeros (n + m) = zeros n ++ zeros m.
Proof. apply repeat_app. Qed.

Lemma length_zeros (n : nat) : length (zeros n) = n.
Proof. apply repeat_length. Qed.

(** ** The orbital gradient, entry by entry *)

Section Gradients.

Variables (h_int : array2) (g_int : array4) (ni na : Z)
          (rdm1 : array2) (rdm2 : array4).

Local Abbreviation gradient_entry := (gradient_entry h_int g_int ni na rdm1 rdm2).
Local Abbreviation response_entry := (response_entry h_int g_int ni na rdm1 rdm2).

Lemma get_orbital_gradient_entries (kappa_idx : list (Z * Z)) :
  get_orbital_gradient h_int g_int kappa_idx ni na rdm1 rdm2
  = map (fun '(m, n) => gradient_entry m n) kappa_idx.
Proof.
  unfold get_orbital_gradient, enumerate.
  rewrite (fold_left_ext _
             (fun a '(idx, x) =>
                update_at (idx + 0)
                  ((fun '(m, n) acc =>
                      gradient_2e_loop g_int m n ni na rdm1 rdm2
                        (gradient_1e_loop h_int m n ni na rdm1 acc)) x) a)).
  2:{ intros a [idx [m n]]. now rewrite Nat.add_0_r. }
  pose proof (fold_update_window
                (fun '(m, n) acc =>
                   gradient_2e_loop g_int m n ni na rdm1 rdm2
                     (gradient_1e_loop h_int m n ni na rdm1 acc))
                0 kappa_idx 0 [] (zeros (length kappa_idx)) []) as E.
  cbn [app] in E. rewrite app_nil_r in E. rewrite E.
  - rewrite app_nil_r, combine_zeros. apply map_ext. now intros [m n].
  - reflexivity.
  - apply length_zeros.
Qed.

Lemma get_orbital_gradient_response_entries (kappa_idx : list (Z * Z)) :
  get_orbital_gradient_response h_int g_int kappa_idx ni na rdm1 rdm2
  = map (fun x => (two_pow_minus_half * x)%R)
      (map (fun '(m, n) => response_entry m n) kappa_idx
       ++ map (fun '(n, m) => response_entry m n) kappa_idx).
Proof.
  unfold get_orbital_gradient_response, enumerate. f_equal.
  replace (2 * length kappa_idx)%nat with (length kappa_idx + length kappa_idx)%nat by lia.
  rewrite zeros_app.
  rewrite (fold_left_ext
             (fun gradient '(idx, (m, n)) => update_at idx _ gradient)
             (fun a '(idx, x) =>
                update_at (idx + 0)
                  ((fun '(m, n) acc =>
                      response_2e_loop g_int m n ni na rdm1 rdm2
                        (response_1e_loop h_int m n ni na rdm1 acc)) x) a)).
  2:{ intros a [idx [m n]]. now rewrite Nat.add_0_r. }
  pose proof (fold_update_window
                (fun '(m, n) acc =>
                   response_2e_loop g_int m n ni na rdm1 rdm2
                     (response_1e_loop h_int m n ni na rdm1 acc))
                0 kappa_idx 0 [] (zeros (length kappa_idx))
                (zeros (length kappa_idx))) as E.
  cbn [app] in E. rewrite E; [| reflexivity | apply length_zeros]. clear E.
  rewrite combine_zeros.
  rewrite (fold_left_ext
             (fun gradient '(idx, (n, m)) => update_at (idx + length kappa_idx) _ gradient)
             (fun a '(idx, x) =>
                update_at (idx + length kappa_idx)
                  ((fun '(n, m) acc =>
                      response_2e_loop g_int m n ni na rdm1 rdm2
                        (response_1e_loop h_int m n ni na rdm1 acc)) x) a)).
  2:{ now intros a [idx [m n]]. }
  pose proof (fold_update_window
                (fun '(n, m) acc =>
                   response_2e_loop g_int m n ni na rdm1 rdm2
                     (response_1e_loop h_int m n ni na rdm1 acc))
                (length kappa_idx) kappa_idx 0
                (map (fun x => (let '(m, n) := x in
                                fun acc =>
                                  response_2e_loop g_int m n ni na rdm1 rdm2
                                    (response_1e_loop h_int m n ni na rdm1 acc)) 0%R)
                   kappa_idx)
                (zeros (length kappa_idx)) []) as E.
  rewrite app_nil_r in E. rewrite E; clear E.
  - rewrite app_nil_r, combine_zeros. f_equal.
    + apply map_ext. now intros [m n].
    + apply map_ext. now intros [m n].
  - now rewrite length_map.
  - apply length_zeros.
Qed.

(** Every coefficient of the response loops, one-electron ones included,
    is half the coefficient of the gradient loops. *)
Lemma response_entry_half (m n : Z) :
  response_entry m n = (1 / 2 * gradient_entry m n)%R.
Proof.
  unfold DensityMatrix.response_entry, DensityMatrix.gradient_entry.
  unfold response_2e_loop, gradient_2e_loop, response_1e_loop, gradient_1e_loop.
  cbv zeta.
  apply (fold_left_related (fun a a' => a' = (1 / 2 * a)%R)).
  - intros a a' p E.
    apply (fold_left_related (fun a a' => a' = (1 / 2 * a)%R)); [|exact E].
    clear a a' E. intros a a' q E.
    apply (fold_left_related (fun a a' => a' = (1 / 2 * a)%R)); [|exact E].
    clear a a' E. intros a a' r E. subst a'. lra.
  - apply (fold_left_related (fun a a' => a' = (1 / 2 * a)%R)).
    + intros a a' p E. subst a'. lra.
    + lra.
Qed.

End Gradients.

Lemma two_pow_minus_half_pos : (0 < two_pow_minus_half)%R.
Proof. unfold two_pow_minus_half, Rpower. apply exp_pos. Qed.

(** C6, as the code has it. The response gradient is the orbital gradient of
    the listed pairs followed by the orbital gradient of the swapped pairs,
    every entry multiplied by [2 ** (-1 / 2)] and by one half: the
    one-electron coefficients are halved together with the two-electron
    ones. Its length is twice the number of pairs. *)
Theorem get_orbital_gradient_response_halves (h_int : array2) (g_int : array4)
    (kappa_idx : list (Z * Z)) (ni na : Z) (rdm1 : array2) (rdm2 : array4) :
  get_orbital_gradient_response h_int g_int kappa_idx ni na rdm1 rdm2
  = map (fun x => (two_pow_minus_half * (1 / 2 * x))%R)
      (get_orbital_gradient h_int g_int kappa_idx ni na rdm1 rdm2
       ++ get_orbital_gradient h_int g_int (swap_pairs kappa_idx) ni na rdm1 rdm2)
  /\ length (get_orbital_gradient_response h_int g_int kappa_idx ni na rdm1 rdm2)
     = (2 * length kappa_idx)%nat.
Proof.
  rewrite get_orbital_gradient_response_entries, !get_orbital_gradient_entries.
  split.
  - unfold swap_pairs. rewrite !map_app, !map_map. f_equal.
    + apply map_ext. intros [m n]. now rewrite response_entry_half.
    + apply map_ext. intros [n m]. now rewrite response_entry_half.
  - rewrite length_map, length_app, !length_map. lia.
Qed.

(** C6, as the claim words it, fails: with one inactive and one active
    orbital, [h_int[1, 0] = 1] its only non-zero integral, no two-electron
    integrals and the pair [(0, 1)], the code returns [2 ** (-1 / 2) * 1]
    in the first cell where unchanged one-electron contributions would give
    [2 ** (-1 / 2) * 2]. *)
Lemma get_orbital_gradient_response_not_spec :
  get_orbital_gradient_response
    (fun n p => if (n =? 1) && (p =? 0) then 1%R else 0%R) (fun _ _ _ _ => 0%R)
    [(0, 1)] 1 1 (fun _ _ => 1%R) (fun _ _ _ _ => 0%R)
  <> get_orbital_gradient_response_spec
    (fun n p => if (n =? 1) && (p =? 0) then 1%R else 0%R) (fun _ _ _ _ => 0%R)
    [(0, 1)] 1 1 (fun _ _ => 1%R) (fun _ _ _ _ => 0%R).
Proof.
  rewrite get_orbital_gradient_response_entries.
  unfold get_orbital_gradient_response_spec, response_entry_spec, response_entry.
  unfold response_2e_loop, gradient_2e_loop, response_1e_loop, gradient_1e_loop.
  unfold RDM1, RDM2. cbn.
  intros E. injection E as E1 E2.
  pose proof two_pow_minus_half_pos. nra.
Qed.


(** ** The Sigma matrix *)

Section UpdateAlgebra.

Context {A : Type}.

Lemma update_at_compose (i : nat) (f g : A -> A) (a : list A) :
  update_at i f (update_at i g a) = update_at i (fun x => f (g x)) a.
Proof.
  revert i. induction a as [|x a IH]; intros [|i]; cbn; try reflexivity.
  now rewrite IH.
Qed.

Lemma update_at_id (i : nat) (a : list A) : update_at i (fun x => x) a = a.
Proof.
  revert i. induction a as [|x a IH]; intros [|i]; cbn; try reflexivity.
  now rewrite IH.
Qed.

Lemma update_at_ext (i : nat) (f g : A -> A) (a : list A) :
  (forall x, f x = g x) -> update_at i f a = update_at i g a.
Proof.
  intros E. revert i. induction a as [|x a IH]; intros [|i]; cbn; try reflexivity.
  - now rewrite E.
  - now rewrite IH.
Qed.

(** A loop that only ever touches cell [i] is one update of cell [i]. *)
Lemma fold_update_same_cell {X : Type} (H : X -> A -> A) (i : nat) (l : list X)
    (a : list A) :
  fold_left (fun a x => update_at i (H x) a) l a
  = update_at i (fun y => fold_left (fun y x => H x y) l y) a.
Proof.
  revert a. induction l as [|x l IH]; intros a; cbn.
  - now rewrite update_at_id.
  - now rewrite IH, update_at_compose.
Qed.

End UpdateAlgebra.

Section Sigma.

Variables (ni na : Z) (rdm1 : array2).

Local Open Scope R_scope.

Local Abbreviation cell_step :=
  (fun n m p q => sigma_cell_step n m p q ni na rdm1).

Lemma cell_step_entry (n m p q : Z) :
  - 1 / 2 * cell_step n m p q 0 = sigma_entry n m p q ni na rdm1.
Proof.
  unfold sigma_cell_step, sigma_entry, delta.
  rewrite (Z.eqb_sym p n).
  destruct (Z.eqb_spec n p), (Z.eqb_spec m q); lra.
Qed.

Lemma get_orbital_response_metric_sigma_entries (kappa_idx : list (Z * Z)) :
  get_orbital_response_metric_sigma kappa_idx ni na rdm1
  = map (fun '(n, m) =>
           map (fun '(p, q) => sigma_entry n m p q ni na rdm1) kappa_idx)
      kappa_idx.
Proof.
  unfold get_orbital_response_metric_sigma, enumerate.
  set (K := length kappa_idx).
  rewrite (fold_left_ext _
             (fun sigma '(idx1, x) =>
                update_at (idx1 + 0)
                  ((fun '(n, m) row =>
                      fold_left (fun row '(idx2, y) =>
                          update_at (idx2 + 0)
                            ((fun '(p, q) => cell_step n m p q) y) row)
                        (enumerate_from 0 kappa_idx) row) x)
                  sigma)).
  2:{ intros sigma [idx1 [n m]]. rewrite Nat.add_0_r.
      rewrite <- fold_update_same_cell.
      apply fold_left_ext. intros sg [idx2 [p q]]. rewrite Nat.add_0_r.
      unfold sigma_cell_step. cbv zeta.
      destruct (p =? n)%Z, (m =? q)%Z;
        rewrite ?update_at_compose; try reflexivity.
      + apply update_at_ext. intros row. now rewrite update_at_compose.
      + symmetry. etransitivity; [|apply update_at_id].
        apply update_at_ext. intros row. apply update_at_id. }
  pose proof (fold_update_window
                (fun '(n, m) row =>
                   fold_left (fun row '(idx2, y) =>
                       update_at (idx2 + 0)
                         ((fun '(p, q) => cell_step n m p q) y) row)
                     (enumerate_from 0 kappa_idx) row)
                0 kappa_idx 0 [] (repeat (zeros K) K) []) as E.
  cbn [app] in E. rewrite app_nil_r in E.
  rewrite E; [| reflexivity | apply repeat_length]. clear E.
  rewrite app_nil_r, map_map.
  subst K. rewrite map_combine_repeat.
  apply map_ext. intros [n m].
  pose proof (fold_update_window
                (fun '(p, q) => cell_step n m p q)
                0 kappa_idx 0 [] (zeros (length kappa_idx)) []) as E.
  cbn [app] in E. rewrite app_nil_r in E.
  rewrite E; [| reflexivity | apply length_zeros]. clear E.
  rewrite app_nil_r, combine_zeros, map_map.
  apply map_ext. intros [p q]. apply cell_step_entry.
Qed.

End Sigma.

Lemma RDM1_symmetric (ni na : Z) (rdm1 : array2) (p q : Z) :
  symmetric_on na rdm1 -> RDM1 p q ni na rdm1 = RDM1 q p ni na rdm1.
Proof.
  intros H1. unfold RDM1.
  split_position ni na p; split_position ni na q;
    decide_tests; cbn [orb andb]; try reflexivity.
  - apply H1; lia.
  - rewrite (Z.eqb_sym q p). reflexivity.
Qed.

Lemma sigma_entry_symmetric (ni na : Z) (rdm1 : array2) (n m p q : Z) :
  symmetric_on na rdm1 ->
  sigma_entry n m p q ni na rdm1 = sigma_entry p q n m ni na rdm1.
Proof.
  intros H1. unfold sigma_entry, delta.
  rewrite (RDM1_symmetric ni na rdm1 q m H1), (RDM1_symmetric ni na rdm1 n p H1).
  rewrite (Z.eqb_sym n p), (Z.eqb_sym q m). reflexivity.
Qed.

Lemma entry_of_maps {X : Type} (f : X -> X -> R) (l : list X) (i j : nat) (x y : X) :
  nth_error l i = Some x -> nth_error l j = Some y ->
  entry (map (fun a => map (fun b => f a b) l) l) i j = f x y.
Proof.
  intros Hi Hj. unfold entry.
  rewrite (nth_indep _ [] (map (fun b => f x b) l)).
  2:{ rewrite length_map. apply nth_error_Some. congruence. }
  rewrite (map_nth (fun a => map (fun b => f a b) l) l x i).
  rewrite (nth_indep _ 0%R (f (nth i l x) y)).
  2:{ rewrite length_map. apply nth_error_Some. congruence. }
  rewrite (map_nth (fun b => f (nth i l x) b) l y j).
  now rewrite (nth_error_nth l i x Hi), (nth_error_nth l j y Hj).
Qed.

(** C7, as the code has it. The cell of Sigma for the row pair [(n, m)] and
    the column pair [(p, q)] is [-1/2 (d_pn G1_mq - d_mq G1_pn)], and with a
    symmetric active 1-RDM the matrix is symmetric: the cell at
    [(idx1, idx2)] equals the cell at [(idx2, idx1)]. *)
Theorem get_orbital_response_metric_sigma_symmetric (kappa_idx : list (Z * Z))
    (ni na : Z) (rdm1 : array2) (idx1 idx2 : nat) (n m p q : Z) :
  symmetric_on na rdm1 ->
  nth_error kappa_idx idx1 = Some (n, m) ->
  nth_error kappa_idx idx2 = Some (p, q) ->
  entry (get_orbital_response_metric_sigma kappa_idx ni na rdm1) idx1 idx2
  = sigma_entry n m p q ni na rdm1
  /\ entry (get_orbital_response_metric_sigma kappa_idx ni na rdm1) idx1 idx2
     = entry (get_orbital_response_metric_sigma kappa_idx ni na rdm1) idx2 idx1.
Proof.
  intros H1 Hi Hj.
  rewrite get_orbital_response_metric_sigma_entries.
  rewrite (map_ext _ (fun a => map (fun b =>
             sigma_entry (fst a) (snd a) (fst b) (snd b) ni na rdm1) kappa_idx)).
  2:{ intros [a b]. apply map_ext. now intros [c d]. }
  rewrite (entry_of_maps
             (fun a b => sigma_entry (fst a) (snd a) (fst b) (snd b) ni na rdm1)
             kappa_idx idx1 idx2 (n, m) (p, q) Hi Hj).
  rewrite (entry_of_maps
             (fun a b => sigma_entry (fst a) (snd a) (fst b) (snd b) ni na rdm1)
             kappa_idx idx2 idx1 (p, q) (n, m) Hj Hi).
  cbn [fst snd]. split; [reflexivity|].
  now apply sigma_entry_symmetric.
Qed.

Lemma get_orbital_response_metric_sigma_symmetric_witness :
  symmetric_on 2 (fun i j => IZR (i * j)) /\
  nth_error [(0, 1); (1, 2)] 0 = Some (0, 1) /\
  nth_error [(0, 1); (1, 2)] 1 = Some (1, 2) /\
  entry (get_orbital_response_metric_sigma [(0, 1); (1, 2)] 1 2
           (fun i j => IZR (i * j))) 0 1
  = entry (get_orbital_response_metric_sigma [(0, 1); (1, 2)] 1 2
             (fun i j => IZR (i * j))) 1 0.
Proof.
  assert (H1 : symmetric_on 2 (fun i j => IZR (i * j))).
  { intros i j _ _. f_equal. lia. }
  split; [exact H1 | split; [reflexivity | split; [reflexivity |]]].
  exact (proj2 (get_orbital_response_metric_sigma_symmetric
                  [(0, 1); (1, 2)] 1 2 (fun i j => IZR (i * j)) 0 1 0 1 1 2
                  H1 eq_refl eq_refl)).
Defined.

(** C7, as the claim words it, fails: for the single pair [(0, 1)] with one
    inactive and one active orbital and active 1-RDM [[1]], the diagonal cell
    of Sigma is [1/2], which is not its own opposite. *)
Lemma get_orbital_response_metric_sigma_not_antisymmetric :
  symmetric_on 1 (fun _ _ => 1%R) /\
  entry (get_orbital_response_metric_sigma [(0, 1)] 1 1 (fun _ _ => 1%R)) 0 0
  <> Ropp (entry (get_orbital_response_metric_sigma [(0, 1)] 1 1 (fun _ _ => 1%R)) 0 0).
Proof.
  split; [now intros i j _ _|].
  rewrite get_orbital_response_metric_sigma_entries.
  cbv - [Rplus Rminus Rmult Ropp Rdiv Rinv IZR]. lra.
Qed.


End DensityMatrixFacts.

(** * Properties of the operator application and of state propagation *)

Module OperatorStateAlgebraFacts.

Import stdpp.base stdpp.gmap.
Import Stdlib.Strings.String.
Import OperatorStateAlgebra.
Import DensityMatrixFacts.

Local Abbreviation length := Datatypes.length.

Local Open Scope Z_scope.
Local Open Scope result_scope.

(** ** Loops that may raise *)

Section Loops.

Context {A B : Type}.

Lemma foldM_app (f : A -> B -> result A) (l1 l2 : list B) (a : A) :
  foldM f (l1 ++ l2) a = (a' <- foldM f l1 a ;; foldM f l2 a').
Proof.
  revert a. induction l1 as [|x l1 IH]; intros a; cbn; [reflexivity|].
  destruct (f a x) as [a'|e]; cbn; [apply IH | reflexivity].
Qed.

Lemma foldM_ext (f g : A -> B -> result A) (l : list B) (a : A) :
  (forall a x, f a x = g a x) -> foldM f l a = foldM g l a.
Proof.
  intros E. revert a. induction l as [|x l IH]; intros a; cbn; [reflexivity|].
  rewrite E. destruct (g a x); cbn; auto.
Qed.

(** A loop that reaches an iteration which raises from every accumulator
    raises. *)
Lemma foldM_raises (f : A -> B -> result A) (pre post : list B) (x : B) (a : A) :
  (forall a, exists e, f a x = Raise e) ->
  exists e, foldM f (pre ++ x :: post) a = Raise e.
Proof.
  intros Hx. rewrite foldM_app.
  destruct (foldM f pre a) as [a'|e]; cbn; [|eauto].
  destruct (Hx a') as [e He]. rewrite He. cbn. eauto.
Qed.

End Loops.

(** What every iteration keeps, the loop keeps. *)
Lemma foldM_invariant {A B : Type} (P : A -> Prop) (f : A -> B -> result A)
    (l : list B) :
  (forall a x a', P a -> f a x = Ok a' -> P a') ->
  forall a a', P a -> foldM f l a = Ok a' -> P a'.
Proof.
  intros Hf. induction l as [|x l IH]; intros a a' Ha H; cbn in H.
  - now injection H as <-.
  - destruct (f a x) as [a1|e] eqn:E; cbn in H; [|discriminate].
    eapply IH; [|exact H]. eapply Hf; eauto.
Qed.

(** Two loops over one list whose bodies keep a relation between the
    accumulators: when the first returns, so does the second, in relation. *)
Lemma foldM_related {A A' B : Type} (Rel : A -> A' -> Prop)
    (f : A -> B -> result A) (g : A' -> B -> result A') (l : list B) :
  (forall a b x a', In x l -> Rel a b -> f a x = Ok a' ->
                    exists b', g b x = Ok b' /\ Rel a' b') ->
  forall a b a', Rel a b -> foldM f l a = Ok a' ->
                 exists b', foldM g l b = Ok b' /\ Rel a' b'.
Proof.
  induction l as [|x l IH]; intros Hstep a b a' Hab H; cbn in H.
  - injection H as <-. exists b. now split.
  - destruct (f a x) as [a1|e] eqn:E; cbn in H; [|discriminate].
    destruct (Hstep a b x a1 (or_introl eq_refl) Hab E) as (b1 & Eb & Hab1).
    cbn. rewrite Eb. cbn.
    apply (IH (fun a b x a' Hin => Hstep a b x a' (or_intror Hin)) a1 b1 a' Hab1 H).
Qed.

Lemma bind_ok {A : Type} (m : result A) : (a <- m ;; Ok a) = m.
Proof. now destruct m. Qed.

Lemma enumerate_from_app {A : Type} (l1 l2 : list A) (start : nat) :
  enumerate_from start (l1 ++ l2)
  = enumerate_from start l1 ++ enumerate_from (start + length l1) l2.
Proof.
  revert start. induction l1 as [|x l1 IH]; intros start; cbn.
  - now rewrite Nat.add_0_r.
  - rewrite IH. do 3 f_equal. lia.
Qed.

(** The list around its [i]-th element. *)
Lemma split_at {A : Type} (l : list A) (i : nat) (x : A) :
  nth_error l i = Some x ->
  l = firstn i l ++ x :: skipn (S i) l /\ length (firstn i l) = i.
Proof.
  revert i. induction l as [|y l IH]; intros [|i] H; cbn in *; try discriminate.
  - injection H as ->. auto.
  - destruct (IH i H) as [E L]. split; [now rewrite <- E | now rewrite L].
Qed.

Lemma enumerate_split {A : Type} (l : list A) (i : nat) (x : A) :
  nth_error l i = Some x ->
  enumerate l
  = enumerate (firstn i l) ++ (i, x) :: enumerate_from (S i) (skipn (S i) l).
Proof.
  intros H. destruct (split_at l i x H) as [E L].
  unfold enumerate. rewrite E at 1. rewrite enumerate_from_app. cbn.
  now rewrite L.
Qed.

(** ** Determinants outside the subspace *)

Lemma dict_contains_absent (d : gmap Z Z) (k : Z) :
  d !! k = None -> dict_contains d k = false /\ dict_getitem d k = Raise (KeyError k).
Proof. intros H. unfold dict_contains, dict_getitem. now rewrite H. Qed.

(** C2. Let the operator string take the determinant at position [i] to a
    determinant [det'] that is no kill state and is absent from [det2idx].
    With [do_unsafe] the iteration leaves the accumulator as it is and raises
    nothing, in [apply_operator] and in [add_operator_matrix]. Without it the
    iteration raises [KeyError det'], so the whole call raises and returns
    no result; the error is [KeyError det'] when the iterations before [i]
    completed. [apply_operator] only looks at determinants whose amplitude
    is not below the threshold. *)
Theorem out_of_subspace_determinant (anni_idxs create_idxs : list Z)
    (num_active_orbs : Z) (parity_check idx2det : list Z) (det2idx : gmap Z Z)
    (factor : R) (i : nat) (det det' phase_changes : Z) :
  nth_error idx2det i = Some det ->
  apply_string (rev anni_idxs) (rev create_idxs) num_active_orbs parity_check det
  = Ok (Some (det', phase_changes)) ->
  det2idx !! det' = None ->
  (forall (state tmp_state : state_vector) (amplitude : R),
      nth_error state i = Some amplitude ->
      below_threshold amplitude = false ->
      apply_operator_body state (rev anni_idxs) (rev create_idxs) num_active_orbs
        parity_check det2idx true factor tmp_state i det = Ok tmp_state
      /\ apply_operator_body state (rev anni_idxs) (rev create_idxs) num_active_orbs
           parity_check det2idx false factor tmp_state i det = Raise (KeyError det')
      /\ (exists e,
             apply_operator state anni_idxs create_idxs num_active_orbs parity_check
               idx2det det2idx false tmp_state factor = Raise e)
      /\ (forall tmp_state',
             apply_operator state anni_idxs create_idxs num_active_orbs parity_check
               (firstn i idx2det) det2idx false tmp_state factor = Ok tmp_state' ->
             apply_operator state anni_idxs create_idxs num_active_orbs parity_check
               idx2det det2idx false tmp_state factor = Raise (KeyError det')))
  /\ (forall op_mat : matrix,
         add_operator_matrix_body (rev anni_idxs) (rev create_idxs) num_active_orbs
           parity_check det2idx true factor op_mat i det = Ok op_mat
         /\ add_operator_matrix_body (rev anni_idxs) (rev create_idxs) num_active_orbs
              parity_check det2idx false factor op_mat i det = Raise (KeyError det')
         /\ (exists e,
                add_operator_matrix op_mat anni_idxs create_idxs num_active_orbs
                  parity_check idx2det det2idx false factor = Raise e)
         /\ (forall op_mat',
                add_operator_matrix op_mat anni_idxs create_idxs num_active_orbs
                  parity_check (firstn i idx2det) det2idx false factor = Ok op_mat' ->
                add_operator_matrix op_mat anni_idxs create_idxs num_active_orbs
                  parity_check idx2det det2idx false factor = Raise (KeyError det'))).
Proof.
  intros Hdet Hstr Habs.
  destruct (dict_contains_absent det2idx det' Habs) as [Hc Hg].
  split.
  - intros state tmp_state amplitude Hamp Hthr.
    assert (Hsafe : forall tmp,
               apply_operator_body state (rev anni_idxs) (rev create_idxs)
                 num_active_orbs parity_check det2idx false factor tmp i det
               = Raise (KeyError det')).
    { intros tmp. unfold apply_operator_body, item_at.
      rewrite Hamp. cbn. rewrite Hthr, Hstr. cbn. now rewrite Hg. }
    split; [|split; [apply Hsafe | split]].
    + unfold apply_operator_body, item_at.
      rewrite Hamp. cbn. rewrite Hthr, Hstr. cbn. now rewrite Hc.
    + unfold apply_operator. rewrite (enumerate_split idx2det i det Hdet).
      apply foldM_raises. intros tmp. eexists. apply Hsafe.
    + intros tmp' Hpre. unfold apply_operator in *.
      rewrite (enumerate_split idx2det i det Hdet), foldM_app, Hpre.
      cbn. now rewrite Hsafe.
  - intros op_mat.
    assert (Hsafe : forall m,
               add_operator_matrix_body (rev anni_idxs) (rev create_idxs)
                 num_active_orbs parity_check det2idx false factor m i det
               = Raise (KeyError det')).
    { intros m. unfold add_operator_matrix_body. rewrite Hstr. cbn. now rewrite Hg. }
    split; [|split; [apply Hsafe | split]].
    + unfold add_operator_matrix_body. rewrite Hstr. cbn. now rewrite Hc.
    + unfold add_operator_matrix. rewrite (enumerate_split idx2det i det Hdet).
      apply foldM_raises. intros m. eexists. apply Hsafe.
    + intros m' Hpre. unfold add_operator_matrix in *.
      rewrite (enumerate_split idx2det i det Hdet), foldM_app, Hpre.
      cbn. now rewrite Hsafe.
Qed.

Lemma out_of_subspace_determinant_witness :
  nth_error [8] 0 = Some 8 /\
  apply_string (rev [0]) (rev [2]) 2 (build_parity_check 2) 8 = Ok (Some (2, 0)) /\
  ({[ 8 := 0 ]} : gmap Z Z) !! 2 = None /\
  add_operator_matrix_body (rev [0]) (rev [2]) 2 (build_parity_check 2)
    {[ 8 := 0 ]} false 1%R [[0%R]] 0 8 = Raise (KeyError 2).
Proof.
  assert (H1 : nth_error [8] 0 = Some 8) by reflexivity.
  assert (H2 : apply_string (rev [0]) (rev [2]) 2 (build_parity_check 2) 8
               = Ok (Some (2, 0))) by (vm_compute; reflexivity).
  assert (H3 : ({[ 8 := 0 ]} : gmap Z Z) !! 2 = None) by (vm_compute; reflexivity).
  split; [exact H1 | split; [exact H2 | split; [exact H3 |]]].
  exact (proj1 (proj2 (proj2 (out_of_subspace_determinant [0] [2] 2
                                (build_parity_check 2) [8] {[ 8 := 0 ]} 1%R 0 8 2 0
                                H1 H2 H3) [[0%R]]))).
Defined.

(** ** The threshold *)

Lemma threshold_pos : (0 < threshold)%R.
Proof. unfold threshold. lra. Qed.

Lemma below_threshold_true (x : R) :
  (Rabs x < threshold)%R -> below_threshold x = true.
Proof. intros H. unfold below_threshold. now destruct (Rlt_dec (Rabs x) threshold). Qed.

Lemma below_threshold_false (x : R) :
  (threshold <= Rabs x)%R -> below_threshold x = false.
Proof.
  intros H. unfold below_threshold.
  destruct (Rlt_dec (Rabs x) threshold); [lra | reflexivity].
Qed.

Lemma below_threshold_0 : below_threshold 0 = true.
Proof. apply below_threshold_true. rewrite Rabs_R0. apply threshold_pos. Qed.

Lemma below_threshold_1 : below_threshold 1 = false.
Proof. apply below_threshold_false. rewrite Rabs_R1. unfold threshold. lra. Qed.

(** ** Unknown excitation types *)

Lemma nth_error_combine {X Y : Type} (l : list X) (l' : list Y) (k : nat) (x : X) (y : Y) :
  nth_error l k = Some x -> nth_error l' k = Some y ->
  nth_error (combine l l') k = Some (x, y).
Proof.
  revert l' k. induction l as [|a l IH]; intros [|b l'] [|k] Hx Hy;
    cbn in *; try discriminate.
  - now injection Hx as ->; injection Hy as ->.
  - now apply IH.
Qed.

Lemma firstn_combine {X Y : Type} (l : list X) (l' : list Y) (k : nat) :
  firstn k (combine l l') = combine (firstn k l) (firstn k l').
Proof.
  revert l l'. induction k as [|k IH]; intros [|a l] [|b l']; cbn; try reflexivity.
  now rewrite IH.
Qed.

Section UnknownTags.

Variable ext : Externals.

Lemma ups_step_unknown (ci_info : CI_Info) (dagger : bool) (tmp : state_vector)
    (exc_type : string) (exc_indices : list Z) (theta : R) :
  below_threshold theta = false -> ups_known exc_type = false ->
  ups_step ext ci_info dagger tmp exc_type exc_indices theta
  = Raise (unknown_excitation_type exc_type).
Proof.
  intros Hthr Hk. unfold ups_known in Hk.
  apply orb_false_elim in Hk as [Hk Hd]. apply orb_false_elim in Hk as [Hsa Hs].
  unfold ups_step. now rewrite Hthr, Hsa, Hs, Hd.
Qed.

Lemma ucc_step_unknown (offset : Z) (T : FermionicOperator)
    (exc_type : string) (exc_indices : list Z) (theta : R) :
  below_threshold theta = false -> ucc_known exc_type = false ->
  ucc_step ext offset T exc_type exc_indices theta
  = Raise (unknown_excitation_type exc_type).
Proof.
  intros Hthr Hk. unfold ucc_known in Hk.
  repeat match type of Hk with
         | (_ || _)%bool = false => apply orb_false_elim in Hk as [Hk ?]
         end.
  unfold ucc_step. rewrite Hthr.
  repeat match goal with
         | H : (?a =? ?b)%string = false |- _ => rewrite H; clear H
         end.
  reflexivity.
Qed.

End UnknownTags.

(** C8, as the code has it. A step whose tag has no branch and whose
    parameter is not below the threshold raises the unknown-excitation-type
    error: in the loop body of [construct_ups_state], in [propagate_unitary]
    and in the loop body of [get_ucc_T]. A structure that holds such a step
    makes [construct_ups_state] and [get_ucc_T] raise, and the error is that
    one when the steps before it completed. *)
Theorem unknown_excitation_type_raises (ext : Externals) (ci_info : CI_Info)
    (exc_type : string) (exc_indices : list Z) (theta : R) (thetas : list R) :
  below_threshold theta = false ->
  (ups_known exc_type = false ->
   (forall dagger tmp,
       ups_step ext ci_info dagger tmp exc_type exc_indices theta
       = Raise (unknown_excitation_type exc_type))
   /\ (forall state idx ups_struct,
          getitem (ups_excitation_operator_type ups_struct) idx = Ok exc_type ->
          getitem (ups_excitation_indices ups_struct) idx = Ok exc_indices ->
          getitem thetas idx = Ok theta ->
          propagate_unitary ext state idx ci_info thetas ups_struct
          = Raise (unknown_excitation_type exc_type))
   /\ (forall state k ups_struct,
          nth_error (ups_excitation_operator_type ups_struct) k = Some exc_type ->
          nth_error (ups_excitation_indices ups_struct) k = Some exc_indices ->
          nth_error thetas k = Some theta ->
          (exists e,
              construct_ups_state ext state ci_info thetas ups_struct false = Raise e)
          /\ (forall tmp,
                 construct_ups_state ext state ci_info (firstn k thetas)
                   (ups_prefix k ups_struct) false = Ok tmp ->
                 construct_ups_state ext state ci_info thetas ups_struct false
                 = Raise (unknown_excitation_type exc_type))))
  /\ (ucc_known exc_type = false ->
      (forall offset T,
          ucc_step ext offset T exc_type exc_indices theta
          = Raise (unknown_excitation_type exc_type))
      /\ (forall offset k ucc_struct,
             nth_error (ucc_excitation_operator_type ucc_struct) k = Some exc_type ->
             nth_error (ucc_excitation_indices ucc_struct) k = Some exc_indices ->
             nth_error thetas k = Some theta ->
             (exists e, get_ucc_T ext thetas ucc_struct offset = Raise e)
             /\ (forall T,
                    get_ucc_T ext (firstn k thetas) (ucc_prefix k ucc_struct) offset
                    = Ok T ->
                    get_ucc_T ext thetas ucc_struct offset
                    = Raise (unknown_excitation_type exc_type)))).
Proof.
  intros Hthr. split; intros Hk.
  - split; [|split].
    + intros dagger tmp. now apply ups_step_unknown.
    + intros state idx ups_struct Ht Hi Hth.
      unfold propagate_unitary. rewrite Ht, Hi, Hth. cbn. rewrite Hthr.
      unfold ups_known in Hk.
      apply orb_false_elim in Hk as [Hk Hd]. apply orb_false_elim in Hk as [Hsa Hs].
      now rewrite Hsa, Hs, Hd.
    + intros state k ups_struct Ht Hi Hth.
      pose proof (nth_error_combine _ _ k _ _
                    (nth_error_combine _ _ k _ _ Ht Hi) Hth) as Hstep.
      destruct (split_at _ k _ Hstep) as [E _].
      unfold construct_ups_state, ordered. split.
      * rewrite E. apply foldM_raises. intros tmp. eexists.
        now apply ups_step_unknown.
      * intros tmp Hpre. cbn in Hpre. rewrite <- !firstn_combine in Hpre.
        rewrite E, foldM_app, Hpre. cbn.
        now rewrite ups_step_unknown.
  - split.
    + intros offset T. now apply ucc_step_unknown.
    + intros offset k ucc_struct Ht Hi Hth.
      pose proof (nth_error_combine _ _ k _ _
                    (nth_error_combine _ _ k _ _ Ht Hi) Hth) as Hstep.
      destruct (split_at _ k _ Hstep) as [E _].
      unfold get_ucc_T. split.
      * rewrite E. apply foldM_raises. intros T. eexists.
        now apply ucc_step_unknown.
      * intros T Hpre. cbn in Hpre. rewrite <- !firstn_combine in Hpre.
        rewrite E, foldM_app, Hpre. cbn.
        now rewrite ucc_step_unknown.
Qed.

Lemma unknown_excitation_type_raises_witness :
  below_threshold 1 = false /\
  ups_known "triple" = false /\
  ups_step example_externals example_ci false [1%R; 0%R] "triple" [0; 1; 2; 4; 5; 6] 1
  = Raise (unknown_excitation_type "triple").
Proof.
  split; [exact below_threshold_1 | split; [reflexivity |]].
  exact (proj1 (proj1 (unknown_excitation_type_raises example_externals example_ci
                         "triple" [0; 1; 2; 4; 5; 6] 1 [1%R] below_threshold_1)
                  eq_refl) false [1%R; 0%R]).
Defined.

(** C8, as the claim words it, fails: a parameter below the threshold makes
    the step be skipped before its tag is looked at, and nothing is raised
    for the tag [foo]. *)
Lemma unknown_excitation_type_skipped :
  ups_known "foo" = false /\ ucc_known "foo" = false /\
  construct_ups_state example_externals [1%R; 0%R] example_ci [0%R]
    {| ups_excitation_operator_type := ["foo"%string];
       ups_excitation_indices := [[0; 2]] |} false
  = Ok [1%R; 0%R] /\
  propagate_unitary example_externals [1%R; 0%R] 0 example_ci [0%R]
    {| ups_excitation_operator_type := ["foo"%string];
       ups_excitation_indices := [[0; 2]] |}
  = Ok [1%R; 0%R] /\
  get_ucc_T example_externals [0%R]
    {| ucc_excitation_operator_type := ["foo"%string];
       ucc_excitation_indices := [[0; 2]] |} 0
  = Ok {| operators := [] |}.
Proof.
  repeat split.
  - unfold construct_ups_state, ups_step. cbn. now rewrite below_threshold_0.
  - cbv - [below_threshold IZR]. now rewrite below_threshold_0.
  - unfold get_ucc_T, ucc_step. cbn. now rewrite below_threshold_0.
Qed.

(** ** Shapes *)

Lemma additem_length (a a' : state_vector) (i : Z) (v : R) :
  additem a i v = Ok a' -> length a' = length a.
Proof.
  unfold additem. destruct (normalize_index (length a) i); [|discriminate].
  intros H. injection H as <-. apply length_update_at.
Qed.

Lemma apply_operator_length (state : state_vector) (anni_idxs create_idxs : list Z)
    (num_active_orbs : Z) (parity_check idx2det : list Z) (det2idx : gmap Z Z)
    (do_unsafe : bool) (tmp_state tmp_state' : state_vector) (factor : R) :
  apply_operator state anni_idxs create_idxs num_active_orbs parity_check idx2det
    det2idx do_unsafe tmp_state factor = Ok tmp_state' ->
  length tmp_state' = length tmp_state.
Proof.
  unfold apply_operator.
  apply (foldM_invariant (fun t => length t = length tmp_state)); [|reflexivity].
  intros t [i det] t' Ht. unfold apply_operator_body.
  destruct (item_at state i) as [amp|]; cbn; [|discriminate].
  destruct (below_threshold amp); [intros H; now injection H as <-|].
  destruct (apply_string _ _ _ _ _) as [[[d ph]|]|]; cbn;
    [| intros H; now injection H as <- | discriminate].
  destruct (do_unsafe && negb (dict_contains det2idx d));
    [intros H; now injection H as <-|].
  destruct (dict_getitem det2idx d) as [idx|]; cbn; [|discriminate].
  intros H. apply additem_length in H. congruence.
Qed.

Section Propagation.

Variable ext : Externals.

Lemma propagate_operator_length (op : FermionicOperator)
    (state new_state out : state_vector) (ci_info : CI_Info) (parity_check : list Z)
    (do_folding do_unsafe : bool) :
  propagate_operator ext op state new_state ci_info parity_check do_folding do_unsafe
  = Ok out ->
  length out = length state.
Proof.
  unfold propagate_operator.
  apply (foldM_invariant (fun t => length t = length state)).
  - intros t [label c] t' Ht H. apply apply_operator_length in H. congruence.
  - apply length_zeros.
Qed.

(** [state] only gives [tmp_state] its shape. *)
Lemma propagate_operator_shape (op : FermionicOperator)
    (state state' new_state : state_vector) (ci_info : CI_Info)
    (parity_check : list Z) (do_folding do_unsafe : bool) :
  length state = length state' ->
  propagate_operator ext op state new_state ci_info parity_check do_folding do_unsafe
  = propagate_operator ext op state' new_state ci_info parity_check do_folding do_unsafe.
Proof. intros E. unfold propagate_operator. now rewrite E. Qed.

Lemma foldM_map {A B C : Type} (f : A -> C -> result A) (g : B -> C) (l : list B)
    (a : A) :
  foldM f (map g l) a = foldM (fun a x => f a (g x)) l a.
Proof.
  revert a. induction l as [|x l IH]; intros a; cbn; [reflexivity|].
  destruct (f a (g x)); cbn; auto.
Qed.

(** On a list of operators, [propagate_state] without folding and without
    [do_unsafe] is [propagate_operators], whatever the structure. *)
Lemma propagate_state_operators (operators : list FermionicOperator)
    (state : state_vector) (ci_info : CI_Info) (thetas : list R)
    (wf_struct : wf_structure) :
  propagate_state ext (map OpFermi operators) state ci_info thetas wf_struct
    false false
  = propagate_operators ext operators state ci_info.
Proof.
  unfold propagate_state, propagate_operators.
  rewrite length_map, <- map_rev, foldM_map. reflexivity.
Qed.

Lemma propagate_operators_one (T : FermionicOperator) (psi : state_vector)
    (ci_info : CI_Info) :
  propagate_operators ext [T] psi ci_info
  = propagate_operator ext T psi psi ci_info
      (build_parity_check (num_active_orbs ci_info)) false false.
Proof. unfold propagate_operators. cbn. apply bind_ok. Qed.

(** [propagate_state([T, T], psi)] applies [T] to [propagate_state([T], psi)]. *)
Lemma propagate_operators_twice (T : FermionicOperator) (psi : state_vector)
    (ci_info : CI_Info) :
  propagate_operators ext [T; T] psi ci_info
  = (v <- propagate_operators ext [T] psi ci_info ;;
     propagate_operators ext [T] v ci_info).
Proof.
  unfold propagate_operators. cbn [length Nat.eqb rev app foldM].
  destruct (propagate_operator ext T psi psi ci_info _ false false) as [v|e] eqn:E;
    cbn [bind]; [|reflexivity].
  f_equal.
  apply propagate_operator_shape. symmetry.
  now apply propagate_operator_length in E.
Qed.

Lemma propagate_operators_length (T : FermionicOperator) (psi v : state_vector)
    (ci_info : CI_Info) :
  propagate_operators ext [T] psi ci_info = Ok v -> length v = length psi.
Proof. rewrite propagate_operators_one. apply propagate_operator_length. Qed.

(** The expression written out at every analytic step, by its calls. *)
Lemma closed_form (T : FermionicOperator) (theta : R) (psi : state_vector)
    (ci_info : CI_Info) :
  (v1 <- propagate_operators ext [T] psi ci_info ;;
   v2 <- propagate_operators ext [T; T] psi ci_info ;;
   Ok (vadd (vadd psi (vscale (sin theta) v1)) (vscale (1 - cos theta) v2)))
  = loop_rotation ext ci_info T theta psi.
Proof.
  unfold loop_rotation, apply_generator.
  rewrite propagate_operators_twice.
  destruct (propagate_operators ext [T] psi ci_info) as [v1|e]; cbn; reflexivity.
Qed.

End Propagation.

Section AnalyticSteps.

Variable ext : Externals.

Lemma ups_step_skipped (ci_info : CI_Info) (dagger : bool) (psi : state_vector)
    (exc_type : string) (exc_indices : list Z) (theta : R) :
  below_threshold theta = true ->
  ups_step ext ci_info dagger psi exc_type exc_indices theta = Ok psi.
Proof. intros Hthr. unfold ups_step. now rewrite Hthr. Qed.

Lemma ups_step_analytic (ci_info : CI_Info) (dagger : bool) (psi : state_vector)
    (exc_type : string) (exc_indices : list Z) (theta : R) :
  below_threshold theta = false ->
  ((exc_type =? "single") || (exc_type =? "double"))%string = true ->
  (exc_type =? "sa_single")%string = false ->
  ups_step ext ci_info dagger psi exc_type exc_indices theta
  = (T <- step_generator ext (space_extension_offset ci_info) exc_type exc_indices ;;
     loop_rotation ext ci_info T (applied_theta dagger theta) psi).
Proof.
  intros Hthr Htag Hsa. unfold ups_step, step_generator, applied_theta.
  rewrite Hthr, Hsa, Htag.
  destruct (exc_type =? "single")%string.
  - destruct (unpack2 _) as [[i a]|e]; cbn; [apply closed_form | reflexivity].
  - cbn in Htag. rewrite Htag.
    destruct (unpack4 _) as [[[[i j] a] b]|e]; cbn; [apply closed_form | reflexivity].
Qed.

Lemma ups_step_sa_single (ci_info : CI_Info) (dagger : bool) (psi : state_vector)
    (exc_indices : list Z) (theta : R) :
  below_threshold theta = false ->
  ups_step ext ci_info dagger psi "sa_single" exc_indices theta
  = (ia <- unpack2 (shift_indices exc_indices (space_extension_offset ci_info)) ;;
     psi' <- loop_rotation ext ci_info (G1 ext (fst ia * 2) (snd ia * 2) true)
               (applied_theta dagger theta) psi ;;
     loop_rotation ext ci_info (G1 ext (fst ia * 2 + 1) (snd ia * 2 + 1) true)
       (applied_theta dagger theta) psi').
Proof.
  intros Hthr. unfold ups_step, applied_theta. rewrite Hthr.
  cbn [String.eqb Ascii.eqb Bool.eqb orb andb].
  destruct (unpack2 _) as [[i a]|e]; cbn [bind fst snd]; [|reflexivity].
  rewrite !Rmult_1_l.
  rewrite <- (closed_form ext (G1 ext (i * 2) (a * 2) true)).
  destruct (propagate_operators ext [G1 ext (i * 2) (a * 2) true] psi ci_info)
    as [v1|e]; cbn [bind]; [|reflexivity].
  destruct (propagate_operators ext [_; _] psi ci_info)
    as [v2|e]; cbn [bind]; [|reflexivity].
  apply closed_form.
Qed.

End AnalyticSteps.

(** ** bitcount *)

Lemma land_pred_lt (x : Z) : 0 < x -> Z.land x (x - 1) <= x - 1.
Proof.
  intros Hx.
  pose proof (Z.add_lxor_2land x (x - 1)) as E.
  assert (0 <= Z.lxor x (x - 1)) by (apply Z.lxor_nonneg; lia).
  lia.
Qed.

(** The loop of [bitcount] leaves through its test, never for want of
    fuel. *)
Lemma bitcount_loop_fuel_enough (fuel fuel' : nat) (x b : Z) :
  (Z.to_nat x <= fuel)%nat -> (Z.to_nat x <= fuel')%nat ->
  bitcount_loop fuel x b = bitcount_loop fuel' x b.
Proof.
  revert fuel' x b. induction fuel as [|fuel IH]; intros [|fuel'] x b H H';
    cbn [bitcount_loop]; try reflexivity.
  - destruct (Z.gtb_spec x 0); [lia | reflexivity].
  - destruct (Z.gtb_spec x 0); [lia | reflexivity].
  - destruct (Z.gtb_spec x 0); [|reflexivity].
    pose proof (land_pred_lt x ltac:(lia)).
    apply IH; lia.
Qed.

(** ** The parity table *)

Lemma nth_update_at {A : Type} (i k : nat) (f : A -> A) (a : list A) (d : A) :
  (i < length a)%nat ->
  nth k (update_at i f a) d = if (k =? i)%nat then f (nth i a d) else nth k a d.
Proof.
  revert i k. induction a as [|x a IH]; intros i k Hi; cbn in Hi; [lia|].
  destruct i as [|i], k as [|k]; cbn; try reflexivity.
  apply IH. lia.
Qed.

Lemma fold_left_rev_right {A B : Type} (f : A -> B -> A) (l : list B) (a : A) :
  fold_left f (rev l) a = fold_right (fun x a => f a x) a l.
Proof. rewrite <- fold_left_rev_right. now rewrite rev_involutive. Qed.

(** After the rounds for [i = 2 n - 1] down to [i = j]. *)
Lemma parity_rounds (num_active_orbs : Z) (len j : nat) :
  Z.of_nat (j + len) = 2 * num_active_orbs ->
  let r := fold_right (fun i acc => parity_check_round num_active_orbs acc i)
             (0, repeat 0 (S (j + len))) (map Z.of_nat (seq j len)) in
  fst r = 2 ^ (2 * num_active_orbs) - 2 ^ Z.of_nat j
  /\ length (snd r) = S (j + len)
  /\ forall k : nat,
       nth k (snd r) 0
       = if (k <=? len)%nat
         then 2 ^ (2 * num_active_orbs) - 2 ^ (2 * num_active_orbs - Z.of_nat k)
         else 0.
Proof.
  revert j. induction len as [|len IH]; intros j Hj; cbn zeta.
  - cbn [seq map fold_right fst snd]. rewrite <- Hj, Nat.add_0_r.
    split; [lia | split; [apply repeat_length|]].
    intros k. destruct (Nat.leb_spec k 0).
    + replace k with 0%nat by lia. cbn [nth repeat]. rewrite Z.sub_0_r. lia.
    + apply nth_repeat.
  - cbn [seq map fold_right].
    destruct (IH (S j) ltac:(lia)) as (Hnum & Hlen & Hnth).
    replace (S j + len)%nat with (j + S len)%nat in * by lia.
    destruct (fold_right _ (0, repeat 0 (S (j + S len))) (map Z.of_nat (seq (S j) len)))
      as [num pc].
    cbn [fst snd] in *. unfold parity_check_round. cbn [fst snd].
    assert (Hpow : 2 ^ Z.of_nat (S j) = 2 * 2 ^ Z.of_nat j).
    { rewrite Nat2Z.inj_succ. apply Z.pow_succ_r. lia. }
    split; [lia | split; [now rewrite length_update_at|]].
    intros k. rewrite nth_update_at by lia.
    replace (Z.to_nat (2 * num_active_orbs - Z.of_nat j)) with (S len) by lia.
    destruct (Nat.eqb_spec k (S len)) as [->|Hk].
    + rewrite Nat.leb_refl. rewrite Hnum, Hpow.
      replace (2 * num_active_orbs - Z.of_nat (S len)) with (Z.of_nat j) by lia. lia.
    + rewrite Hnth. destruct (Nat.leb_spec k len), (Nat.leb_spec k (S len));
        try reflexivity; lia.
Qed.

(** Entry [k] of the table has the [k] highest of the [2 n] bits set. *)
Lemma getitem_build_parity_check (num_active_orbs k : Z) :
  0 <= k <= 2 * num_active_orbs ->
  getitem (build_parity_check num_active_orbs) k
  = Ok (2 ^ (2 * num_active_orbs) - 2 ^ (2 * num_active_orbs - k)).
Proof.
  intros Hk. unfold build_parity_check, range.
  rewrite fold_left_rev_right.
  set (N := Z.to_nat (2 * num_active_orbs)).
  replace (Z.to_nat (2 * num_active_orbs + 1)) with (S (0 + N)) by lia.
  destruct (parity_rounds num_active_orbs N 0 ltac:(lia)) as (_ & Hlen & Hnth).
  unfold getitem, normalize_index. rewrite Hlen.
  destruct (Z.leb_spec 0 k); [|lia].
  destruct (Z.ltb_spec k (Z.of_nat (S (0 + N)))); [|lia]. cbn [andb].
  unfold item_at.
  destruct (nth_error _ (Z.to_nat k)) as [p|] eqn:E.
  - apply (nth_error_nth _ _ 0) in E. rewrite Hnth in E.
    destruct (Nat.leb_spec (Z.to_nat k) N); [|lia].
    rewrite Z2Nat.id in E by lia. now subst p.
  - apply nth_error_None in E. lia.
Qed.

(** ** Annihilating and creating at one orbital *)

Lemma occupation_test (det s : Z) :
  0 <= s -> Z.land (Z.shiftr det s) 1 = Z.b2z (Z.testbit det s).
Proof.
  intros Hs. change 1 with (Z.ones 1) at 1.
  rewrite Z.land_ones by lia. rewrite Z.shiftr_div_pow2 by lia.
  rewrite Z.testbit_spec' by lia. reflexivity.
Qed.

(** The mask of an orbital does not hold the bit of that orbital. *)
Lemma parity_mask_skips (num_active_orbs k : Z) :
  0 <= k < 2 * num_active_orbs ->
  Z.land (2 ^ (2 * num_active_orbs - 1 - k))
    (2 ^ (2 * num_active_orbs) - 2 ^ (2 * num_active_orbs - k)) = 0.
Proof.
  intros Hk. set (s := 2 * num_active_orbs - 1 - k).
  replace (2 * num_active_orbs) with (s + 1 + k) by lia.
  replace (s + 1 + k - k) with (s + 1) by lia.
  rewrite Z.pow_add_r by lia.
  replace (2 ^ (s + 1) * 2 ^ k - 2 ^ (s + 1)) with ((2 ^ k - 1) * 2 ^ (s + 1)) by ring.
  apply Z.bits_inj'. intros n Hn.
  rewrite Z.land_spec, Z.bits_0, Z.pow2_bits_eqb by lia.
  destruct (Z.eqb_spec s n) as [<-|]; [|reflexivity].
  rewrite Z.mul_pow2_bits_low by lia. reflexivity.
Qed.

Lemma land_lxor_disjoint (a m p : Z) :
  Z.land m p = 0 -> Z.land (Z.lxor a m) p = Z.land a p.
Proof.
  intros H. apply Z.bits_inj'. intros n Hn.
  rewrite !Z.land_spec, Z.lxor_spec.
  assert (Hb : Z.testbit (Z.land m p) n = false) by (rewrite H; apply Z.bits_0).
  rewrite Z.land_spec in Hb.
  destruct (Z.testbit a n), (Z.testbit m n), (Z.testbit p n);
    cbn in *; congruence.
Qed.

Lemma apply_string_same_orbital (num_active_orbs k det : Z) :
  0 <= k < 2 * num_active_orbs ->
  exists c : Z,
    apply_string [k] [k] num_active_orbs (build_parity_check num_active_orbs) det
    = if Z.testbit det (2 * num_active_orbs - 1 - k)
      then Ok (Some (det, c + c))
      else Ok None.
Proof.
  intros Hk. set (s := 2 * num_active_orbs - 1 - k).
  set (p := 2 ^ (2 * num_active_orbs) - 2 ^ (2 * num_active_orbs - k)).
  exists (bitcount (Z.land det p)).
  unfold apply_string, operator_loop, rshift, lshift. fold s.
  destruct (Z.ltb_spec s 0); [lia|]. cbn [bind].
  rewrite occupation_test by lia.
  destruct (Z.testbit det s) eqn:Hbit; cbn [Z.b2z Z.eqb bind]; [|reflexivity].
  rewrite getitem_build_parity_check by lia. fold p. cbn [bind].
  rewrite Z.shiftl_1_l.
  rewrite occupation_test by lia.
  rewrite Z.lxor_spec, Hbit, Z.pow2_bits_true by lia. cbn [xorb Z.b2z Z.eqb].
  rewrite Z.lxor_assoc, Z.lxor_nilpotent, Z.lxor_0_r.
  rewrite land_lxor_disjoint by (apply parity_mask_skips; lia).
  reflexivity.
Qed.

Lemma sign_double (c : Z) : sign (c + c) = 1%R.
Proof.
  unfold sign. destruct (Z.le_gt_cases 0 c).
  - replace (Z.to_nat (c + c)) with (2 * Z.to_nat c)%nat by lia.
    rewrite pow_mult. replace ((-1) ^ 2)%R with 1%R by (cbn; lra).
    apply pow1.
  - replace (Z.to_nat (c + c)) with 0%nat by lia. reflexivity.
Qed.

(** ** A loop that updates the cell of its own position *)

Lemma foldM_update_window {A X : Type} (f : list A -> nat * X -> result (list A))
    (H : nat -> X -> A -> A) (post : list A) (l : list X) :
  forall (start : nat) (pre mid : list A),
    length pre = start ->
    length mid = length l ->
    (forall i x a, In (i, x) (enumerate_from start l) ->
                   length a = (length pre + length mid + length post)%nat ->
                   f a (i, x) = Ok (update_at i (H i x) a)) ->
    foldM f (enumerate_from start l) (pre ++ mid ++ post)
    = Ok (pre ++ map (fun '(i, x, y) => H i x y) (combine (enumerate_from start l) mid)
            ++ post).
Proof.
  induction l as [|x l IH]; intros start pre mid Hpre Hmid Hf.
  - destruct mid; [reflexivity | discriminate].
  - destruct mid as [|y mid]; [discriminate|].
    cbn [enumerate_from foldM combine map app].
    rewrite Hf; [| now left | rewrite length_app; cbn [length]; rewrite length_app; lia].
    cbn [bind]. rewrite update_at_app by assumption.
    change (pre ++ H start x y :: mid ++ post)
      with (pre ++ [H start x y] ++ mid ++ post).
    rewrite app_assoc, IH.
    + now rewrite <- app_assoc.
    + rewrite length_app. cbn. lia.
    + cbn in Hmid. lia.
    + intros i x' a Hin Ha. apply Hf; [now right|].
      rewrite Ha, !length_app. cbn [length]. lia.
Qed.

Lemma nth_error_enumerate_from {A : Type} (l : list A) (start i : nat) :
  nth_error (enumerate_from start l) i
  = option_map (fun x => ((start + i)%nat, x)) (nth_error l i).
Proof.
  revert start i. induction l as [|x l IH]; intros start [|i]; cbn; try reflexivity.
  - now rewrite Nat.add_0_r.
  - rewrite IH. now replace (S start + i)%nat with (start + S i)%nat by lia.
Qed.

Lemma in_enumerate {A : Type} (l : list A) (i : nat) (x : A) :
  In (i, x) (enumerate l) -> nth_error l i = Some x.
Proof.
  intros Hin. apply In_nth_error in Hin as [n Hn].
  unfold enumerate in Hn. rewrite nth_error_enumerate_from in Hn.
  destruct (nth_error l n) eqn:E; cbn in Hn; [|discriminate].
  injection Hn as <- <-. exact E.
Qed.

Lemma normalize_index_nat (len i : nat) :
  (i < len)%nat -> normalize_index len (Z.of_nat i) = Some i.
Proof.
  intros Hi. unfold normalize_index.
  destruct (Z.leb_spec 0 (Z.of_nat i)); [|lia].
  destruct (Z.ltb_spec (Z.of_nat i) (Z.of_nat len)); [|lia].
  cbn [andb]. now rewrite Nat2Z.id.
Qed.

(** What [apply_operator] with the lists [[k]] and [[k]] leaves in one cell. *)
Lemma same_orbital_body (state : state_vector) (num_active_orbs : Z)
    (det2idx : gmap Z Z) (do_unsafe : bool) (factor : R) (k : Z)
    (tmp_state : state_vector) (i : nat) (det : Z) (amplitude : R) :
  0 <= k < 2 * num_active_orbs ->
  nth_error state i = Some amplitude ->
  det2idx !! det = Some (Z.of_nat i) ->
  (i < length tmp_state)%nat ->
  apply_operator_body state [k] [k] num_active_orbs
    (build_parity_check num_active_orbs) det2idx do_unsafe factor tmp_state i det
  = Ok (update_at i
          (fun t =>
             if below_threshold amplitude then t
             else if Z.testbit det (2 * num_active_orbs - 1 - k)
                  then (t + factor * amplitude)%R else t)
          tmp_state).
Proof.
  intros Hk Hamp Hidx Hi. unfold apply_operator_body, item_at.
  rewrite Hamp. cbn [bind].
  destruct (below_threshold amplitude).
  { now rewrite update_at_id. }
  destruct (apply_string_same_orbital num_active_orbs k det Hk) as [c ->].
  destruct (Z.testbit det _); cbn [bind].
  2:{ now rewrite update_at_id. }
  unfold dict_contains, dict_getitem. rewrite Hidx. cbn [negb andb bind].
  rewrite andb_false_r. unfold additem.
  rewrite normalize_index_nat by assumption.
  rewrite sign_double. f_equal.
  apply update_at_ext. intros t. lra.
Qed.

(** C9, as the code has it. With the annihilation list [[k]] and the
    creation list [[k]], [apply_operator] adds [factor] times the amplitude,
    with sign [+1], to the cell of every determinant that has orbital [k]
    occupied and an amplitude not below the threshold, and leaves the cell
    of every other determinant as it is: a determinant with orbital [k] empty
    is a kill state. *)
Theorem same_orbital_number_operator (state tmp_state : state_vector)
    (num_active_orbs : Z) (idx2det : list Z) (det2idx : gmap Z Z)
    (do_unsafe : bool) (factor : R) (k : Z) :
  0 <= k < 2 * num_active_orbs ->
  length state = length idx2det ->
  length tmp_state = length idx2det ->
  (forall i det, nth_error idx2det i = Some det -> det2idx !! det = Some (Z.of_nat i)) ->
  exists out : state_vector,
    apply_operator state [k] [k] num_active_orbs (build_parity_check num_active_orbs)
      idx2det det2idx do_unsafe tmp_state factor = Ok out
    /\ length out = length idx2det
    /\ forall i det amplitude t,
         nth_error idx2det i = Some det ->
         nth_error state i = Some amplitude ->
         nth_error tmp_state i = Some t ->
         nth_error out i
         = Some (if below_threshold amplitude then t
                 else if Z.testbit det (2 * num_active_orbs - 1 - k)
                      then (t + factor * amplitude)%R else t).
Proof.
  intros Hk Hst Htmp Hidx.
  set (H := fun (i : nat) (det : Z) (t : R) =>
              match nth_error state i with
              | Some amplitude =>
                  if below_threshold amplitude then t
                  else if Z.testbit det (2 * num_active_orbs - 1 - k)
                       then (t + factor * amplitude)%R else t
              | None => t
              end).
  pose proof (foldM_update_window
                (fun tmp '(i, det) =>
                   apply_operator_body state [k] [k] num_active_orbs
                     (build_parity_check num_active_orbs) det2idx do_unsafe factor
                     tmp i det)
                H [] idx2det 0 [] tmp_state eq_refl Htmp) as E.
  cbn [app] in E. rewrite !app_nil_r in E.
  eexists. split; [|split].
  - unfold apply_operator, enumerate. cbn [rev app]. apply E.
    intros i det a Hin Ha. apply in_enumerate in Hin.
    assert (Hi : (i < length idx2det)%nat) by (apply nth_error_Some; congruence).
    destruct (nth_error state i) as [amp|] eqn:Hamp.
    2:{ apply nth_error_None in Hamp. lia. }
    rewrite (same_orbital_body state num_active_orbs det2idx do_unsafe factor k a i
               det amp Hk Hamp (Hidx i det Hin)).
    + f_equal. apply update_at_ext. intros t.
      unfold H. now rewrite Hamp.
    + rewrite Ha. cbn. rewrite Nat.add_0_r. lia.
  - rewrite length_map, length_combine. unfold enumerate.
    assert (length (enumerate_from 0 idx2det) = length idx2det).
    { clear. generalize 0%nat. induction idx2det; intros n; cbn; auto. }
    lia.
  - intros i det amp t Hdet Hamp Ht.
    rewrite nth_error_map.
    rewrite (nth_error_combine _ _ i (i, det) t).
    + cbn [option_map]. unfold H. now rewrite Hamp.
    + rewrite nth_error_enumerate_from, Hdet. reflexivity.
    + exact Ht.
Qed.

Lemma example_ci_indexed (i : nat) (det : Z) :
  nth_error (idx2det example_ci) i = Some det ->
  det2idx example_ci !! det = Some (Z.of_nat i).
Proof.
  destruct i as [|[|i]]; cbn [example_ci idx2det det2idx nth_error]; intros H.
  - injection H as <-. vm_compute. reflexivity.
  - injection H as <-. vm_compute. reflexivity.
  - destruct i; discriminate.
Qed.

Lemma same_orbital_number_operator_witness :
  0 <= 0 < 2 * 2 /\
  length [1%R; 1%R] = length (idx2det example_ci) /\
  length [0%R; 0%R] = length (idx2det example_ci) /\
  (forall i det, nth_error (idx2det example_ci) i = Some det ->
                 det2idx example_ci !! det = Some (Z.of_nat i)) /\
  exists out : state_vector,
    apply_operator [1%R; 1%R] [0] [0] 2 (build_parity_check 2)
      (idx2det example_ci) (det2idx example_ci) false [0%R; 0%R] 1 = Ok out
    /\ length out = length (idx2det example_ci).
Proof.
  split; [lia | split; [reflexivity | split; [reflexivity | split]]].
  - exact example_ci_indexed.
  - destruct (same_orbital_number_operator [1%R; 1%R] [0%R; 0%R] 2
                (idx2det example_ci) (det2idx example_ci) false 1 0
                ltac:(lia) eq_refl eq_refl example_ci_indexed)
      as (out & Hout & Hlen & _).
    exists out. split; assumption.
Defined.

(** Evaluation of a call on explicit data: everything is computed but the
    real arithmetic and the threshold tests, which are then decided. *)
Ltac evaluate :=
  with_strategy transparent [gmap_empty]
    (cbv - [Rplus Rminus Rmult Ropp Rdiv Rinv IZR below_threshold sin cos PI]).

Ltac decide_threshold :=
  repeat match goal with
  | |- context [below_threshold ?x] =>
      first
        [ rewrite (below_threshold_true x)
            by (unfold threshold, Rabs; destruct (Rcase_abs _); lra)
        | rewrite (below_threshold_false x)
            by (unfold threshold, Rabs; destruct (Rcase_abs _); lra) ];
      cbv beta iota
  end.

(** C9, as the claim words it, fails: with orbital 0 in both lists, the
    determinant [0b0010], whose orbital 0 is empty, is a kill state and its
    cell stays 0, where the identity would put [factor] times its amplitude,
    1. *)
Lemma same_orbital_not_identity :
  apply_operator [1%R; 1%R] [0] [0] 2 (build_parity_check 2)
    (idx2det example_ci) (det2idx example_ci) false [0%R; 0%R] 1
  <> Ok (vadd [0%R; 0%R] (vscale 1 [1%R; 1%R])).
Proof.
  evaluate. decide_threshold.
  intros H. injection H as H1 H2. lra.
Qed.

(** ** The matrix of an operator and its direct application *)

Section LinearAlgebra.

Local Open Scope R_scope.

Lemma dot_step_shift (l : list (R * R)) (acc k : R) :
  fold_left dot_step l (acc + k) = fold_left dot_step l acc + k.
Proof.
  revert acc. induction l as [|[a b] l IH]; intros acc; cbn; [reflexivity|].
  rewrite <- IH. f_equal. unfold dot_step. lra.
Qed.

Lemma dot_update (row v : list R) (i : nat) (c amplitude : R) :
  nth_error v i = Some amplitude ->
  (i < length row)%nat ->
  dot (update_at i (fun x => x + c) row) v = dot row v + c * amplitude.
Proof.
  unfold dot. generalize 0. revert v i.
  induction row as [|a row IH]; intros v i acc Hv Hi; cbn in Hi; [lia|].
  destruct v as [|b v]; [destruct i; discriminate|].
  destruct i as [|i]; cbn in *.
  - injection Hv as ->. rewrite <- dot_step_shift. f_equal. unfold dot_step. lra.
  - apply IH; [assumption | lia].
Qed.

Lemma dot_zeros (n : nat) (v : list R) : dot (zeros n) v = 0.
Proof.
  unfold dot. generalize 0. revert v.
  induction n as [|n IH]; intros v acc; cbn; [reflexivity|].
  destruct v as [|b v]; cbn; [reflexivity|].
  rewrite IH. unfold dot_step. lra.
Qed.

End LinearAlgebra.

Lemma map_update_at {A B : Type} (f : A -> B) (g : A -> A) (h : B -> B)
    (r : nat) (l : list A) :
  (forall x, In x l -> f (g x) = h (f x)) ->
  map f (update_at r g l) = update_at r h (map f l).
Proof.
  revert r. induction l as [|x l IH]; intros [|r] H; cbn; try reflexivity.
  - f_equal. apply H. now left.
  - f_equal. apply IH. intros y Hy. apply H. now right.
Qed.

Lemma matvec_update (n : nat) (m : matrix) (v : state_vector) (r i : nat)
    (c amplitude : R) :
  square n m -> nth_error v i = Some amplitude -> (i < n)%nat ->
  matvec (update_at r (update_at i (fun x => (x + c)%R)) m) v
  = update_at r (fun y => (y + c * amplitude)%R) (matvec m v).
Proof.
  intros [_ Hrows] Hv Hi. unfold matvec. apply map_update_at.
  intros row Hrow. apply dot_update; [assumption|].
  rewrite List.Forall_forall in Hrows. rewrite (Hrows row Hrow). exact Hi.
Qed.

Lemma square_update (n : nat) (m : matrix) (r i : nat) (f : R -> R) :
  square n m -> square n (update_at r (update_at i f) m).
Proof.
  intros [Hlen Hrows]. split; [now rewrite length_update_at|].
  clear Hlen. revert r. induction Hrows as [|row m Hrow Hrows IH]; intros [|r]; cbn.
  - constructor.
  - constructor.
  - constructor; [now rewrite length_update_at | assumption].
  - constructor; [assumption | apply IH].
Qed.

Lemma square_zeros (n : nat) : square n (repeat (zeros n) n).
Proof.
  split; [apply repeat_length|].
  apply List.Forall_forall. intros row Hrow. apply repeat_spec in Hrow. subst row.
  apply length_zeros.
Qed.

Lemma matvec_zeros (n k : nat) (v : state_vector) :
  matvec (repeat (zeros n) k) v = zeros k.
Proof.
  unfold matvec, zeros. induction k as [|k IH]; cbn; [reflexivity|].
  rewrite IH. f_equal. apply dot_zeros.
Qed.

Lemma clear_amplitude_below (state : state_vector) (i : nat) (amplitude : R) :
  clear_amplitudes state -> nth_error state i = Some amplitude ->
  below_threshold amplitude = true -> amplitude = 0%R.
Proof.
  intros Hc Hi Hb. unfold clear_amplitudes in Hc. rewrite List.Forall_forall in Hc.
  destruct (Hc amplitude (nth_error_In _ _ Hi)) as [E|E]; [exact E | congruence].
Qed.

Section MatrixPath.

Variables (state : state_vector) (n : nat).
Hypothesis Hstate : length state = n.
Hypothesis Hclear : clear_amplitudes state.

(** The accumulators of the two paths: the direct one is the matrix one
    applied to the state. *)
Local Abbreviation related :=
  (fun (m : matrix) (v : state_vector) => square n m /\ v = matvec m state).

Lemma body_related (anni_idxs create_idxs : list Z) (num_active_orbs : Z)
    (parity_check : list Z) (det2idx : gmap Z Z) (do_unsafe : bool) (factor : R)
    (m m' : matrix) (v : state_vector) (i : nat) (det : Z) :
  (i < n)%nat -> related m v ->
  add_operator_matrix_body anni_idxs create_idxs num_active_orbs parity_check
    det2idx do_unsafe factor m i det = Ok m' ->
  exists v',
    apply_operator_body state anni_idxs create_idxs num_active_orbs parity_check
      det2idx do_unsafe factor v i det = Ok v'
    /\ related m' v'.
Proof using Hstate Hclear.
  intros Hi [Hsq Hv] Hm.
  destruct (nth_error state i) as [amp|] eqn:Hamp.
  2:{ apply nth_error_None in Hamp. lia. }
  unfold add_operator_matrix_body in Hm. unfold apply_operator_body, item_at.
  rewrite Hamp. cbn [bind].
  destruct (apply_string anni_idxs create_idxs num_active_orbs parity_check det)
    as [[[d ph]|]|e]; cbn [bind] in *; [| |discriminate].
  2:{ injection Hm as <-. exists v.
    destruct (below_threshold amp); (split; [reflexivity | split; assumption]). }
  destruct (do_unsafe && negb (dict_contains det2idx d)).
  { injection Hm as <-. exists v.
    destruct (below_threshold amp); (split; [reflexivity | split; assumption]). }
  destruct (dict_getitem det2idx d) as [idx|e]; cbn [bind] in *; [|discriminate].
  unfold additem2 in Hm. unfold additem.
  assert (Hlen : length v = length m).
  { rewrite Hv. unfold matvec. apply length_map. }
  rewrite Hlen.
  destruct (normalize_index (length m) idx) as [r|]; [|discriminate].
  destruct (item_at m r) as [row|]; cbn [bind] in Hm; [|discriminate].
  destruct (length row); [destruct (i <? 0)%nat eqn:E; discriminate|].
  destruct (i <? S _)%nat; [|discriminate].
  injection Hm as <-.
  assert (Hmv := matvec_update n m state r i (factor * sign ph) amp Hsq Hamp Hi).
  destruct (below_threshold amp) eqn:Hb.
  - exists v. split; [reflexivity|]. split; [now apply square_update|].
    rewrite Hmv, <- Hv.
    rewrite (clear_amplitude_below state i amp Hclear Hamp Hb).
    symmetry. etransitivity; [|apply update_at_id].
    apply update_at_ext. intros y. lra.
  - eexists. split; [reflexivity|]. split; [now apply square_update|].
    rewrite Hmv, <- Hv. reflexivity.
Qed.

Lemma string_related (anni_idxs create_idxs : list Z) (num_active_orbs : Z)
    (parity_check idx2det : list Z) (det2idx : gmap Z Z) (do_unsafe : bool)
    (factor : R) (m m' : matrix) (v : state_vector) :
  length idx2det = n -> related m v ->
  add_operator_matrix m anni_idxs create_idxs num_active_orbs parity_check idx2det
    det2idx do_unsafe factor = Ok m' ->
  exists v',
    apply_operator state anni_idxs create_idxs num_active_orbs parity_check idx2det
      det2idx do_unsafe v factor = Ok v'
    /\ related m' v'.
Proof using Hstate Hclear.
  intros Hn Hrel. unfold add_operator_matrix, apply_operator.
  apply (foldM_related related); [|exact Hrel].
  intros a b [i det] a' Hin Hab. apply body_related; [|exact Hab].
  apply in_enumerate in Hin. rewrite <- Hn. apply nth_error_Some. congruence.
Qed.

End MatrixPath.

(** C10, as the code has it. For a state as long as the space whose
    amplitudes are zero or not below the threshold: whenever
    [build_operator_matrix] returns a matrix, [propagate_state] on the
    operator alone, without folding and with the same [do_unsafe], returns
    that matrix applied to the state. *)
Theorem matrix_path_agrees (ext : Externals) (op : FermionicOperator)
    (ci_info : CI_Info) (do_unsafe : bool) (state : state_vector)
    (thetas : list R) (wf_struct : wf_structure) (op_mat : matrix) :
  length state = length (idx2det ci_info) ->
  clear_amplitudes state ->
  build_operator_matrix op ci_info do_unsafe = Ok op_mat ->
  propagate_state ext [OpFermi op] state ci_info thetas wf_struct false do_unsafe
  = Ok (matvec op_mat state).
Proof.
  intros Hlen Hclear Hmat.
  unfold propagate_state. cbn [length Nat.eqb rev app foldM].
  unfold propagate_operator. unfold build_operator_matrix in Hmat.
  set (n := length (idx2det ci_info)) in *.
  assert (Hinit : square n (repeat (zeros n) n)
                  /\ zeros (length state) = matvec (repeat (zeros n) n) state).
  { split; [apply square_zeros|]. rewrite matvec_zeros. congruence. }
  assert (Hstep : forall (a : matrix) (b : state_vector)
                         (x : list (Z * bool) * R) (a' : matrix),
             In x (operators op) ->
             square n a /\ b = matvec a state ->
             (let '(fermi_label, coefficient) := x in
              add_operator_matrix a (anni_indices fermi_label)
                (create_indices fermi_label) (num_active_orbs ci_info)
                (build_parity_check (num_active_orbs ci_info)) (idx2det ci_info)
                (det2idx ci_info) do_unsafe coefficient) = Ok a' ->
             exists b',
               (let '(fermi_label, coefficient) := x in
                apply_operator state (anni_indices fermi_label)
                  (create_indices fermi_label) (num_active_orbs ci_info)
                  (build_parity_check (num_active_orbs ci_info)) (idx2det ci_info)
                  (det2idx ci_info) do_unsafe b coefficient) = Ok b'
               /\ (square n a' /\ b' = matvec a' state)).
  { intros a b [label c] a' _ Hab Ha.
    exact (string_related state n Hlen Hclear _ _ _ _ _ _ _ _ a a' b eq_refl Hab Ha). }
  destruct (foldM_related _ _ _ (operators op) Hstep _ _ op_mat Hinit Hmat)
    as (v & Hv & _ & ->).
  cbv beta in Hv. rewrite <- Hv. rewrite bind_ok.
  apply foldM_ext. now intros a [label c].
Qed.

Lemma matrix_path_agrees_witness :
  length [1%R; 0%R] = length (idx2det example_ci) /\
  clear_amplitudes [1%R; 0%R] /\
  exists op_mat : matrix,
    build_operator_matrix (G1_model 0 2 true) example_ci false = Ok op_mat
    /\ propagate_state example_externals [OpFermi (G1_model 0 2 true)] [1%R; 0%R]
         example_ci [] (Ups {| ups_excitation_operator_type := [];
                               ups_excitation_indices := [] |}) false false
       = Ok (matvec op_mat [1%R; 0%R]).
Proof.
  assert (Hclear : clear_amplitudes [1%R; 0%R]).
  { constructor; [right; exact below_threshold_1 |].
    constructor; [now left | constructor]. }
  assert (Hmat : exists op_mat,
             build_operator_matrix (G1_model 0 2 true) example_ci false = Ok op_mat).
  { evaluate. eexists. reflexivity. }
  destruct Hmat as [op_mat Hmat].
  split; [reflexivity | split; [exact Hclear |]].
  exists op_mat. split; [exact Hmat|].
  exact (matrix_path_agrees example_externals (G1_model 0 2 true) example_ci false
           [1%R; 0%R] [] _ op_mat eq_refl Hclear Hmat).
Defined.

(** C10, as the claim words it, fails: in the space of the determinant
    [0b1000] alone, the string that moves the electron from spin orbital 0
    to spin orbital 2 leads out of the space. On the state [[0]] without
    [do_unsafe], [build_operator_matrix] raises [KeyError 2], while
    [propagate_state] skips the zero amplitude and returns [[0]]. *)
Lemma matrix_path_raises_direct_path_skips :
  clear_amplitudes [0%R]
  /\ build_operator_matrix (G1_model 0 2 false) single_determinant_ci false
     = Raise (KeyError 2)
  /\ propagate_state example_externals [OpFermi (G1_model 0 2 false)] [0%R]
       single_determinant_ci []
       (Ups {| ups_excitation_operator_type := []; ups_excitation_indices := [] |})
       false false
     = Ok [0%R]
  /\ (op_mat <- build_operator_matrix (G1_model 0 2 false) single_determinant_ci false ;;
      Ok (matvec op_mat [0%R]))
     <> propagate_state example_externals [OpFermi (G1_model 0 2 false)] [0%R]
          single_determinant_ci []
          (Ups {| ups_excitation_operator_type := []; ups_excitation_indices := [] |})
          false false.
Proof.
  assert (H1 : build_operator_matrix (G1_model 0 2 false) single_determinant_ci false
               = Raise (KeyError 2)).
  { evaluate. reflexivity. }
  assert (H2 : propagate_state example_externals [OpFermi (G1_model 0 2 false)] [0%R]
                 single_determinant_ci []
                 (Ups {| ups_excitation_operator_type := [];
                         ups_excitation_indices := [] |})
                 false false
               = Ok [0%R]).
  { evaluate. decide_threshold. reflexivity. }
  split; [constructor; [now left | constructor] | split; [exact H1 | split; [exact H2 |]]].
  rewrite H1, H2. discriminate.
Qed.

(** ** The unitary and its adjoint *)

Lemma length_vadd (u v : state_vector) :
  length u = length v -> length (vadd u v) = length u.
Proof.
  intros E. unfold vadd. rewrite length_map, length_combine. lia.
Qed.

Lemma length_vscale (c : R) (v : state_vector) : length (vscale c v) = length v.
Proof. apply length_map. Qed.

(** The algebra behind the closed form: with [s^2 + c^2 = 1], rotating back
    what was rotated gives the state again. *)
Lemma rotation_algebra (s c : R) (psi v1 v2 : state_vector) :
  (s * s + c * c = 1)%R ->
  length v1 = length psi -> length v2 = length psi ->
  vadd (vadd (vadd (vadd psi (vscale s v1)) (vscale (1 - c) v2))
          (vscale (- s) (vadd (vscale c v1) (vscale s v2))))
    (vscale (1 - c) (vadd (vscale c v2) (vscale (- s) v1)))
  = psi.
Proof.
  intros Hsc. revert v1 v2.
  induction psi as [|x psi IH]; intros [|a v1] [|b v2] H1 H2;
    try discriminate; [reflexivity|].
  cbn in H1, H2. cbn. f_equal.
  - replace (x + s * a + (1 - c) * b + - s * (c * a + s * b)
             + (1 - c) * (c * b + - s * a))%R
      with (x + b * (1 - (s * s + c * c)))%R by ring.
    rewrite Hsc. ring.
  - apply IH; lia.
Qed.

Lemma apply_generator_length (ext : Externals) (ci_info : CI_Info)
    (T : FermionicOperator) (psi v : state_vector) :
  apply_generator ext ci_info T psi = Ok v -> length v = length psi.
Proof. apply propagate_operators_length. Qed.

Lemma combine_app {X Y : Type} (l1 l2 : list X) (k1 k2 : list Y) :
  length l1 = length k1 ->
  combine (l1 ++ l2) (k1 ++ k2) = combine l1 k1 ++ combine l2 k2.
Proof.
  revert k1. induction l1 as [|x l1 IH]; intros [|y k1] H; try discriminate;
    cbn; [reflexivity|].
  f_equal. apply IH. cbn in H. lia.
Qed.

Lemma combine_rev {X Y : Type} (l : list X) (k : list Y) :
  length l = length k -> combine (rev l) (rev k) = rev (combine l k).
Proof.
  revert k. induction l as [|x l IH]; intros [|y k] H; try discriminate;
    [reflexivity|].
  cbn in H. cbn [rev combine].
  rewrite combine_app by (rewrite !length_rev; lia).
  rewrite IH by lia. reflexivity.
Qed.

(** ** The example space *)

Ltac equal_reals := repeat (f_equal; try lra).

Lemma example_apply_generator (x y : R) :
  apply_generator example_externals example_ci (G1_model 0 2 true) [x; y]
  = Ok [(- kept y)%R; kept x].
Proof.
  evaluate. destruct (below_threshold x), (below_threshold y); equal_reals.
Qed.

Lemma example_loop_rotation (theta x y : R) :
  loop_rotation example_externals example_ci (G1_model 0 2 true) theta [x; y]
  = Ok (example_rotated theta [x; y]).
Proof.
  unfold loop_rotation. rewrite example_apply_generator. cbn [bind].
  rewrite example_apply_generator. cbn [bind]. reflexivity.
Qed.

Lemma example_pass (dagger : bool) (theta x y : R) (do_folding do_unsafe : bool) :
  below_threshold theta = false ->
  propagate_state example_externals [OpStr (if dagger then "Ud" else "U")] [x; y]
    example_ci [theta] (Ups example_ups) do_folding do_unsafe
  = Ok (example_rotated (applied_theta dagger theta) [x; y]).
Proof.
  intros Hthr. unfold propagate_state. cbn [length Nat.eqb rev app foldM].
  assert (E : construct_ups_state example_externals [x; y] example_ci [theta]
                example_ups dagger
              = Ok (example_rotated (applied_theta dagger theta) [x; y])).
  { unfold construct_ups_state, ordered, example_ups.
    cbn [ups_excitation_operator_type ups_excitation_indices].
    destruct dagger; cbn [rev app combine foldM];
      rewrite ups_step_analytic by (assumption || reflexivity);
      cbn; rewrite example_loop_rotation; reflexivity. }
  destruct dagger; cbn [String.eqb Ascii.eqb Bool.eqb orb andb negb];
    rewrite E; reflexivity.
Qed.

Lemma below_threshold_half_pi : below_threshold (PI / 2) = false.
Proof.
  apply below_threshold_false. pose proof PI2_1.
  unfold threshold, Rabs. destruct (Rcase_abs _); lra.
Qed.

Ltac decide_kept :=
  unfold kept;
  repeat match goal with
  | |- context [below_threshold ?x] =>
      first
        [ rewrite (below_threshold_true x)
            by (unfold threshold, tiny, Rabs; destruct (Rcase_abs _); lra)
        | rewrite (below_threshold_false x)
            by (unfold threshold, tiny, Rabs; destruct (Rcase_abs _); lra) ];
      cbv beta iota
  end.

(** C4, as the claim words it, fails: [apply_operator] passes over the
    amplitude [10 ** -15] of the second determinant. With the parameter
    [PI / 2] the state [(1, 10 ** -15)] goes to [(0, 1 + 10 ** -15)] and
    comes back as [(1 + 10 ** -15, 0)]. *)
Lemma unitary_then_adjoint_not_identity :
  exists s' s'' : state_vector,
    propagate_state example_externals [OpStr "U"] [1%R; tiny] example_ci
      [(PI / 2)%R] (Ups example_ups) true false = Ok s'
    /\ propagate_state example_externals [OpStr "Ud"] s' example_ci
         [(PI / 2)%R] (Ups example_ups) true false = Ok s''
    /\ s'' <> [1%R; tiny].
Proof.
  exists (example_rotated (PI / 2) [1%R; tiny]).
  exists (example_rotated (- (PI / 2)) (example_rotated (PI / 2) [1%R; tiny])).
  split; [|split].
  - exact (example_pass false (PI / 2) 1 tiny true false below_threshold_half_pi).
  - exact (example_pass true (PI / 2) _ _ true false below_threshold_half_pi).
  - cbn [example_rotated]. rewrite sin_neg, cos_neg, sin_PI2, cos_PI2.
    decide_kept.
    intros H. injection H as H1 H2. unfold tiny in *. lra.
Qed.

End OperatorStateAlgebraFacts.

(** * Further properties of the density-matrix evaluators *)

Module DensityMatrixExtras.

Import DensityMatrix DensityMatrixEvaluators DensityMatrixFacts.

Local Open Scope Z_scope.

(** ** RDM1 *)

(** X1. With a symmetric active 1-RDM the full-space oracle is symmetric,
    [RDM1(p, q) = RDM1(q, p)], and it is zero as soon as one index is virtual
    or the two indices lie in different blocks. *)
Theorem RDM1_symmetric_and_block_diagonal (ni na : Z) (rdm1 : array2) (p q : Z) :
  symmetric_on na rdm1 ->
  RDM1 p q ni na rdm1 = RDM1 q p ni na rdm1
  /\ (ni + na <= p \/ ni + na <= q \/ (p < ni <= q) \/ (q < ni <= p) ->
      RDM1 p q ni na rdm1 = 0%R).
Proof.
  intros H1. split; [now apply RDM1_symmetric|].
  intros Hblock. unfold RDM1.
  split_position ni na p; split_position ni na q;
    decide_tests; cbn [orb andb]; try reflexivity; lia.
Qed.

Lemma RDM1_symmetric_and_block_diagonal_witness :
  symmetric_on 2 (fun i j => IZR (i * j)) /\
  RDM1 1 2 1 2 (fun i j => IZR (i * j)) = RDM1 2 1 1 2 (fun i j => IZR (i * j)).
Proof.
  assert (H1 : symmetric_on 2 (fun i j => IZR (i * j))).
  { intros i j _ _. f_equal. lia. }
  split; [exact H1|].
  exact (proj1 (RDM1_symmetric_and_block_diagonal 1 2 (fun i j => IZR (i * j)) 1 2 H1)).
Defined.

(** ** Orbital gradients under the exchange of a pair *)

Lemma gradient_entry_swap (h_int : array2) (g_int : array4) (ni na : Z)
    (rdm1 : array2) (rdm2 : array4) (m n : Z) :
  symmetric_array h_int -> symmetric_on na rdm1 ->
  gradient_entry h_int g_int ni na rdm1 rdm2 n m
  = (- gradient_entry h_int g_int ni na rdm1 rdm2 m n)%R.
Proof.
  intros Hh H1.
  unfold gradient_entry, gradient_2e_loop, gradient_1e_loop. cbv zeta.
  apply (fold_left_related (fun a a' => a' = (- a)%R)).
  - intros a a' p E.
    apply (fold_left_related (fun a a' => a' = (- a)%R)); [|exact E].
    clear a a' E. intros a a' q E.
    apply (fold_left_related (fun a a' => a' = (- a)%R)); [|exact E].
    clear a a' E. intros a a' r E. subst a'. lra.
  - apply (fold_left_related (fun a a' => a' = (- a)%R)); [|lra].
    intros a a' p E. subst a'.
    rewrite (Hh m p), (Hh p n).
    rewrite (RDM1_symmetric ni na rdm1 n p H1), (RDM1_symmetric ni na rdm1 p m H1).
    lra.
Qed.

(** X2. With symmetric one-electron integrals and a symmetric active 1-RDM,
    the orbital gradient changes sign when every pair [(m, n)] is replaced by
    [(n, m)]; the two-electron integrals need no symmetry for it. *)
Theorem get_orbital_gradient_swapped (h_int : array2) (g_int : array4)
    (kappa_idx : list (Z * Z)) (ni na : Z) (rdm1 : array2) (rdm2 : array4) :
  symmetric_array h_int -> symmetric_on na rdm1 ->
  get_orbital_gradient h_int g_int (swap_pairs kappa_idx) ni na rdm1 rdm2
  = map Ropp (get_orbital_gradient h_int g_int kappa_idx ni na rdm1 rdm2).
Proof.
  intros Hh H1. rewrite !get_orbital_gradient_entries.
  unfold swap_pairs. rewrite !map_map. apply map_ext. intros [m n].
  now apply gradient_entry_swap.
Qed.

Lemma get_orbital_gradient_swapped_witness :
  symmetric_array (fun a b => IZR (a + b)) /\
  symmetric_on 1 (fun _ _ => 1%R) /\
  get_orbital_gradient (fun a b => IZR (a + b)) (fun a b c d => IZR (a * b + c))
    (swap_pairs [(0, 1)]) 1 1 (fun _ _ => 1%R) (fun _ _ _ _ => 0%R)
  = map Ropp
      (get_orbital_gradient (fun a b => IZR (a + b)) (fun a b c d => IZR (a * b + c))
         [(0, 1)] 1 1 (fun _ _ => 1%R) (fun _ _ _ _ => 0%R)).
Proof.
  assert (Hh : symmetric_array (fun a b => IZR (a + b))).
  { intros a b. f_equal. lia. }
  assert (H1 : symmetric_on 1 (fun _ _ => 1%R)) by (now intros i j _ _).
  split; [exact Hh | split; [exact H1 |]].
  exact (get_orbital_gradient_swapped _ _ [(0, 1)] 1 1 _ _ Hh H1).
Defined.

(** X3. Under the same symmetries the second half of the response gradient
    is the opposite of its first half. *)
Theorem get_orbital_gradient_response_halves_opposite (h_int : array2)
    (g_int : array4) (kappa_idx : list (Z * Z)) (ni na : Z)
    (rdm1 : array2) (rdm2 : array4) :
  symmetric_array h_int -> symmetric_on na rdm1 ->
  skipn (length kappa_idx)
    (get_orbital_gradient_response h_int g_int kappa_idx ni na rdm1 rdm2)
  = map Ropp
      (firstn (length kappa_idx)
         (get_orbital_gradient_response h_int g_int kappa_idx ni na rdm1 rdm2)).
Proof.
  intros Hh H1. rewrite get_orbital_gradient_response_entries, map_app.
  rewrite skipn_app, firstn_app, !length_map, Nat.sub_diag.
  rewrite skipn_all2 by (rewrite !length_map; lia).
  rewrite firstn_all2 by (rewrite !length_map; lia).
  cbn [skipn firstn app]. rewrite app_nil_r, !map_map.
  apply map_ext. intros [n m].
  rewrite !response_entry_half, (gradient_entry_swap _ _ _ _ _ _ n m Hh H1). lra.
Qed.

Lemma get_orbital_gradient_response_halves_opposite_witness :
  symmetric_array (fun a b => IZR (a + b)) /\
  symmetric_on 1 (fun _ _ => 1%R) /\
  skipn (length [(0, 1)])
    (get_orbital_gradient_response (fun a b => IZR (a + b))
       (fun a b c d => IZR (a * b + c)) [(0, 1)] 1 1
       (fun _ _ => 1%R) (fun _ _ _ _ => 0%R))
  = map Ropp
      (firstn (length [(0, 1)])
         (get_orbital_gradient_response (fun a b => IZR (a + b))
            (fun a b c d => IZR (a * b + c)) [(0, 1)] 1 1
            (fun _ _ => 1%R) (fun _ _ _ _ => 0%R))).
Proof.
  assert (Hh : symmetric_array (fun a b => IZR (a + b))).
  { intros a b. f_equal. lia. }
  assert (H1 : symmetric_on 1 (fun _ _ => 1%R)) by (now intros i j _ _).
  split; [exact Hh | split; [exact H1 |]].
  exact (get_orbital_gradient_response_halves_opposite _ _ [(0, 1)] 1 1 _ _ Hh H1).
Defined.

(** ** Exchanging the excitation and the de-excitation block *)

Lemma fold_left_related_in {X : Type} (Rel : R -> R -> Prop) (f f' : R -> X -> R)
    (l : list X) :
  (forall a a' x, In x l -> Rel a a' -> Rel (f a x) (f' a' x)) ->
  forall a a', Rel a a' -> Rel (fold_left f l a) (fold_left f' l a').
Proof.
  induction l as [|x l IH]; intros Hstep a a' Ha; cbn; [exact Ha|].
  apply IH.
  - intros b b' y Hy. apply Hstep. now right.
  - apply Hstep; [now left | exact Ha].
Qed.

Lemma enumerate_position {X : Type} (l : list X) (i : nat) (x : X) :
  In (i, x) (enumerate l) -> 0 <= Z.of_nat i < Z.of_nat (length l).
Proof.
  intros Hin. apply OperatorStateAlgebraFacts.in_enumerate in Hin.
  assert (i < length l)%nat by (apply nth_error_Some; congruence). lia.
Qed.

(** X4. When the excitation rows and the de-excitation rows of the response
    vectors are exchanged, the orbital part of the excited-state norm changes
    sign. *)
Theorem get_orbital_response_vector_norm_exchanged (kappa_idx : list (Z * Z))
    (ni na : Z) (rdm1 : array2) (rv rv' : array2)
    (state_number number_excitations : Z) :
  blocks_exchanged (Z.of_nat (length kappa_idx)) number_excitations state_number
    rv rv' ->
  get_orbital_response_vector_norm kappa_idx ni na rdm1 rv' state_number
    number_excitations
  = (- get_orbital_response_vector_norm kappa_idx ni na rdm1 rv state_number
         number_excitations)%R.
Proof.
  intros Hex. unfold get_orbital_response_vector_norm. cbv zeta.
  match goal with
  | |- (_ * ?N')%R = (- (_ * ?N))%R => assert (E : N' = (- N)%R)
  end.
  2:{ rewrite E. lra. }
  apply (fold_left_related_in (fun a a' => a = (- a')%R)); [|lra].
  intros a a' [i [m n]] Hi Ha.
  apply (fold_left_related_in (fun a a' => a = (- a')%R)); [|exact Ha].
  clear a a' Ha. intros a a' [j [t u]] Hj Ha. subst a.
  destruct (Hex _ (enumerate_position _ _ _ Hi)) as [Ei1 Ei2].
  destruct (Hex _ (enumerate_position _ _ _ Hj)) as [Ej1 Ej2].
  rewrite Ei1, Ei2, Ej1, Ej2.
  destruct (n =? u), (m =? t); lra.
Qed.

Lemma get_orbital_response_vector_norm_exchanged_witness :
  blocks_exchanged (Z.of_nat (length [(0, 1)])) 1 0
    (fun i _ => IZR i) (fun i _ => IZR (1 - i)) /\
  get_orbital_response_vector_norm [(0, 1)] 1 1 (fun _ _ => 1%R)
    (fun i _ => IZR (1 - i)) 0 1
  = Ropp (get_orbital_response_vector_norm [(0, 1)] 1 1 (fun _ _ => 1%R)
            (fun i _ => IZR i) 0 1).
Proof.
  assert (Hex : blocks_exchanged (Z.of_nat (length [(0, 1)])) 1 0
                  (fun i _ => IZR i) (fun i _ => IZR (1 - i))).
  { intros i Hi. cbn in Hi. split; f_equal; lia. }
  split; [exact Hex|].
  exact (get_orbital_response_vector_norm_exchanged [(0, 1)] 1 1 _ _ _ 0 1 Hex).
Defined.

(** X5. The same exchange changes the sign of the orbital part of the
    property gradient. *)
Theorem get_orbital_response_property_gradient_exchanged (x_mo : array2)
    (kappa_idx : list (Z * Z)) (ni na : Z) (rdm1 : array2) (rv rv' : array2)
    (state_number number_excitations : Z) :
  blocks_exchanged (Z.of_nat (length kappa_idx)) number_excitations state_number
    rv rv' ->
  get_orbital_response_property_gradient x_mo kappa_idx ni na rdm1 rv' state_number
    number_excitations
  = (- get_orbital_response_property_gradient x_mo kappa_idx ni na rdm1 rv
         state_number number_excitations)%R.
Proof.
  intros Hex. unfold get_orbital_response_property_gradient. cbv zeta.
  match goal with
  | |- (_ * ?N')%R = (- (_ * ?N))%R => assert (E : N' = (- N)%R)
  end.
  2:{ rewrite E. lra. }
  apply (fold_left_related_in (fun a a' => a = (- a')%R)); [|lra].
  intros a a' [i [m n]] Hi Ha.
  apply (fold_left_related_in (fun a a' => a = (- a')%R)); [|exact Ha].
  clear a a' Ha. intros a a' p _ Ha. subst a.
  destruct (Hex _ (enumerate_position _ _ _ Hi)) as [Ei1 Ei2].
  rewrite Ei1, Ei2. lra.
Qed.

Lemma get_orbital_response_property_gradient_exchanged_witness :
  blocks_exchanged (Z.of_nat (length [(0, 1)])) 1 0
    (fun i _ => IZR i) (fun i _ => IZR (1 - i)) /\
  get_orbital_response_property_gradient (fun a b => IZR (a + 2 * b)) [(0, 1)] 1 1
    (fun _ _ => 1%R) (fun i _ => IZR (1 - i)) 0 1
  = Ropp (get_orbital_response_property_gradient (fun a b => IZR (a + 2 * b))
            [(0, 1)] 1 1 (fun _ _ => 1%R) (fun i _ => IZR i) 0 1).
Proof.
  assert (Hex : blocks_exchanged (Z.of_nat (length [(0, 1)])) 1 0
                  (fun i _ => IZR i) (fun i _ => IZR (1 - i))).
  { intros i Hi. cbn in Hi. split; f_equal; lia. }
  split; [exact Hex|].
  exact (get_orbital_response_property_gradient_exchanged _ [(0, 1)] 1 1 _ _ _ 0 1 Hex).
Defined.

(** ** The closed-shell energy *)

Section Sums.

Context {X : Type}.

Local Open Scope R_scope.

Lemma sum_from (f : X -> R) (l : list X) (a : R) :
  fold_left (fun acc x => acc + f x) l a = a + sum f l.
Proof.
  unfold sum. revert a. induction l as [|x l IH]; intros a; cbn; [lra|].
  rewrite (IH (a + f x)), (IH (0 + f x)). lra.
Qed.

(** A loop that adds [f x] to its accumulator adds [sum f l] in all. *)
Lemma fold_adds_sum (F : R -> X -> R) (f : X -> R) (l : list X) (a : R) :
  (forall a x, In x l -> F a x = a + f x) -> fold_left F l a = a + sum f l.
Proof.
  intros HF. rewrite <- sum_from. revert a.
  induction l as [|x l IH]; intros a; cbn; [reflexivity|].
  rewrite HF by now left. apply IH. intros b y Hy. apply HF. now right.
Qed.

Lemma sum_ext_in (f g : X -> R) (l : list X) :
  (forall x, In x l -> f x = g x) -> sum f l = sum g l.
Proof.
  intros E. pose proof (fold_adds_sum (fun acc x => acc + f x) g l 0) as H.
  unfold sum at 1. rewrite H; [lra|]. intros a x Hx. now rewrite E.
Qed.

Lemma sum_cons (f : X -> R) (x : X) (l : list X) : sum f (x :: l) = f x + sum f l.
Proof. unfold sum at 1. cbn. rewrite sum_from. lra. Qed.

Lemma sum_minus (f g : X -> R) (l : list X) :
  sum (fun x => f x - g x) l = sum f l - sum g l.
Proof.
  induction l as [|x l IH]; [unfold sum; cbn; lra|].
  rewrite !sum_cons, IH. lra.
Qed.

Lemma sum_zero (l : list X) : sum (fun _ => 0) l = 0.
Proof.
  induction l as [|x l IH]; [reflexivity|]. rewrite sum_cons, IH. lra.
Qed.

Lemma sum_scal (c : R) (f : X -> R) (l : list X) :
  sum (fun x => c * f x) l = c * sum f l.
Proof.
  induction l as [|x l IH]; [unfold sum; cbn; lra|].
  rewrite !sum_cons, IH. lra.
Qed.

End Sums.

(** A Kronecker delta picks one term of a sum over distinct indices. *)
Lemma sum_delta (c : Z -> R) (p : Z) (l : list Z) :
  NoDup l -> In p l -> sum (fun q => (delta q p * c q)%R) l = c p.
Proof.
  intros Hnd. induction Hnd as [|x l Hx Hnd IH]; intros Hin; [destruct Hin|].
  rewrite sum_cons. unfold delta at 1.
  destruct (Z.eqb_spec x p) as [->|Hne].
  - rewrite (sum_ext_in _ (fun _ => 0%R)).
    + rewrite sum_zero. lra.
    + intros q Hq. unfold delta.
      destruct (Z.eqb_spec q p) as [->|]; [contradiction | lra].
  - destruct Hin as [->|Hin]; [contradiction|]. rewrite IH by assumption. lra.
Qed.

Lemma in_range (n p : Z) : In p (range n) <-> 0 <= p < n.
Proof.
  unfold range. rewrite in_map_iff. split.
  - intros (k & <- & Hk). apply in_seq in Hk. lia.
  - intros Hp. exists (Z.to_nat p). split; [lia|]. apply in_seq. lia.
Qed.

Lemma NoDup_range (n : Z) : NoDup (range n).
Proof.
  unfold range. generalize (seq_NoDup (Z.to_nat n) 0).
  induction 1 as [|k l Hk Hnd IH]; cbn; constructor; [|assumption].
  rewrite in_map_iff. intros (k' & E & Hk'). apply Nat2Z.inj in E. now subst k'.
Qed.

Lemma RDM1_inactive (ni : Z) (rdm1 : array2) (p q : Z) :
  p < ni -> q < ni -> RDM1 p q ni 0 rdm1 = (2 * delta p q)%R.
Proof.
  intros Hp Hq. unfold RDM1, delta. rewrite Z.add_0_r.
  decide_tests. cbn [orb andb]. destruct (p =? q); lra.
Qed.

Lemma RDM2_inactive (ni : Z) (rdm1 : array2) (rdm2 : array4) (p q r s : Z) :
  p < ni -> q < ni -> r < ni -> s < ni ->
  RDM2 p q r s ni 0 rdm1 rdm2
  = (4 * delta p q * delta r s - 2 * delta q r * delta p s)%R.
Proof.
  intros Hp Hq Hr Hs. unfold RDM2, delta. rewrite Z.add_0_r.
  decide_tests. cbn [orb andb].
  destruct (p =? q), (r =? s), (q =? r), (p =? s); cbn [andb]; lra.
Qed.

(** X6. Without active orbitals the electronic energy is the closed-shell
    expression: twice the diagonal one-electron integrals plus
    [2 g_ppqq - g_pqqp] over all pairs of inactive orbitals. The active
    tensors are not read. *)
Theorem get_electronic_energy_closed_shell (h_int : array2) (g_int : array4)
    (ni : Z) (rdm1 : array2) (rdm2 : array4) :
  get_electronic_energy h_int g_int ni 0 rdm1 rdm2
  = closed_shell_energy h_int g_int ni.
Proof.
  unfold get_electronic_energy, closed_shell_energy. cbv zeta.
  rewrite Z.add_0_r. set (orbs := range ni).
  assert (Hin : forall p, In p orbs -> p < ni).
  { intros p Hp. apply in_range in Hp. lia. }
  assert (Hnd : NoDup orbs) by apply NoDup_range.
  (* the four-index loop *)
  rewrite (fold_adds_sum _
             (fun p => sum (fun q => (2 * g_int p p q q - g_int p q q p)%R) orbs)).
  2:{ intros a p Hp.
      rewrite (fold_adds_sum _
                 (fun q => (2 * (delta q p * sum (fun r => g_int p q r r) orbs)
                            - g_int p q q p)%R)).
      2:{ intros b q Hq.
          rewrite (fold_adds_sum _
                     (fun r => (2 * delta p q * g_int p q r r
                                - delta r q * g_int p q r p)%R)).
          2:{ intros c r Hr.
              rewrite (fold_adds_sum _
                         (fun s => (2 * delta p q * (delta s r * g_int p q r s)
                                    - delta q r * (delta s p * g_int p q r s))%R)).
              2:{ intros d s Hs. rewrite RDM2_inactive by auto.
                  unfold delta. rewrite (Z.eqb_sym s r), (Z.eqb_sym s p).
                  destruct (p =? q), (r =? s), (q =? r), (p =? s); lra. }
              rewrite sum_minus, !sum_scal, !sum_delta by assumption.
              unfold delta. rewrite (Z.eqb_sym r q). lra. }
          rewrite sum_minus, sum_scal, sum_delta by assumption.
          unfold delta. rewrite (Z.eqb_sym q p). lra. }
      rewrite !sum_minus, !sum_scal, sum_delta by assumption. lra. }
  (* the two-index loop *)
  rewrite (fold_adds_sum _ (fun p => (2 * h_int p p)%R)).
  2:{ intros a p Hp.
      rewrite (fold_adds_sum _ (fun q => (delta q p * (2 * h_int p q))%R)).
      2:{ intros b q Hq. rewrite RDM1_inactive by auto.
          unfold delta. rewrite (Z.eqb_sym q p). destruct (p =? q); lra. }
      now rewrite sum_delta by assumption. }
  lra.
Qed.

End DensityMatrixExtras.

(** * Further properties of operator_state_algebra.py *)

Module OperatorStateAlgebraExtras.

Import stdpp.base stdpp.gmap.
Import Stdlib.Strings.String.
Import OperatorStateAlgebra OperatorStateAlgebraRest.
Import DensityMatrixFacts OperatorStateAlgebraFacts.

Local Abbreviation length := Datatypes.length.

Local Open Scope Z_scope.
Local Open Scope result_scope.

(** ** bitcount counts the ones *)

Lemma land_odd_pred (y : Z) : Z.land (2 * y + 1) (2 * y) = 2 * y.
Proof.
  apply Z.bits_inj'. intros n Hn. rewrite Z.land_spec.
  destruct (Z.eq_dec n 0) as [->|Hn0].
  - now rewrite Z.testbit_odd_0, Z.testbit_even_0.
  - replace n with (Z.succ (n - 1)) by lia.
    rewrite Z.testbit_odd_succ, Z.testbit_even_succ by lia.
    apply andb_diag.
Qed.

Lemma land_even_pred (y : Z) :
  Z.land (2 * y) (2 * y - 1) = 2 * Z.land y (y - 1).
Proof.
  replace (2 * y - 1) with (2 * (y - 1) + 1) by lia.
  apply Z.bits_inj'. intros n Hn. rewrite Z.land_spec.
  destruct (Z.eq_dec n 0) as [->|Hn0].
  - now rewrite !Z.testbit_even_0.
  - replace n with (Z.succ (n - 1)) by lia.
    rewrite Z.testbit_odd_succ, !Z.testbit_even_succ by lia.
    now rewrite Z.land_spec.
Qed.

Lemma ones_pos (p : positive) : 1 <= ones p <= Zpos p.
Proof. induction p; cbn [ones]; lia. Qed.

Lemma popcount_nonneg (x : Z) : 0 <= popcount x.
Proof. destruct x; cbn; try lia. pose proof (ones_pos p). lia. Qed.

Lemma popcount_le (x : Z) : 0 <= x -> popcount x <= x.
Proof. destruct x; cbn; try lia. pose proof (ones_pos p). lia. Qed.

Lemma popcount_double (y : Z) : popcount (2 * y) = popcount y.
Proof. now destruct y. Qed.

(** One round of the loop clears the lowest one. *)
Lemma popcount_land_pred (p : positive) :
  0 <= Z.land (Zpos p) (Zpos p - 1)
  /\ popcount (Z.land (Zpos p) (Zpos p - 1)) = ones p - 1.
Proof.
  induction p as [q IH|q IH|].
  - replace (Zpos q~1) with (2 * Zpos q + 1) by lia.
    replace (2 * Zpos q + 1 - 1) with (2 * Zpos q) by lia.
    rewrite land_odd_pred, popcount_double. cbn [popcount ones]. lia.
  - replace (Zpos q~0) with (2 * Zpos q) by lia.
    rewrite land_even_pred, popcount_double. cbn [ones]. lia.
  - now cbn.
Qed.

Lemma bitcount_loop_popcount (fuel : nat) (x b : Z) :
  0 <= x -> popcount x <= Z.of_nat fuel ->
  bitcount_loop fuel x b = b + popcount x.
Proof.
  revert x b. induction fuel as [|fuel IH]; intros x b Hx Hfuel;
    cbn [bitcount_loop].
  - pose proof (popcount_nonneg x). lia.
  - destruct (Z.gtb_spec x 0) as [Hpos|H0].
    + destruct x as [|p|p]; try lia.
      destruct (popcount_land_pred p) as [Hnn Hpop].
      rewrite IH by (cbn [popcount] in Hfuel; lia).
      rewrite Hpop. cbn [popcount]. lia.
    + replace x with 0 by lia. cbn. lia.
Qed.

Lemma bitcount_ones (x : Z) : bitcount x = popcount x.
Proof.
  unfold bitcount. destruct (Z.leb_spec 0 x) as [Hx|Hx].
  - rewrite bitcount_loop_popcount; [lia | lia |].
    pose proof (popcount_le x Hx). lia.
  - destruct x; try lia. reflexivity.
Qed.

(** X7. [bitcount x] is the number of ones in the binary representation of
    [x], for every integer [x]; it is [0] for [x <= 0]. *)
Theorem bitcount_popcount (x : Z) : bitcount x = popcount x.
Proof. exact (bitcount_ones x). Qed.

(** ** The bits of the parity table *)

Lemma testbit_pow2_difference (a b j : Z) :
  0 <= b <= a -> 0 <= j ->
  Z.testbit (2 ^ a - 2 ^ b) j = (b <=? j) && (j <? a).
Proof.
  intros Hab Hj.
  replace (2 ^ a - 2 ^ b) with (Z.shiftl (Z.ones (a - b)) b).
  2:{ rewrite Z.shiftl_mul_pow2, Z.ones_equiv by lia.
      replace a with ((a - b) + b) at 2 by lia.
      rewrite Z.pow_add_r by lia. lia. }
  rewrite Z.shiftl_spec by lia.
  destruct (Z.leb_spec b j) as [Hbj|Hbj].
  - rewrite Z.testbit_ones by lia.
    destruct (Z.leb_spec 0 (j - b)); [|lia]. cbn [andb].
    destruct (Z.ltb_spec (j - b) (a - b)), (Z.ltb_spec j a); try reflexivity; lia.
  - now rewrite Z.testbit_neg_r by lia.
Qed.

Lemma length_build_parity_check (num_active_orbs : Z) :
  length (build_parity_check num_active_orbs) = Z.to_nat (2 * num_active_orbs + 1).
Proof.
  destruct (Z.leb_spec 0 num_active_orbs) as [Hn|Hn].
  - unfold build_parity_check, range. rewrite fold_left_rev_right.
    set (N := Z.to_nat (2 * num_active_orbs)).
    replace (Z.to_nat (2 * num_active_orbs + 1)) with (S (0 + N)) by lia.
    now destruct (parity_rounds num_active_orbs N 0 ltac:(lia)) as (_ & Hlen & _).
  - unfold build_parity_check, range.
    replace (Z.to_nat (2 * num_active_orbs)) with 0%nat by lia.
    cbn [seq map rev fold_left snd]. apply repeat_length.
Qed.

(** X8. The parity table has [2 * num_active_orbs + 1] entries, and entry
    [k] has exactly the bits of the spin orbitals [0 .. k - 1] set: bit [j]
    is set when [2 * num_active_orbs - k <= j < 2 * num_active_orbs]. *)
Theorem build_parity_check_bits (num_active_orbs k j : Z) :
  0 <= k <= 2 * num_active_orbs -> 0 <= j ->
  length (build_parity_check num_active_orbs) = Z.to_nat (2 * num_active_orbs + 1)
  /\ exists parity : Z,
       getitem (build_parity_check num_active_orbs) k = Ok parity
       /\ Z.testbit parity j
          = (2 * num_active_orbs - k <=? j) && (j <? 2 * num_active_orbs).
Proof.
  intros Hk Hj. split; [apply length_build_parity_check|].
  eexists. split; [now apply getitem_build_parity_check|].
  apply testbit_pow2_difference; lia.
Qed.

Lemma build_parity_check_bits_witness :
  (0 <= 1 <= 2 * 2 /\ 0 <= 3)
  /\ length (build_parity_check 2) = Z.to_nat (2 * 2 + 1)
  /\ exists parity : Z,
       getitem (build_parity_check 2) 1 = Ok parity
       /\ Z.testbit parity 3 = (2 * 2 - 1 <=? 3) && (3 <? 2 * 2).
Proof.
  split; [lia|].
  exact (build_parity_check_bits 2 1 3 ltac:(lia) ltac:(lia)).
Defined.

(** ** What a string does to a determinant *)

Lemma foldM_unchanged {A B : Type} (f : A -> B -> result A) (l : list B) (a : A) :
  (forall x, In x l -> f a x = Ok a) -> foldM f l a = Ok a.
Proof.
  induction l as [|x l IH]; intros H; cbn [foldM]; [reflexivity|].
  rewrite (H x (or_introl eq_refl)). cbn [bind].
  apply IH. intros y Hy. apply H. now right.
Qed.

Lemma kill_test (det s : Z) (b : bool) :
  0 <= s ->
  (Z.land (Z.shiftr det s) 1 =? Z.b2z b) = Bool.eqb (Z.testbit det s) b.
Proof.
  intros Hs. rewrite occupation_test by assumption.
  now destruct (Z.testbit det s), b.
Qed.

Lemma testbit_flip (det s q : Z) :
  0 <= s ->
  Z.testbit (Z.lxor det (Z.shiftl 1 s)) q = xorb (Z.testbit det q) (s =? q).
Proof.
  intros Hs. now rewrite Z.lxor_spec, Z.shiftl_1_l, Z.pow2_bits_eqb.
Qed.

Section OperatorLoop.

Variable num_active_orbs : Z.

Local Abbreviation bit := (orbital_bit num_active_orbs).

(** One round of [operator_loop], the shifts and the test resolved. *)
Lemma operator_loop_round (b : bool) (orb_idx : Z) (idxs : list Z)
    (parity_check : list Z) (det phase_changes : Z) :
  0 <= bit orb_idx ->
  operator_loop (Z.b2z b) (orb_idx :: idxs) num_active_orbs parity_check det
    phase_changes
  = if Bool.eqb (Z.testbit det (bit orb_idx)) b then Ok None
    else
      parity <- getitem parity_check orb_idx ;;
      operator_loop (Z.b2z b) idxs num_active_orbs parity_check
        (Z.lxor det (Z.shiftl 1 (bit orb_idx)))
        (phase_changes
         + bitcount (Z.land (Z.lxor det (Z.shiftl 1 (bit orb_idx))) parity)).
Proof.
  intros Hs. unfold orbital_bit in *. cbn [operator_loop]. unfold rshift, lshift.
  destruct (Z.ltb_spec (2 * num_active_orbs - 1 - orb_idx) 0); [lia|].
  cbn [bind]. rewrite kill_test by assumption.
  now destruct (Bool.eqb _ b).
Qed.

Lemma operator_loop_negative_shift (kill_bit orb_idx : Z) (idxs : list Z)
    (parity_check : list Z) (det phase_changes : Z) :
  bit orb_idx < 0 ->
  operator_loop kill_bit (orb_idx :: idxs) num_active_orbs parity_check det
    phase_changes
  = Raise (ValueError "negative shift count"%string).
Proof.
  intros Hs. unfold orbital_bit in *. cbn [operator_loop]. unfold rshift.
  destruct (Z.ltb_spec (2 * num_active_orbs - 1 - orb_idx) 0); [reflexivity | lia].
Qed.

(** A loop that does not end in the kill state met distinct orbitals, each
    with the bit the loop requires, flipped each of them and touched no
    other bit. *)
Lemma operator_loop_accepts (b : bool) (idxs : list Z) (parity_check : list Z) :
  forall det phase_changes det' phase_changes',
    operator_loop (Z.b2z b) idxs num_active_orbs parity_check det phase_changes
    = Ok (Some (det', phase_changes')) ->
    List.NoDup idxs
    /\ (forall k, In k idxs ->
          0 <= bit k /\ Z.testbit det (bit k) = negb b /\ Z.testbit det' (bit k) = b)
    /\ (forall q, (forall k, In k idxs -> bit k <> q) ->
          Z.testbit det' q = Z.testbit det q).
Proof.
  induction idxs as [|k idxs IH]; intros det phase_changes det' phase_changes' H.
  - cbn [operator_loop] in H. injection H as -> _.
    split; [constructor|]. split; [intros k []|reflexivity].
  - destruct (Z.ltb_spec (bit k) 0) as [Hneg|Hs].
    { now rewrite operator_loop_negative_shift in H. }
    rewrite operator_loop_round in H by assumption.
    destruct (Bool.eqb (Z.testbit det (bit k)) b) eqn:Hbit; [discriminate|].
    destruct (getitem parity_check k) as [parity|e]; [|discriminate].
    cbn [bind] in H. apply IH in H. destruct H as (Hnd & Hin & Hout).
    assert (Hflip : Z.testbit (Z.lxor det (Z.shiftl 1 (bit k))) (bit k) = b).
    { rewrite testbit_flip, Z.eqb_refl by assumption.
      destruct (Z.testbit det (bit k)), b; cbn in *; congruence. }
    assert (Hfresh : ~ In k idxs).
    { intros Hk. destruct (Hin k Hk) as (_ & Hk1 & _).
      rewrite Hflip in Hk1. now destruct b. }
    assert (Hother : forall j, In j idxs -> bit j <> bit k).
    { intros j Hj E. apply Hfresh. unfold orbital_bit in E.
      now replace k with j by lia. }
    split; [apply List.NoDup_cons; assumption|]. split.
    + intros j [<-|Hj].
      * split; [assumption|]. split.
        -- destruct (Z.testbit det (bit k)), b; cbn in *; congruence.
        -- now rewrite Hout by assumption.
      * destruct (Hin j Hj) as (Hj0 & Hj1 & Hj2).
        split; [assumption|]. split; [|assumption].
        rewrite testbit_flip in Hj1 by assumption.
        destruct (Z.eqb_spec (bit k) (bit j)) as [E|_].
        -- symmetry in E. now apply Hother in E.
        -- now rewrite xorb_false_r in Hj1.
    + intros q Hq. rewrite Hout by (intros j Hj; apply Hq; now right).
      rewrite testbit_flip by assumption.
      destruct (Z.eqb_spec (bit k) q) as [E|_].
      * now apply (Hq k (or_introl eq_refl)) in E.
      * apply xorb_false_r.
Qed.

(** On spin orbitals of the active space the loop raises nothing. *)
Lemma operator_loop_returns (b : bool) (idxs : list Z) :
  in_active_space num_active_orbs idxs ->
  forall det phase_changes,
    exists r,
      operator_loop (Z.b2z b) idxs num_active_orbs
        (build_parity_check num_active_orbs) det phase_changes = Ok r.
Proof.
  induction 1 as [|k idxs Hk _ IH]; intros det phase_changes.
  - now eexists.
  - rewrite operator_loop_round by (unfold orbital_bit; lia).
    destruct (Bool.eqb _ b); [now eexists|].
    rewrite getitem_build_parity_check by lia. cbn [bind]. apply IH.
Qed.

Lemma apply_string_repeated (anni_idxs create_idxs : list Z) (det : Z) :
  in_active_space num_active_orbs anni_idxs ->
  in_active_space num_active_orbs create_idxs ->
  ~ List.NoDup anni_idxs \/ ~ List.NoDup create_idxs ->
  apply_string anni_idxs create_idxs num_active_orbs
    (build_parity_check num_active_orbs) det = Ok None.
Proof.
  intros Ha Hc Hdup. unfold apply_string.
  destruct (operator_loop_returns false anni_idxs Ha det 0) as [r Hr].
  cbn [Z.b2z] in Hr. rewrite Hr. cbn [bind].
  destruct r as [[det1 phase1]|]; [|reflexivity].
  destruct (operator_loop_returns true create_idxs Hc det1 phase1) as [r' Hr'].
  cbn [Z.b2z] in Hr'. rewrite Hr'.
  destruct r' as [[det2 phase2]|]; [|reflexivity].
  apply (operator_loop_accepts false) in Hr.
  apply (operator_loop_accepts true) in Hr'.
  destruct Hdup as [Hdup|Hdup]; exfalso; apply Hdup; [apply Hr | apply Hr'].
Qed.

End OperatorLoop.

(** X9. A string that annihilates one spin orbital twice, or creates one
    twice, contributes nothing: on spin orbitals of the active space and a
    state that has an amplitude for every determinant, [apply_operator]
    returns [tmp_state] as it was, and [add_operator_matrix] returns
    [op_mat] as it was. *)
Theorem repeated_index_contributes_nothing (state tmp_state : state_vector)
    (op_mat : matrix) (anni_idxs create_idxs : list Z) (num_active_orbs : Z)
    (idx2det : list Z) (det2idx : gmap Z Z) (do_unsafe : bool) (factor : R) :
  in_active_space num_active_orbs anni_idxs ->
  in_active_space num_active_orbs create_idxs ->
  (length idx2det <= length state)%nat ->
  ~ List.NoDup anni_idxs \/ ~ List.NoDup create_idxs ->
  apply_operator state anni_idxs create_idxs num_active_orbs
    (build_parity_check num_active_orbs) idx2det det2idx do_unsafe tmp_state factor
  = Ok tmp_state
  /\ add_operator_matrix op_mat anni_idxs create_idxs num_active_orbs
       (build_parity_check num_active_orbs) idx2det det2idx do_unsafe factor
     = Ok op_mat.
Proof.
  intros Ha Hc Hlen Hdup.
  assert (Hkill : forall det,
             apply_string (rev anni_idxs) (rev create_idxs) num_active_orbs
               (build_parity_check num_active_orbs) det = Ok None).
  { intros det. apply apply_string_repeated.
    - now apply Forall_rev.
    - now apply Forall_rev.
    - destruct Hdup as [H|H]; [left | right]; intros Hnd; apply H;
        rewrite <- (rev_involutive _); now apply List.NoDup_rev. }
  split.
  - unfold apply_operator. apply foldM_unchanged. intros [i det] Hin.
    apply in_enumerate in Hin. unfold apply_operator_body, item_at.
    destruct (nth_error state i) as [amplitude|] eqn:E.
    + cbn [bind]. destruct (below_threshold amplitude); [reflexivity|].
      now rewrite Hkill.
    + apply nth_error_None in E.
      assert (i < length idx2det)%nat by (apply nth_error_Some; congruence). lia.
  - unfold add_operator_matrix. apply foldM_unchanged. intros [i det] Hin.
    unfold add_operator_matrix_body. now rewrite Hkill.
Qed.

Lemma repeated_index_contributes_nothing_witness :
  in_active_space 2 [0; 0] /\ in_active_space 2 [2] /\
  (length (idx2det example_ci) <= length [1%R; 1%R])%nat /\
  (~ List.NoDup [0; 0] \/ ~ List.NoDup [2]) /\
  apply_operator [1%R; 1%R] [0; 0] [2] 2 (build_parity_check 2)
    (idx2det example_ci) (det2idx example_ci) false [0%R; 0%R] 1
  = Ok [0%R; 0%R].
Proof.
  assert (Ha : in_active_space 2 [0; 0]) by (repeat constructor; lia).
  assert (Hc : in_active_space 2 [2]) by (repeat constructor; lia).
  assert (Hlen : (length (idx2det example_ci) <= length [1%R; 1%R])%nat)
    by (cbn; lia).
  assert (Hdup : ~ List.NoDup [0; 0] \/ ~ List.NoDup [2]).
  { left. intros H. inversion H as [|? ? Hin _]. apply Hin. now left. }
  split; [exact Ha|]. split; [exact Hc|]. split; [exact Hlen|].
  split; [exact Hdup|].
  exact (proj1 (repeated_index_contributes_nothing [1%R; 1%R] [0%R; 0%R] []
                  [0; 0] [2] 2 (idx2det example_ci) (det2idx example_ci) false 1%R
                  Ha Hc Hlen Hdup)).
Defined.

(** X10. What an accepted string did: when [apply_string] returns a
    determinant, the annihilated spin orbitals are distinct and occupied in
    the old determinant, the created ones are distinct and occupied in the
    new one, a created orbital that is not annihilated was empty before, and
    every bit that belongs to neither list is unchanged. *)
Theorem accepted_string (anni_idxs create_idxs : list Z) (num_active_orbs : Z)
    (parity_check : list Z) (det det' phase_changes : Z) :
  apply_string anni_idxs create_idxs num_active_orbs parity_check det
  = Ok (Some (det', phase_changes)) ->
  List.NoDup anni_idxs /\ List.NoDup create_idxs
  /\ (forall k, In k anni_idxs ->
        Z.testbit det (orbital_bit num_active_orbs k) = true)
  /\ (forall k, In k create_idxs ->
        Z.testbit det' (orbital_bit num_active_orbs k) = true)
  /\ (forall k, In k create_idxs -> ~ In k anni_idxs ->
        Z.testbit det (orbital_bit num_active_orbs k) = false)
  /\ (forall k, In k anni_idxs -> ~ In k create_idxs ->
        Z.testbit det' (orbital_bit num_active_orbs k) = false)
  /\ (forall q,
        (forall k, In k anni_idxs \/ In k create_idxs ->
                   orbital_bit num_active_orbs k <> q) ->
        Z.testbit det' q = Z.testbit det q).
Proof.
  unfold apply_string. intros H.
  destruct (operator_loop 0 anni_idxs num_active_orbs parity_check det 0)
    as [[[det1 phase1]|]|e] eqn:Ha; cbn [bind] in H; try discriminate.
  apply (operator_loop_accepts num_active_orbs false) in Ha.
  apply (operator_loop_accepts num_active_orbs true) in H.
  destruct Ha as (Hnda & Hina & Houta), H as (Hndc & Hinc & Houtc).
  assert (Hinj : forall j k,
             orbital_bit num_active_orbs j = orbital_bit num_active_orbs k -> j = k)
    by (unfold orbital_bit; intros; lia).
  repeat split; try assumption.
  - intros k Hk. now apply Hina.
  - intros k Hk. now apply Hinc.
  - intros k Hk Hnot. rewrite <- Houta.
    + now apply Hinc.
    + intros j Hj E. apply Hnot. now rewrite <- (Hinj _ _ E).
  - intros k Hk Hnot. rewrite Houtc.
    + now apply Hina.
    + intros j Hj E. apply Hnot. now rewrite <- (Hinj _ _ E).
  - intros q Hq. rewrite Houtc by (intros k Hk; apply Hq; now right).
    apply Houta. intros k Hk. apply Hq. now left.
Qed.

Lemma accepted_string_witness :
  apply_string [0] [2] 2 (build_parity_check 2) 8 = Ok (Some (2, 0))
  /\ Z.testbit 8 (orbital_bit 2 0) = true
  /\ Z.testbit 2 (orbital_bit 2 2) = true.
Proof.
  assert (H : apply_string [0] [2] 2 (build_parity_check 2) 8 = Ok (Some (2, 0)))
    by reflexivity.
  split; [exact H|].
  destruct (accepted_string [0] [2] 2 (build_parity_check 2) 8 2 0 H)
    as (_ & _ & Hanni & Hcreate & _).
  split; [apply Hanni | apply Hcreate]; now left.
Defined.

(** ** Where a KeyError comes from *)

Lemma foldM_raised {A B : Type} (E : exception -> Prop) (f : A -> B -> result A)
    (l : list B) :
  (forall a x e, In x l -> f a x = Raise e -> E e) ->
  forall a e, foldM f l a = Raise e -> E e.
Proof.
  induction l as [|x l IH]; intros Hf a e H; cbn [foldM] in H; [discriminate|].
  destruct (f a x) as [a'|e'] eqn:Hx; cbn [bind] in H.
  - apply (IH (fun a x e Hin => Hf a x e (or_intror Hin)) a' e H).
  - injection H as <-. apply (Hf a x e' (or_introl eq_refl) Hx).
Qed.

Lemma getitem_raised {A : Type} (a : list A) (i : Z) (e : exception) :
  getitem a i = Raise e -> e = IndexError.
Proof.
  unfold getitem, item_at. destruct (normalize_index _ i) as [n|]; [|congruence].
  destruct (nth_error a n); congruence.
Qed.

Lemma operator_loop_raised (kill_bit : Z) (idxs : list Z) (num_active_orbs : Z)
    (parity_check : list Z) :
  forall det phase_changes e,
    operator_loop kill_bit idxs num_active_orbs parity_check det phase_changes
    = Raise e ->
    e = IndexError \/ e = ValueError "negative shift count"%string.
Proof.
  induction idxs as [|k idxs IH]; intros det phase_changes e H;
    cbn [operator_loop] in H; [discriminate|].
  unfold rshift, lshift in H.
  destruct (2 * num_active_orbs - 1 - k <? 0); cbn [bind] in H;
    [right; congruence|].
  destruct (Z.land _ 1 =? kill_bit); [discriminate|].
  destruct (getitem parity_check k) as [parity|e'] eqn:Hp; cbn [bind] in H.
  - now apply IH in H.
  - left. injection H as <-. now apply getitem_raised in Hp.
Qed.

Lemma apply_string_raised (anni_idxs create_idxs : list Z) (num_active_orbs : Z)
    (parity_check : list Z) (det : Z) (e : exception) :
  apply_string anni_idxs create_idxs num_active_orbs parity_check det = Raise e ->
  e = IndexError \/ e = ValueError "negative shift count"%string.
Proof.
  unfold apply_string.
  destruct (operator_loop 0 anni_idxs _ _ det 0) as [[[det1 phase1]|]|e'] eqn:Ha;
    cbn [bind]; intros H.
  - now apply operator_loop_raised in H.
  - discriminate.
  - injection H as <-. now apply operator_loop_raised in Ha.
Qed.

Lemma absent_key_other (det2idx : gmap Z Z) (do_unsafe : bool) (e : exception) :
  e = IndexError \/ e = ValueError "negative shift count"%string ->
  absent_key det2idx do_unsafe e.
Proof. intros [->| ->] det; discriminate. Qed.

Lemma lookup_raised (det2idx : gmap Z Z) (do_unsafe : bool) (det : Z) (e : exception) :
  do_unsafe && negb (dict_contains det2idx det) = false ->
  dict_getitem det2idx det = Raise e ->
  absent_key det2idx do_unsafe e.
Proof.
  unfold dict_contains, dict_getitem. intros Hguard H det' ->.
  destruct (det2idx !! det) eqn:E; [discriminate|].
  injection H as <-. split; [|assumption].
  destruct do_unsafe; [discriminate | reflexivity].
Qed.

Lemma apply_operator_raised (state : state_vector) (anni_idxs create_idxs : list Z)
    (num_active_orbs : Z) (parity_check idx2det : list Z) (det2idx : gmap Z Z)
    (do_unsafe : bool) (tmp_state : state_vector) (factor : R) (e : exception) :
  apply_operator state anni_idxs create_idxs num_active_orbs parity_check idx2det
    det2idx do_unsafe tmp_state factor = Raise e ->
  absent_key det2idx do_unsafe e.
Proof.
  unfold apply_operator. apply foldM_raised. clear tmp_state e.
  intros tmp_state [i det] e _. unfold apply_operator_body, item_at.
  destruct (nth_error state i) as [amplitude|]; cbn [bind];
    [|intros [= <-]; apply absent_key_other; now left].
  destruct (below_threshold amplitude); [discriminate|].
  destruct (apply_string _ _ _ _ det) as [[[det' phase]|]|e'] eqn:Hs; cbn [bind];
    [| discriminate | intros [= <-]; apply absent_key_other;
                      now apply apply_string_raised in Hs].
  destruct (do_unsafe && negb (dict_contains det2idx det')) eqn:Hguard;
    [discriminate|].
  destruct (dict_getitem det2idx det') as [idx|e'] eqn:Hd; cbn [bind].
  - unfold additem. destruct (normalize_index _ idx); [discriminate|].
    intros [= <-]. apply absent_key_other. now left.
  - intros [= <-]. now apply (lookup_raised _ _ det').
Qed.

Lemma add_operator_matrix_raised (op_mat : matrix) (anni_idxs create_idxs : list Z)
    (num_active_orbs : Z) (parity_check idx2det : list Z) (det2idx : gmap Z Z)
    (do_unsafe : bool) (factor : R) (e : exception) :
  add_operator_matrix op_mat anni_idxs create_idxs num_active_orbs parity_check
    idx2det det2idx do_unsafe factor = Raise e ->
  absent_key det2idx do_unsafe e.
Proof.
  unfold add_operator_matrix. apply foldM_raised. clear op_mat e.
  intros op_mat [i det] e _. unfold add_operator_matrix_body.
  destruct (apply_string _ _ _ _ det) as [[[det' phase]|]|e'] eqn:Hs; cbn [bind];
    [| discriminate | intros [= <-]; apply absent_key_other;
                      now apply apply_string_raised in Hs].
  destruct (do_unsafe && negb (dict_contains det2idx det')) eqn:Hguard;
    [discriminate|].
  destruct (dict_getitem det2idx det') as [idx|e'] eqn:Hd; cbn [bind].
  - unfold additem2, item_at. destruct (normalize_index _ idx) as [n|];
      [|intros [= <-]; apply absent_key_other; now left].
    destruct (nth_error op_mat n) as [row|]; cbn [bind];
      [|intros [= <-]; apply absent_key_other; now left].
    destruct (i <? length row)%nat; [discriminate|].
    intros [= <-]. apply absent_key_other. now left.
  - intros [= <-]. now apply (lookup_raised _ _ det').
Qed.

(** X11. [build_operator_matrix] raises a KeyError only when called with
    [do_unsafe = false], and the key it names is a determinant that is not
    in [det2idx]. *)
Theorem build_operator_matrix_key_error (op : FermionicOperator) (ci_info : CI_Info)
    (do_unsafe : bool) (det : Z) :
  build_operator_matrix op ci_info do_unsafe = Raise (KeyError det) ->
  do_unsafe = false /\ det2idx ci_info !! det = None.
Proof.
  intros H. unfold build_operator_matrix in H.
  apply (foldM_raised (absent_key (det2idx ci_info) do_unsafe)) in H.
  - now apply H.
  - intros op_mat [fermi_label coefficient] e _.
    apply add_operator_matrix_raised.
Qed.

Lemma build_operator_matrix_key_error_witness :
  build_operator_matrix (G1_model 0 2 false) single_determinant_ci false
  = Raise (KeyError 2)
  /\ false = false /\ det2idx single_determinant_ci !! 2 = None.
Proof.
  assert (H : build_operator_matrix (G1_model 0 2 false) single_determinant_ci false
              = Raise (KeyError 2)) by (evaluate; reflexivity).
  split; [exact H|].
  exact (build_operator_matrix_key_error _ _ _ _ H).
Defined.

(** X12. [propagate_state] on a list of [FermionicOperator]s raises a
    KeyError only when called with [do_unsafe = false], and the key it names
    is a determinant that is not in [det2idx]. *)
Theorem propagate_state_key_error (ext : Externals) (operators : list FermionicOperator)
    (state : state_vector) (ci_info : CI_Info) (thetas : list R)
    (wf_struct : wf_structure) (do_folding do_unsafe : bool) (det : Z) :
  propagate_state ext (map OpFermi operators) state ci_info thetas wf_struct
    do_folding do_unsafe = Raise (KeyError det) ->
  do_unsafe = false /\ det2idx ci_info !! det = None.
Proof.
  intros H. unfold propagate_state in H.
  destruct (length (map OpFermi operators) =? 0)%nat; [discriminate|].
  apply (foldM_raised (absent_key (det2idx ci_info) do_unsafe)) in H.
  - now apply H.
  - intros new_state item e Hin. rewrite <- in_rev in Hin.
    apply in_map_iff in Hin. destruct Hin as (op & <- & _).
    unfold propagate_operator. apply foldM_raised.
    intros tmp_state [fermi_label coefficient] e' _.
    apply apply_operator_raised.
Qed.

Lemma propagate_state_key_error_witness :
  propagate_state example_externals (map OpFermi [G1_model 0 2 false]) [1%R]
    single_determinant_ci [] (Ups example_ups) true false
  = Raise (KeyError 2)
  /\ false = false /\ det2idx single_determinant_ci !! 2 = None.
Proof.
  assert (H : propagate_state example_externals (map OpFermi [G1_model 0 2 false])
                [1%R] single_determinant_ci [] (Ups example_ups) true false
              = Raise (KeyError 2)).
  { evaluate. decide_threshold. reflexivity. }
  split; [exact H|].
  exact (propagate_state_key_error _ _ _ _ _ _ _ _ _ H).
Defined.

(** ** Amplitudes below the threshold *)

(** X13. A state whose every amplitude is below [10 ** -14] in absolute
    value is sent to the zero vector by any [FermionicOperator], with no
    exception, whatever the operator, the flags and [det2idx]: the loop of
    [apply_operator] skips every determinant. *)
Theorem negligible_state_annihilated (ext : Externals) (op : FermionicOperator)
    (state : state_vector) (ci_info : CI_Info) (thetas : list R)
    (wf_struct : wf_structure) (do_folding do_unsafe : bool) :
  all_below_threshold state ->
  (length (idx2det ci_info) <= length state)%nat ->
  propagate_state ext [OpFermi op] state ci_info thetas wf_struct do_folding do_unsafe
  = Ok (zeros (length state)).
Proof.
  intros Hsmall Hlen. unfold propagate_state.
  cbn [length Nat.eqb rev app foldM]. unfold propagate_operator.
  rewrite foldM_unchanged; [reflexivity|].
  intros [fermi_label coefficient] _. unfold apply_operator.
  apply foldM_unchanged. intros [i det] Hin. apply in_enumerate in Hin.
  unfold apply_operator_body, item_at.
  destruct (nth_error state i) as [amplitude|] eqn:E.
  - cbn [bind]. apply nth_error_In in E.
    unfold all_below_threshold in Hsmall. rewrite List.Forall_forall in Hsmall.
    now rewrite (Hsmall amplitude E).
  - apply nth_error_None in E.
    assert (i < length (idx2det ci_info))%nat by (apply nth_error_Some; congruence).
    lia.
Qed.

Lemma negligible_state_annihilated_witness :
  all_below_threshold [tiny] /\
  (length (idx2det single_determinant_ci) <= length [tiny])%nat /\
  propagate_state example_externals [OpFermi (G1_model 0 2 false)] [tiny]
    single_determinant_ci [] (Ups example_ups) true false
  = Ok (zeros (length [tiny])).
Proof.
  assert (Hsmall : all_below_threshold [tiny]).
  { repeat constructor. apply below_threshold_true.
    unfold threshold, tiny, Rabs. destruct (Rcase_abs _); lra. }
  assert (Hlen : (length (idx2det single_determinant_ci) <= length [tiny])%nat)
    by (cbn; lia).
  split; [exact Hsmall|]. split; [exact Hlen|].
  exact (negligible_state_annihilated example_externals (G1_model 0 2 false) [tiny]
           single_determinant_ci [] (Ups example_ups) true false Hsmall Hlen).
Defined.

(** ** The shape of the operator matrix *)

Lemma add_operator_matrix_square (n : nat) (op_mat op_mat' : matrix)
    (anni_idxs create_idxs : list Z) (num_active_orbs : Z)
    (parity_check idx2det : list Z) (det2idx : gmap Z Z) (do_unsafe : bool)
    (factor : R) :
  square n op_mat ->
  add_operator_matrix op_mat anni_idxs create_idxs num_active_orbs parity_check
    idx2det det2idx do_unsafe factor = Ok op_mat' ->
  square n op_mat'.
Proof.
  unfold add_operator_matrix. intros Hsq H.
  apply (foldM_invariant (square n) _ _) with (a := op_mat) (a' := op_mat') in H;
    [assumption | | assumption].
  clear. intros m [i det] m' Hm. unfold add_operator_matrix_body.
  destruct (apply_string _ _ _ _ det) as [[[det' phase]|]|e]; cbn [bind];
    [| now intros [= <-] | discriminate].
  destruct (do_unsafe && negb (dict_contains det2idx det')); [now intros [= <-]|].
  destruct (dict_getitem det2idx det') as [idx|e]; cbn [bind]; [|discriminate].
  unfold additem2, item_at. destruct (normalize_index _ idx) as [r|]; [|discriminate].
  destruct (nth_error m r) as [row|]; cbn [bind]; [|discriminate].
  destruct (i <? length row)%nat; [|discriminate].
  intros [= <-]. now apply square_update.
Qed.

(** X14. Whenever [build_operator_matrix] returns, the matrix is square
    with one row and one column for each determinant of [idx2det]. *)
Theorem build_operator_matrix_square (op : FermionicOperator) (ci_info : CI_Info)
    (do_unsafe : bool) (op_mat : matrix) :
  build_operator_matrix op ci_info do_unsafe = Ok op_mat ->
  square (length (idx2det ci_info)) op_mat.
Proof.
  unfold build_operator_matrix. intros H.
  apply (foldM_invariant (square (length (idx2det ci_info))) _ _) in H;
    [assumption | | apply square_zeros].
  intros m [fermi_label coefficient] m' Hm. now apply add_operator_matrix_square.
Qed.

Lemma build_operator_matrix_square_witness :
  build_operator_matrix (G1_model 0 2 true) example_ci false
  = Ok [[0; -1]; [1; 0]]%R
  /\ square (length (idx2det example_ci)) [[0; -1]; [1; 0]]%R.
Proof.
  assert (H : build_operator_matrix (G1_model 0 2 true) example_ci false
              = Ok [[0; -1]; [1; 0]]%R).
  { evaluate. equal_reals. }
  split; [exact H|].
  exact (build_operator_matrix_square _ _ _ _ H).
Defined.

(** ** Parameters below the threshold, and the dagger pass *)

Lemma in_combine_thetas {X : Type} (l : list X) (thetas : list R) (x : X) (theta : R) :
  all_below_threshold thetas -> In (x, theta) (combine l thetas) ->
  below_threshold theta = true.
Proof.
  intros Hsmall Hin. apply in_combine_r in Hin.
  unfold all_below_threshold in Hsmall. rewrite List.Forall_forall in Hsmall.
  now apply Hsmall.
Qed.

(** X15. When every parameter is below [10 ** -14] in absolute value,
    [construct_ups_state] returns the state it was given, forwards and with
    [dagger], and [get_ucc_T] returns the empty operator, whatever the
    excitation types and indices are. *)
Theorem parameters_below_threshold (ext : Externals) (state : state_vector)
    (ci_info : CI_Info) (thetas : list R) (ups_struct : UpsStructure)
    (ucc_struct : UccStructure) (dagger : bool) (offset : Z) :
  all_below_threshold thetas ->
  construct_ups_state ext state ci_info thetas ups_struct dagger = Ok state
  /\ get_ucc_T ext thetas ucc_struct offset = Ok {| operators := [] |}.
Proof.
  intros Hsmall. split.
  - assert (Hord : all_below_threshold (ordered dagger thetas)).
    { unfold ordered. destruct dagger; [now apply Forall_rev | assumption]. }
    unfold construct_ups_state. apply foldM_unchanged.
    intros [[exc_type exc_indices] theta] Hin.
    apply ups_step_skipped. now apply (in_combine_thetas _ _ _ _ Hord) in Hin.
  - unfold get_ucc_T. apply foldM_unchanged.
    intros [[exc_type exc_indices] theta] Hin.
    apply in_combine_thetas in Hin; [|assumption].
    unfold ucc_step. now rewrite Hin.
Qed.

Lemma parameters_below_threshold_witness :
  all_below_threshold [0%R; tiny] /\
  construct_ups_state example_externals [1%R; 0%R] example_ci [0%R; tiny]
    {| ups_excitation_operator_type := ["single"; "foo"]%string;
       ups_excitation_indices := [[0; 2]; []] |} true
  = Ok [1%R; 0%R].
Proof.
  assert (Hsmall : all_below_threshold [0%R; tiny]).
  { repeat constructor; apply below_threshold_true;
      unfold threshold, tiny, Rabs; destruct (Rcase_abs _); lra. }
  split; [exact Hsmall|].
  exact (proj1 (parameters_below_threshold example_externals [1%R; 0%R] example_ci
                  [0%R; tiny]
                  {| ups_excitation_operator_type := ["single"; "foo"]%string;
                     ups_excitation_indices := [[0; 2]; []] |}
                  {| ucc_excitation_operator_type := [];
                     ucc_excitation_indices := [] |} true 0 Hsmall)).
Defined.

Lemma below_threshold_opp (theta : R) :
  below_threshold (- theta) = below_threshold theta.
Proof. unfold below_threshold. now rewrite Rabs_Ropp. Qed.

Lemma ups_step_dagger (ext : Externals) (ci_info : CI_Info) (tmp : state_vector)
    (exc_type : string) (exc_indices : list Z) (theta : R) :
  ups_step ext ci_info true tmp exc_type exc_indices theta
  = ups_step ext ci_info false tmp exc_type exc_indices (- theta).
Proof. unfold ups_step. now rewrite below_threshold_opp. Qed.

Lemma combine_map_r {X Y Y' : Type} (g : Y -> Y') (l : list X) (k : list Y) :
  combine l (map g k) = map (fun '(x, y) => (x, g y)) (combine l k).
Proof.
  revert k. induction l as [|x l IH]; intros [|y k]; cbn [combine map];
    try reflexivity.
  now rewrite IH.
Qed.

(** X16. The pass with [dagger] is the forward pass over the steps in the
    opposite order with the opposite parameters: the steps are reversed,
    the two rotations inside a "sa_single" step are not. *)
Theorem dagger_pass_is_reversed_pass (ext : Externals) (state : state_vector)
    (ci_info : CI_Info) (thetas : list R) (ups_struct : UpsStructure) :
  construct_ups_state ext state ci_info thetas ups_struct true
  = construct_ups_state ext state ci_info (map Ropp (rev thetas))
      (ups_reversed ups_struct) false.
Proof.
  unfold construct_ups_state, ordered, ups_reversed.
  cbn [ups_excitation_operator_type ups_excitation_indices].
  rewrite combine_map_r, foldM_map. apply foldM_ext.
  intros tmp [[exc_type exc_indices] theta]. apply ups_step_dagger.
Qed.

(** ** Shapes and composition *)

Section Shapes.

Variable ext : Externals.
Variable ci_info : CI_Info.

Lemma loop_rotation_length (T : FermionicOperator) (theta : R)
    (psi out : state_vector) :
  loop_rotation ext ci_info T theta psi = Ok out -> length out = length psi.
Proof.
  unfold loop_rotation.
  destruct (apply_generator ext ci_info T psi) as [v1|e] eqn:H1; cbn [bind];
    [|discriminate].
  destruct (apply_generator ext ci_info T v1) as [v2|e] eqn:H2; cbn [bind];
    [|discriminate].
  apply apply_generator_length in H1, H2.
  intros [= <-].
  assert (E1 : length (vadd psi (vscale (sin theta) v1)) = length psi)
    by (apply length_vadd; rewrite length_vscale; congruence).
  rewrite length_vadd; [exact E1 | rewrite E1, length_vscale; congruence].
Qed.

Lemma ups_step_length (dagger : bool) (tmp out : state_vector) (exc_type : string)
    (exc_indices : list Z) (theta : R) :
  ups_step ext ci_info dagger tmp exc_type exc_indices theta = Ok out ->
  length out = length tmp.
Proof.
  destruct (below_threshold theta) eqn:Hthr.
  { rewrite ups_step_skipped by assumption. now intros [= <-]. }
  destruct (exc_type =? "sa_single")%string eqn:Hsa.
  { apply String.eqb_eq in Hsa. subst exc_type.
    rewrite ups_step_sa_single by assumption.
    destruct (unpack2 _) as [ia|e]; cbn [bind]; [|discriminate].
    destruct (loop_rotation ext ci_info _ _ tmp) as [mid|e] eqn:H1; cbn [bind];
      [|discriminate].
    intros H2. apply loop_rotation_length in H1, H2. congruence. }
  destruct ((exc_type =? "single") || (exc_type =? "double"))%string eqn:Htag.
  { rewrite ups_step_analytic by assumption.
    destruct (step_generator _ _ _ _) as [T|e]; cbn [bind]; [|discriminate].
    apply loop_rotation_length. }
  rewrite ups_step_unknown; [discriminate | assumption |].
  unfold ups_known. rewrite Hsa. exact Htag.
Qed.

Lemma construct_ups_state_length (state out : state_vector) (thetas : list R)
    (ups_struct : UpsStructure) (dagger : bool) :
  construct_ups_state ext state ci_info thetas ups_struct dagger = Ok out ->
  length out = length state.
Proof.
  unfold construct_ups_state. intros H.
  apply (foldM_invariant (fun v => length v = length state) _ _) in H;
    [assumption | | reflexivity].
  intros tmp [[exc_type exc_indices] theta] tmp' Htmp Hstep.
  apply ups_step_length in Hstep. congruence.
Qed.

Hypothesis Hexpm : expm_keeps_shape ext.

Lemma propagate_state_length (operators : list operator_item)
    (state out : state_vector) (thetas : list R) (wf_struct : wf_structure)
    (do_folding do_unsafe : bool) :
  propagate_state ext operators state ci_info thetas wf_struct do_folding do_unsafe
  = Ok out ->
  length out = length state.
Proof using Hexpm.
  unfold propagate_state.
  destruct (length operators =? 0)%nat; [now intros [= <-]|].
  intros H.
  apply (foldM_invariant (fun v => length v = length state) _ _) in H;
    [assumption | | reflexivity].
  clear H. intros new_state [label|op] new_state' Hnew.
  - destruct (negb _); [discriminate|].
    destruct wf_struct as [ups_struct|ucc_struct|type_name]; [| |discriminate].
    + intros H. apply construct_ups_state_length in H. congruence.
    + unfold construct_ucc_state.
      destruct (get_ucc_T _ _ _ _) as [T|e]; cbn [bind]; [|discriminate].
      destruct (build_operator_matrix _ _ _) as [Tmat|e]; cbn [bind]; [|discriminate].
      destruct (label =? "Ud")%string; intros [= <-]; now rewrite Hexpm.
  - apply propagate_operator_length.
Qed.

Lemma propagate_state_loop (operators : list operator_item) (state : state_vector)
    (thetas : list R) (wf_struct : wf_structure) (do_folding do_unsafe : bool) :
  propagate_state ext operators state ci_info thetas wf_struct do_folding do_unsafe
  = if (length operators =? 0)%nat then Ok state
    else foldM (propagate_item ext state ci_info thetas wf_struct do_folding do_unsafe)
           (rev operators) state.
Proof. reflexivity. Qed.

(** On states of one length the rounds of the loop are the same. *)
Lemma propagate_item_shape (state state' new_state : state_vector) (thetas : list R)
    (wf_struct : wf_structure) (do_folding do_unsafe : bool) (op : operator_item) :
  length state = length state' ->
  propagate_item ext state ci_info thetas wf_struct do_folding do_unsafe new_state op
  = propagate_item ext state' ci_info thetas wf_struct do_folding do_unsafe
      new_state op.
Proof.
  intros Hlen. destruct op as [label|op]; [reflexivity|].
  now apply propagate_operator_shape.
Qed.

Lemma propagate_state_app (A B : list operator_item) (state : state_vector)
    (thetas : list R) (wf_struct : wf_structure) (do_folding do_unsafe : bool) :
  propagate_state ext (A ++ B) state ci_info thetas wf_struct do_folding do_unsafe
  = (mid <- propagate_state ext B state ci_info thetas wf_struct do_folding
              do_unsafe ;;
     propagate_state ext A mid ci_info thetas wf_struct do_folding do_unsafe).
Proof using Hexpm.
  destruct B as [|b B].
  { rewrite app_nil_r. reflexivity. }
  destruct A as [|a A].
  { cbn [app]. now destruct (propagate_state _ _ _ _ _ _ _ _). }
  destruct (propagate_state ext (b :: B) state ci_info thetas wf_struct do_folding
              do_unsafe) as [mid|e] eqn:HB.
  - pose proof (propagate_state_length _ _ _ _ _ _ _ HB) as Hlen.
    rewrite propagate_state_loop in HB. cbn [length Nat.eqb] in HB.
    rewrite !propagate_state_loop. cbn [app length Nat.eqb bind].
    change (a :: A ++ b :: B) with ((a :: A) ++ b :: B).
    rewrite rev_app_distr, foldM_app, HB. cbn [bind].
    apply foldM_ext. intros new_state op. now apply propagate_item_shape.
  - rewrite propagate_state_loop in HB. cbn [length Nat.eqb] in HB.
    rewrite propagate_state_loop. cbn [app length Nat.eqb bind].
    change (a :: A ++ b :: B) with ((a :: A) ++ b :: B).
    now rewrite rev_app_distr, foldM_app, HB.
Qed.

End Shapes.

(** X17. With an [expm_multiply] that keeps the shape of its argument,
    whatever [propagate_state] returns has the length of [state], for every
    list of operators and every kind of wave function structure. *)
Theorem propagate_state_keeps_length (ext : Externals) (ci_info : CI_Info)
    (operators : list operator_item) (state out : state_vector) (thetas : list R)
    (wf_struct : wf_structure) (do_folding do_unsafe : bool) :
  expm_keeps_shape ext ->
  propagate_state ext operators state ci_info thetas wf_struct do_folding do_unsafe
  = Ok out ->
  length out = length state.
Proof. intros Hexpm. now apply propagate_state_length. Qed.

Lemma example_expm_keeps_shape : expm_keeps_shape example_externals.
Proof. intros m v. reflexivity. Qed.

Lemma propagate_state_keeps_length_witness :
  expm_keeps_shape example_externals /\
  propagate_state example_externals [OpStr "U"; OpFermi (G1_model 0 2 true)]
    [1%R; 0%R] example_ci [0%R] (Ups example_ups) false false
  = Ok [0%R; 1%R]
  /\ length [0%R; 1%R] = length [1%R; 0%R].
Proof.
  assert (H : propagate_state example_externals
                [OpStr "U"; OpFermi (G1_model 0 2 true)] [1%R; 0%R] example_ci
                [0%R] (Ups example_ups) false false
              = Ok [0%R; 1%R]).
  { evaluate. decide_threshold. evaluate. decide_threshold. equal_reals. }
  split; [exact example_expm_keeps_shape|]. split; [exact H|].
  exact (propagate_state_keeps_length _ _ _ _ _ _ _ _ _ example_expm_keeps_shape H).
Defined.

(** X18. Applying a list of operators is applying its right part, then its
    left part to the result: [propagate_state (A ++ B) state] is
    [propagate_state A (propagate_state B state)], exceptions included, with
    an [expm_multiply] that keeps the shape of its argument. *)
Theorem propagate_state_composes (ext : Externals) (ci_info : CI_Info)
    (A B : list operator_item) (state : state_vector) (thetas : list R)
    (wf_struct : wf_structure) (do_folding do_unsafe : bool) :
  expm_keeps_shape ext ->
  propagate_state ext (A ++ B) state ci_info thetas wf_struct do_folding do_unsafe
  = (mid <- propagate_state ext B state ci_info thetas wf_struct do_folding
              do_unsafe ;;
     propagate_state ext A mid ci_info thetas wf_struct do_folding do_unsafe).
Proof. intros Hexpm. now apply propagate_state_app. Qed.

Lemma propagate_state_composes_witness :
  expm_keeps_shape example_externals /\
  propagate_state example_externals ([OpStr "Ud"] ++ [OpFermi (G1_model 0 2 true)])
    [1%R; 0%R] example_ci [1%R] (Ups example_ups) false false
  = (mid <- propagate_state example_externals [OpFermi (G1_model 0 2 true)]
              [1%R; 0%R] example_ci [1%R] (Ups example_ups) false false ;;
     propagate_state example_externals [OpStr "Ud"] mid example_ci [1%R]
       (Ups example_ups) false false).
Proof.
  split; [exact example_expm_keeps_shape|].
  exact (propagate_state_composes example_externals example_ci [OpStr "Ud"]
           [OpFermi (G1_model 0 2 true)] [1%R; 0%R] [1%R] (Ups example_ups)
           false false example_expm_keeps_shape).
Defined.

(** X19. The flags [do_folding] and [do_unsafe] do not reach the
    unitaries: on a list of "U" and "Ud" items [propagate_state] returns the
    same, or raises the same, whatever the two flags are. *)
Theorem flags_do_not_reach_unitaries (ext : Externals) (ci_info : CI_Info)
    (labels : list string) (state : state_vector) (thetas : list R)
    (wf_struct : wf_structure) (do_folding do_unsafe do_folding' do_unsafe' : bool) :
  propagate_state ext (map OpStr labels) state ci_info thetas wf_struct
    do_folding do_unsafe
  = propagate_state ext (map OpStr labels) state ci_info thetas wf_struct
      do_folding' do_unsafe'.
Proof.
  rewrite !propagate_state_loop.
  destruct (length (map OpStr labels) =? 0)%nat; [reflexivity|].
  rewrite <- !map_rev, !foldM_map. now apply foldM_ext.
Qed.

(** ** The gradient action and the unitary of one step *)

Lemma propagate_unitary_step (ext : Externals) (psi : state_vector) (idx : Z)
    (ci_info : CI_Info) (thetas : list R) (ups_struct : UpsStructure) :
  propagate_unitary ext psi idx ci_info thetas ups_struct
  = (exc_type <- getitem (ups_excitation_operator_type ups_struct) idx ;;
     exc_indices <- getitem (ups_excitation_indices ups_struct) idx ;;
     theta <- getitem thetas idx ;;
     ups_step ext ci_info false psi exc_type exc_indices theta).
Proof.
  unfold propagate_unitary, ups_step.
  destruct (getitem (ups_excitation_operator_type ups_struct) idx) as [t|e];
    cbn [bind]; [|reflexivity].
  destruct (getitem (ups_excitation_indices ups_struct) idx) as [ix|e];
    cbn [bind]; [|reflexivity].
  destruct (getitem thetas idx) as [th|e]; cbn [bind]; reflexivity.
Qed.

Lemma grad_action_generator (ext : Externals) (state : state_vector) (idx : Z)
    (ci_info : CI_Info) (ups_struct : UpsStructure) (exc_type : string) :
  getitem (ups_excitation_operator_type ups_struct) idx = Ok exc_type ->
  exc_type = "single"%string \/ exc_type = "double"%string ->
  get_grad_action ext state idx ci_info ups_struct
  = (exc_indices <- getitem (ups_excitation_indices ups_struct) idx ;;
     T <- step_generator ext (space_extension_offset ci_info) exc_type exc_indices ;;
     apply_generator ext ci_info T state).
Proof.
  intros Htype Htag. unfold get_grad_action, step_generator, apply_generator.
  rewrite Htype. cbn [bind].
  destruct (getitem (ups_excitation_indices ups_struct) idx) as [exc_indices|e];
    cbn [bind]; [|reflexivity].
  destruct Htag as [-> | ->]; cbn [String.eqb Ascii.eqb Bool.eqb orb andb].
  - destruct (unpack2 _) as [[i a]|e]; cbn [bind]; [|reflexivity].
    apply (propagate_state_operators ext [_]).
  - destruct (unpack4 _) as [[[[i j] a] b]|e]; cbn [bind]; [|reflexivity].
    apply (propagate_state_operators ext [_]).
Qed.

(** X20. For a "single" or a "double" step with a parameter not below the
    threshold, [propagate_unitary] returns
    [state + sin(theta) g1 + (1 - cos(theta)) g2] where [g1] is
    [get_grad_action] of the state and [g2] is [get_grad_action] of [g1];
    the two sides raise the same exceptions. *)
Theorem propagate_unitary_from_grad_action (ext : Externals) (state : state_vector)
    (idx : Z) (ci_info : CI_Info) (thetas : list R) (ups_struct : UpsStructure)
    (exc_type : string) (theta : R) :
  getitem (ups_excitation_operator_type ups_struct) idx = Ok exc_type ->
  exc_type = "single"%string \/ exc_type = "double"%string ->
  getitem thetas idx = Ok theta ->
  below_threshold theta = false ->
  propagate_unitary ext state idx ci_info thetas ups_struct
  = rotation_from_grad_action ext state idx ci_info ups_struct theta.
Proof.
  intros Htype Htag Htheta Hthr. unfold rotation_from_grad_action.
  rewrite propagate_unitary_step, Htype. cbn [bind].
  rewrite !(grad_action_generator ext _ idx ci_info ups_struct exc_type Htype Htag).
  destruct (getitem (ups_excitation_indices ups_struct) idx) as [exc_indices|e] eqn:Hidx;
    cbn [bind]; [|reflexivity].
  rewrite Htheta. cbn [bind].
  rewrite ups_step_analytic;
    [| assumption | destruct Htag as [-> | ->]; reflexivity
     | destruct Htag as [-> | ->]; reflexivity].
  destruct (step_generator _ _ _ _) as [T|e] eqn:HT; cbn [bind]; [|reflexivity].
  unfold loop_rotation, applied_theta.
  destruct (apply_generator ext ci_info T state) as [v1|e]; cbn [bind];
    [|reflexivity].
  rewrite (grad_action_generator ext _ idx ci_info ups_struct exc_type Htype Htag).
  rewrite Hidx. cbn [bind]. rewrite HT. reflexivity.
Qed.

Lemma propagate_unitary_from_grad_action_witness :
  getitem (ups_excitation_operator_type example_ups) 0 = Ok "single"%string /\
  ("single"%string = "single"%string \/ "single"%string = "double"%string) /\
  getitem [1%R] 0 = Ok 1%R /\
  below_threshold 1 = false /\
  propagate_unitary example_externals [1%R; 0%R] 0 example_ci [1%R] example_ups
  = rotation_from_grad_action example_externals [1%R; 0%R] 0 example_ci example_ups 1.
Proof.
  assert (Htype : getitem (ups_excitation_operator_type example_ups) 0
                  = Ok "single"%string) by reflexivity.
  assert (Htheta : getitem [1%R] 0 = Ok 1%R) by reflexivity.
  split; [exact Htype|]. split; [now left|]. split; [exact Htheta|].
  split; [exact below_threshold_1|].
  exact (propagate_unitary_from_grad_action example_externals [1%R; 0%R] 0
           example_ci [1%R] example_ups "single" 1 Htype (or_introl eq_refl)
           Htheta below_threshold_1).
Defined.

(** ** The pass as a sequence of single steps *)

Lemma foldM_by_index {A B : Type} (f : A -> B -> result A) (g : A -> Z -> result A)
    (l : list B) :
  (forall a i x, nth_error l i = Some x -> g a (Z.of_nat i) = f a x) ->
  forall a, foldM f l a = foldM g (range (Z.of_nat (length l))) a.
Proof.
  intros Hg a. unfold range. rewrite Nat2Z.id.
  assert (Hgen : forall rest pre a,
             l = pre ++ rest ->
             foldM f rest a
             = foldM g (map Z.of_nat (seq (length pre) (length rest))) a).
  { induction rest as [|x rest IH]; intros pre a0 Hl; [reflexivity|].
    cbn [length seq map foldM].
    rewrite (Hg a0 (length pre) x).
    2:{ rewrite Hl, nth_error_app2 by lia. now rewrite Nat.sub_diag. }
    destruct (f a0 x) as [a1|e]; cbn [bind]; [|reflexivity].
    rewrite (IH (pre ++ [x])).
    - rewrite length_app. cbn [length]. now rewrite Nat.add_1_r.
    - now rewrite <- app_assoc. }
  apply (Hgen l [] a eq_refl).
Qed.

Lemma nth_error_combine_inv {X Y : Type} (l : list X) (k : list Y) (i : nat)
    (x : X) (y : Y) :
  nth_error (combine l k) i = Some (x, y) ->
  nth_error l i = Some x /\ nth_error k i = Some y.
Proof.
  revert k i. induction l as [|x0 l IH]; intros [|y0 k] [|i]; cbn; try discriminate.
  - now intros [= -> ->].
  - apply IH.
Qed.

Lemma getitem_position {A : Type} (a : list A) (i : nat) (x : A) :
  nth_error a i = Some x -> getitem a (Z.of_nat i) = Ok x.
Proof.
  intros H. unfold getitem, item_at.
  rewrite normalize_index_nat by (apply nth_error_Some; congruence).
  now rewrite H.
Qed.

(** X21. When the structure has as many excitation types and index tuples
    as there are parameters, the forward pass of [construct_ups_state] is
    [propagate_unitary] applied for [idx = 0, 1, ...] in turn, each to the
    result of the one before; exceptions included. *)
Theorem construct_ups_state_by_steps (ext : Externals) (state : state_vector)
    (ci_info : CI_Info) (thetas : list R) (ups_struct : UpsStructure) :
  length (ups_excitation_operator_type ups_struct) = length thetas ->
  length (ups_excitation_indices ups_struct) = length thetas ->
  construct_ups_state ext state ci_info thetas ups_struct false
  = propagate_unitaries ext (length thetas) state ci_info thetas ups_struct.
Proof.
  intros Htypes Hidxs. unfold construct_ups_state, propagate_unitaries, ordered.
  replace (length thetas)
    with (length (combine (combine (ups_excitation_operator_type ups_struct)
                             (ups_excitation_indices ups_struct)) thetas))
    by (rewrite !length_combine; lia).
  apply foldM_by_index. intros tmp i [[exc_type exc_indices] theta] Hnth.
  apply nth_error_combine_inv in Hnth. destruct Hnth as [Hnth Htheta].
  apply nth_error_combine_inv in Hnth. destruct Hnth as [Htype Hindices].
  rewrite propagate_unitary_step.
  rewrite (getitem_position _ _ _ Htype), (getitem_position _ _ _ Hindices),
    (getitem_position _ _ _ Htheta).
  reflexivity.
Qed.

Lemma construct_ups_state_by_steps_witness :
  length (ups_excitation_operator_type example_ups) = length [1%R] /\
  length (ups_excitation_indices example_ups) = length [1%R] /\
  construct_ups_state example_externals [1%R; 0%R] example_ci [1%R] example_ups false
  = propagate_unitaries example_externals (length [1%R]) [1%R; 0%R] example_ci [1%R]
      example_ups.
Proof.
  split; [reflexivity|]. split; [reflexivity|].
  exact (construct_ups_state_by_steps example_externals [1%R; 0%R] example_ci [1%R]
           example_ups eq_refl eq_refl).
Defined.

(** ** The number of electrons *)

Lemma popcount_bit (y : Z) (b : bool) :
  0 <= y -> popcount (2 * y + Z.b2z b) = popcount y + Z.b2z b.
Proof.
  intros Hy. destruct y as [|p|p], b; try lia; try reflexivity.
  - change (popcount (Zpos p~1) = popcount (Zpos p) + 1). cbn [popcount ones]. lia.
  - change (popcount (Zpos p~0) = popcount (Zpos p) + 0). cbn [popcount ones]. lia.
Qed.

Lemma lxor_bit_low (y : Z) (b : bool) :
  Z.lxor (2 * y + Z.b2z b) 1 = 2 * y + Z.b2z (negb b).
Proof.
  apply Z.bits_inj'. intros n Hn. rewrite Z.lxor_spec.
  change 1 with (2 * 0 + Z.b2z true).
  destruct (Z.eq_dec n 0) as [->|Hn0].
  - rewrite !Z.testbit_0_r. now destruct b.
  - replace n with (Z.succ (n - 1)) by lia.
    rewrite !Z.testbit_succ_r by lia.
    now rewrite Z.testbit_0_l, xorb_false_r.
Qed.

Lemma lxor_bit_high (y : Z) (b : bool) (s : Z) :
  0 <= s ->
  Z.lxor (2 * y + Z.b2z b) (2 ^ Z.succ s) = 2 * Z.lxor y (2 ^ s) + Z.b2z b.
Proof.
  intros Hs. apply Z.bits_inj'. intros n Hn. rewrite Z.lxor_spec.
  destruct (Z.eq_dec n 0) as [->|Hn0].
  - rewrite !Z.testbit_0_r, Z.pow2_bits_false by lia. apply xorb_false_r.
  - replace n with (Z.succ (n - 1)) by lia.
    rewrite !Z.testbit_succ_r, Z.lxor_spec by lia.
    rewrite !Z.pow2_bits_eqb by lia. f_equal.
    destruct (Z.eqb_spec (Z.succ s) (Z.succ (n - 1))), (Z.eqb_spec s (n - 1));
      try reflexivity; lia.
Qed.

(** Flipping a bit adds an electron or removes one. *)
Lemma popcount_flip (s : Z) :
  0 <= s ->
  forall x, 0 <= x ->
    popcount (Z.lxor x (2 ^ s)) = popcount x + (if Z.testbit x s then -1 else 1).
Proof.
  intros Hs. pattern s. apply natlike_ind; [| |assumption]; clear s Hs.
  - intros x Hx. rewrite (Z.div2_odd x) at 1 2 3.
    assert (0 <= Z.div2 x) by (apply Z.div2_nonneg; lia).
    change (2 ^ 0) with 1. rewrite lxor_bit_low, Z.testbit_0_r.
    rewrite !popcount_bit by assumption. destruct (Z.odd x); cbn; lia.
  - intros s Hs IH x Hx. rewrite (Z.div2_odd x) at 1 2 3.
    assert (0 <= Z.div2 x) by (apply Z.div2_nonneg; lia).
    rewrite lxor_bit_high, Z.testbit_succ_r by assumption.
    rewrite !popcount_bit by (try apply Z.lxor_nonneg; try assumption;
                              split; intros; try assumption;
                              apply Z.pow_nonneg; lia).
    rewrite IH by assumption. lia.
Qed.

Lemma operator_loop_count (num_active_orbs : Z) (b : bool) (idxs : list Z)
    (parity_check : list Z) :
  forall det phase_changes det' phase_changes',
    0 <= det ->
    operator_loop (Z.b2z b) idxs num_active_orbs parity_check det phase_changes
    = Ok (Some (det', phase_changes')) ->
    0 <= det'
    /\ popcount det'
       = popcount det + (if b then 1 else -1) * Z.of_nat (length idxs).
Proof.
  induction idxs as [|k idxs IH]; intros det phase_changes det' phase_changes' Hdet H.
  - cbn [operator_loop] in H. injection H as -> _. cbn [length]. lia.
  - destruct (Z.ltb_spec (orbital_bit num_active_orbs k) 0) as [Hneg|Hs].
    { now rewrite operator_loop_negative_shift in H. }
    rewrite operator_loop_round in H by assumption.
    destruct (Bool.eqb (Z.testbit det (orbital_bit num_active_orbs k)) b) eqn:Hbit;
      [discriminate|].
    destruct (getitem parity_check k) as [parity|e]; [|discriminate].
    cbn [bind] in H. rewrite Z.shiftl_1_l in H.
    assert (Hnn : 0 <= Z.lxor det (2 ^ orbital_bit num_active_orbs k)).
    { apply Z.lxor_nonneg. split; intros; [apply Z.pow_nonneg; lia | assumption]. }
    apply IH in H; [|assumption]. destruct H as [Hdet' Hcount].
    split; [assumption|]. rewrite Hcount, popcount_flip by assumption.
    cbn [length]. rewrite Nat2Z.inj_succ.
    destruct (Z.testbit det (orbital_bit num_active_orbs k)), b;
      cbn in Hbit; try discriminate; lia.
Qed.

(** X22. An accepted string changes the number of electrons by the number
    of its creations less the number of its annihilations: when
    [apply_string] returns a determinant for a determinant [det >= 0], the
    new determinant is not negative and has that many more ones. *)
Theorem string_changes_electron_number (anni_idxs create_idxs : list Z)
    (num_active_orbs : Z) (parity_check : list Z) (det det' phase_changes : Z) :
  0 <= det ->
  apply_string anni_idxs create_idxs num_active_orbs parity_check det
  = Ok (Some (det', phase_changes)) ->
  0 <= det'
  /\ popcount det'
     = popcount det - Z.of_nat (length anni_idxs) + Z.of_nat (length create_idxs).
Proof.
  unfold apply_string. intros Hdet H.
  destruct (operator_loop 0 anni_idxs num_active_orbs parity_check det 0)
    as [[[det1 phase1]|]|e] eqn:Ha; cbn [bind] in H; try discriminate.
  apply (operator_loop_count num_active_orbs false) in Ha; [|assumption].
  destruct Ha as [Hdet1 Hcount1].
  apply (operator_loop_count num_active_orbs true) in H; [|assumption].
  destruct H as [Hdet' Hcount']. split; [assumption|]. lia.
Qed.

Lemma string_changes_electron_number_witness :
  0 <= 8 /\
  apply_string [0] [2] 2 (build_parity_check 2) 8 = Ok (Some (2, 0)) /\
  popcount 2 = popcount 8 - Z.of_nat (length [0]) + Z.of_nat (length [2]).
Proof.
  assert (Hdet : 0 <= 8) by lia.
  assert (H : apply_string [0] [2] 2 (build_parity_check 2) 8 = Ok (Some (2, 0)))
    by reflexivity.
  split; [exact Hdet|]. split; [exact H|].
  exact (proj2 (string_changes_electron_number [0] [2] 2 (build_parity_check 2)
                  8 2 0 Hdet H)).
Defined.

(** ** The state-averaged loop on one state *)

Lemma foldM_embedded {A A' B : Type} (P : A -> Prop) (h : A -> A')
    (f : A -> B -> result A) (g : A' -> B -> result A') (l : list B) :
  (forall a x a', P a -> f a x = Ok a' -> P a') ->
  (forall a x, In x l -> P a -> g (h a) x = (a' <- f a x ;; Ok (h a'))) ->
  forall a, P a -> foldM g l (h a) = (a' <- foldM f l a ;; Ok (h a')).
Proof.
  intros HP. induction l as [|x l IH]; intros Hstep a Ha; cbn [foldM bind];
    [reflexivity|].
  rewrite (Hstep a x (or_introl eq_refl) Ha).
  destruct (f a x) as [a1|e] eqn:Hx; cbn [bind]; [|reflexivity].
  apply IH.
  - intros a0 y Hy. apply Hstep. now right.
  - apply (HP a x a1 Ha Hx).
Qed.

Lemma above_below_threshold (x : R) :
  Rabs x <> threshold -> negb (above_threshold x) = below_threshold x.
Proof.
  intros Hx. unfold above_threshold, below_threshold.
  destruct (Rlt_dec threshold (Rabs x)), (Rlt_dec (Rabs x) threshold);
    cbn [negb]; try reflexivity; lra.
Qed.

Lemma apply_operator_SA_body_single_row (state tmp_state : state_vector)
    (anni_idxs create_idxs : list Z) (num_active_orbs : Z) (parity_check : list Z)
    (det2idx : gmap Z Z) (do_unsafe : bool) (factor : R) (i : nat) (det : Z) :
  off_threshold state ->
  apply_operator_SA_body (single_row (length state) state) anni_idxs create_idxs
    num_active_orbs parity_check det2idx do_unsafe factor
    (single_row (length tmp_state) tmp_state) i det
  = (tmp_state' <- apply_operator_body state anni_idxs create_idxs num_active_orbs
                     parity_check det2idx do_unsafe factor tmp_state i det ;;
     Ok (single_row (length tmp_state) tmp_state')).
Proof.
  intros Hoff. unfold apply_operator_SA_body, apply_operator_body, column_at.
  cbn [single_row ncols rows mapM]. unfold item_at.
  destruct (nth_error state i) as [amplitude|] eqn:E.
  2:{ apply nth_error_None in E.
      destruct (Nat.ltb_spec i (length state)); [lia | reflexivity]. }
  assert (i < length state)%nat by (apply nth_error_Some; congruence).
  destruct (Nat.ltb_spec i (length state)); [|lia]. cbn [bind existsb].
  rewrite orb_false_r, above_below_threshold.
  2:{ unfold off_threshold in Hoff. rewrite List.Forall_forall in Hoff.
      apply Hoff. now apply nth_error_In in E. }
  destruct (below_threshold amplitude); [reflexivity|].
  destruct (apply_string _ _ _ _ det) as [[[det' phase]|]|e]; cbn [bind];
    try reflexivity.
  destruct (do_unsafe && negb (dict_contains det2idx det')); [reflexivity|].
  destruct (dict_getitem det2idx det') as [idx|e]; cbn [bind]; [|reflexivity].
  unfold addcolumn, additem, broadcast, single_row.
  cbn [ncols rows length map Nat.eqb].
  destruct (normalize_index (length tmp_state) idx) as [n|]; reflexivity.
Qed.

(** X23. On a single state whose amplitudes are none [10 ** -14] in
    absolute value exactly, [apply_operator_SA] does to the one-row arrays
    what [apply_operator] does to the vectors: the same result, the same
    exceptions. (At that value exactly the first skips the determinant and
    the second does not.) *)
Theorem apply_operator_SA_single_row (state tmp_state : state_vector)
    (anni_idxs create_idxs : list Z) (num_active_orbs : Z)
    (parity_check idx2det : list Z) (det2idx : gmap Z Z) (do_unsafe : bool)
    (factor : R) :
  off_threshold state ->
  apply_operator_SA (single_row (length state) state) anni_idxs create_idxs
    num_active_orbs parity_check idx2det det2idx do_unsafe
    (single_row (length tmp_state) tmp_state) factor
  = (tmp_state' <- apply_operator state anni_idxs create_idxs num_active_orbs
                     parity_check idx2det det2idx do_unsafe tmp_state factor ;;
     Ok (single_row (length tmp_state) tmp_state')).
Proof.
  intros Hoff. unfold apply_operator_SA, apply_operator.
  apply (foldM_embedded (fun v => length v = length tmp_state)
           (single_row (length tmp_state))); [| |reflexivity].
  - intros v [i det] v' Hv Hstep.
    revert Hstep. unfold apply_operator_body, item_at.
    destruct (nth_error state i) as [amplitude|]; cbn [bind]; [|discriminate].
    destruct (below_threshold amplitude); [now intros [= <-]|].
    destruct (apply_string _ _ _ _ det) as [[[det' phase]|]|e]; cbn [bind];
      [| now intros [= <-] | discriminate].
    destruct (do_unsafe && negb (dict_contains det2idx det')); [now intros [= <-]|].
    destruct (dict_getitem det2idx det') as [idx|e]; cbn [bind]; [|discriminate].
    intros Hadd. apply additem_length in Hadd. congruence.
  - intros v [i det] _ Hv. rewrite <- Hv.
    now apply apply_operator_SA_body_single_row.
Qed.

Lemma apply_operator_SA_single_row_witness :
  off_threshold [1%R; 0%R] /\
  apply_operator_SA (single_row (length [1%R; 0%R]) [1%R; 0%R]) [0] [2] 2
    (build_parity_check 2) (idx2det example_ci) (det2idx example_ci) false
    (single_row (length [0%R; 0%R]) [0%R; 0%R]) 1
  = (tmp_state' <- apply_operator [1%R; 0%R] [0] [2] 2 (build_parity_check 2)
                     (idx2det example_ci) (det2idx example_ci) false [0%R; 0%R] 1 ;;
     Ok (single_row (length [0%R; 0%R]) tmp_state')).
Proof.
  assert (Hoff : off_threshold [1%R; 0%R]).
  { repeat constructor; unfold threshold, Rabs; destruct (Rcase_abs _); lra. }
  split; [exact Hoff|].
  exact (apply_operator_SA_single_row [1%R; 0%R] [0%R; 0%R] [0] [2] 2
           (build_parity_check 2) (idx2det example_ci) (det2idx example_ci) false 1
           Hoff).
Defined.

(** ** Exchanging two neighbours in a string *)

Lemma land_lxor_distr (a m p : Z) :
  Z.land (Z.lxor a m) p = Z.lxor (Z.land a p) (Z.land m p).
Proof.
  apply Z.bits_inj'. intros j Hj.
  rewrite Z.lxor_spec, !Z.land_spec, Z.lxor_spec.
  now destruct (Z.testbit a j), (Z.testbit m j), (Z.testbit p j).
Qed.

Lemma sign_succ (q : Z) : 0 <= q -> sign (q + 1) = (- sign q)%R.
Proof.
  intros Hq. unfold sign. rewrite Z2Nat.inj_add by lia.
  change (Z.to_nat 1) with 1%nat. rewrite Nat.add_1_r. cbn [pow]. lra.
Qed.

Section Exchange.

Variable num_active_orbs : Z.

Local Abbreviation bit := (orbital_bit num_active_orbs).
Local Abbreviation mask := (parity_mask num_active_orbs).
Local Abbreviation table := (build_parity_check num_active_orbs).
Local Abbreviation active k := (0 <= k < 2 * num_active_orbs).

Lemma mask_nonneg (k : Z) : active k -> 0 <= mask k.
Proof.
  intros Hk. unfold parity_mask.
  assert (2 ^ (2 * num_active_orbs - k) <= 2 ^ (2 * num_active_orbs))
    by (apply Z.pow_le_mono_r; lia).
  lia.
Qed.

Lemma testbit_mask (k j : Z) :
  active k -> active j -> Z.testbit (mask k) (bit j) = (j <? k).
Proof.
  intros Hk Hj. unfold parity_mask, orbital_bit.
  rewrite testbit_pow2_difference by lia.
  destruct (Z.leb_spec (2 * num_active_orbs - k) (2 * num_active_orbs - 1 - j)),
    (Z.ltb_spec (2 * num_active_orbs - 1 - j) (2 * num_active_orbs)),
    (Z.ltb_spec j k); cbn [andb]; try reflexivity; lia.
Qed.

Lemma land_bit_mask (k j : Z) :
  active k -> active j ->
  Z.land (2 ^ bit j) (mask k) = if j <? k then 2 ^ bit j else 0.
Proof.
  intros Hk Hj. apply Z.bits_inj'. intros m Hm. rewrite Z.land_spec.
  assert (Hs : 0 <= bit j) by (unfold orbital_bit; lia).
  rewrite Z.pow2_bits_eqb by assumption.
  destruct (Z.eqb_spec (bit j) m) as [<-|Hne].
  - rewrite testbit_mask by assumption.
    destruct (j <? k); [now rewrite Z.pow2_bits_true | now rewrite Z.testbit_0_l].
  - cbn [andb]. destruct (j <? k); [now rewrite Z.pow2_bits_false | now rewrite Z.testbit_0_l].
Qed.

(** The occupied orbitals below [k] after the bit of orbital [j] is
    flipped. *)
Lemma popcount_masked_flip (det k j : Z) :
  active k -> active j ->
  popcount (Z.land (Z.lxor det (2 ^ bit j)) (mask k))
  = popcount (Z.land det (mask k))
    + (if j <? k then if Z.testbit det (bit j) then -1 else 1 else 0).
Proof.
  intros Hk Hj. rewrite land_lxor_distr, land_bit_mask by assumption.
  assert (Hs : 0 <= bit j) by (unfold orbital_bit; lia).
  destruct (Z.ltb_spec j k) as [Hlt|Hge].
  - rewrite popcount_flip.
    + rewrite Z.land_spec, testbit_mask by assumption.
      destruct (Z.ltb_spec j k); [|lia]. now rewrite andb_true_r.
    + assumption.
    + apply Z.land_nonneg. right. now apply mask_nonneg.
  - rewrite Z.lxor_0_r. lia.
Qed.

(** One round on an orbital of the active space, with the table. *)
Lemma operator_loop_active_round (b : bool) (k : Z) (idxs : list Z)
    (det phase_changes : Z) :
  active k ->
  operator_loop (Z.b2z b) (k :: idxs) num_active_orbs table det phase_changes
  = if Bool.eqb (Z.testbit det (bit k)) b then Ok None
    else
      operator_loop (Z.b2z b) idxs num_active_orbs table
        (Z.lxor det (2 ^ bit k))
        (phase_changes + popcount (Z.land det (mask k))).
Proof.
  intros Hk. rewrite operator_loop_round by (unfold orbital_bit; lia).
  destruct (Bool.eqb _ b); [reflexivity|].
  rewrite getitem_build_parity_check by lia. cbn [bind].
  rewrite Z.shiftl_1_l, bitcount_ones. fold (mask k).
  rewrite popcount_masked_flip by assumption.
  destruct (Z.ltb_spec k k); [lia|]. now rewrite Z.add_0_r.
Qed.

Lemma operator_loop_app (kill_bit : Z) (l1 l2 : list Z) (parity_check : list Z) :
  forall det phase_changes,
    operator_loop kill_bit (l1 ++ l2) num_active_orbs parity_check det phase_changes
    = continue_loop kill_bit l2 num_active_orbs parity_check
        (operator_loop kill_bit l1 num_active_orbs parity_check det phase_changes).
Proof.
  unfold continue_loop.
  induction l1 as [|k l1 IH]; intros det phase_changes; [reflexivity|].
  cbn [app operator_loop].
  destruct (rshift det _) as [shifted|e]; cbn [bind]; [|reflexivity].
  destruct (Z.land shifted 1 =? kill_bit); [reflexivity|].
  destruct (lshift 1 _) as [m|e]; cbn [bind]; [|reflexivity].
  destruct (getitem parity_check k) as [parity|e]; cbn [bind]; [|reflexivity].
  apply IH.
Qed.

Lemma operator_loop_shift (kill_bit : Z) (idxs : list Z) (parity_check : list Z)
    (c : Z) :
  forall det phase_changes,
    operator_loop kill_bit idxs num_active_orbs parity_check det (phase_changes + c)
    = shift_phase c
        (operator_loop kill_bit idxs num_active_orbs parity_check det phase_changes).
Proof.
  induction idxs as [|k idxs IH]; intros det phase_changes; [reflexivity|].
  cbn [operator_loop].
  destruct (rshift det _) as [shifted|e]; cbn [bind]; [|reflexivity].
  destruct (Z.land shifted 1 =? kill_bit); [reflexivity|].
  destruct (lshift 1 _) as [m|e]; cbn [bind]; [|reflexivity].
  destruct (getitem parity_check k) as [parity|e]; cbn [bind]; [|reflexivity].
  rewrite <- IH. f_equal. lia.
Qed.

Lemma operator_loop_phase (kill_bit : Z) (idxs : list Z) (parity_check : list Z) :
  forall det phase_changes det' phase_changes',
    operator_loop kill_bit idxs num_active_orbs parity_check det phase_changes
    = Ok (Some (det', phase_changes')) ->
    phase_changes <= phase_changes'.
Proof.
  induction idxs as [|k idxs IH]; intros det phase_changes det' phase_changes' H;
    cbn [operator_loop] in H.
  - injection H as _ <-. lia.
  - destruct (rshift det _) as [shifted|e]; cbn [bind] in H; [|discriminate].
    destruct (Z.land shifted 1 =? kill_bit); [discriminate|].
    destruct (lshift 1 _) as [m|e]; cbn [bind] in H; [|discriminate].
    destruct (getitem parity_check k) as [parity|e]; cbn [bind] in H; [|discriminate].
    apply IH in H. rewrite bitcount_ones in H.
    pose proof (popcount_nonneg (Z.land (Z.lxor det m) parity)). lia.
Qed.

(** Continuing two loops that differ by one in the phase count. *)
Lemma opposite_phase_continue (kill_bit : Z) (idxs : list Z) (parity_check : list Z)
    (r r' : result (option (Z * Z))) :
  opposite_phase r r' ->
  opposite_phase (continue_loop kill_bit idxs num_active_orbs parity_check r)
    (continue_loop kill_bit idxs num_active_orbs parity_check r').
Proof.
  unfold continue_loop.
  destruct r as [[[det q]|]|e], r' as [[[det' q']|]|e']; cbn [opposite_phase bind];
    try contradiction; try trivial.
  intros (<- & Hq & Hq' & Hdiff).
  assert (Hgen : forall q0, 0 <= q0 ->
            opposite_phase
              (operator_loop kill_bit idxs num_active_orbs parity_check det q0)
              (operator_loop kill_bit idxs num_active_orbs parity_check det (q0 + 1))).
  { intros q0 Hq0. rewrite operator_loop_shift.
    destruct (operator_loop kill_bit idxs num_active_orbs parity_check det q0)
      as [[[d q1]|]|e] eqn:Hloop; cbn [shift_phase opposite_phase]; try trivial.
    apply operator_loop_phase in Hloop. repeat split; try lia. }
  destruct Hdiff as [-> | ->].
  - now apply Hgen.
  - specialize (Hgen q' Hq'). revert Hgen.
    destruct (operator_loop _ idxs _ _ det q') as [[[d1 q1]|]|e1],
      (operator_loop _ idxs _ _ det (q' + 1)) as [[[d2 q2]|]|e2];
      cbn [opposite_phase]; try contradiction; try trivial.
    + intros (<- & H1 & H2 & H3). repeat split; try lia.
    + now intros <-.
Qed.

Lemma opposite_phase_same_loop (kill_bit : Z) (idxs : list Z) (parity_check : list Z)
    (det phase_changes : Z) :
  0 <= phase_changes ->
  match operator_loop kill_bit idxs num_active_orbs parity_check det phase_changes with
  | Ok (Some (_, phase_changes')) => 0 <= phase_changes'
  | _ => True
  end.
Proof.
  intros Hp.
  destruct (operator_loop _ idxs _ _ det phase_changes) as [[[d q]|]|e] eqn:H;
    try trivial.
  apply operator_loop_phase in H. lia.
Qed.

(** The two orders of two rounds. *)
Lemma operator_loop_exchange (b : bool) (k1 k2 : Z) (det phase_changes : Z) :
  active k1 -> active k2 -> 0 <= phase_changes ->
  opposite_phase
    (operator_loop (Z.b2z b) [k1; k2] num_active_orbs table det phase_changes)
    (operator_loop (Z.b2z b) [k2; k1] num_active_orbs table det phase_changes).
Proof.
  intros H1 H2 Hp.
  assert (Hs1 : 0 <= bit k1) by (unfold orbital_bit; lia).
  assert (Hs2 : 0 <= bit k2) by (unfold orbital_bit; lia).
  rewrite !operator_loop_active_round by assumption.
  cbn [operator_loop].
  rewrite <- !(Z.shiftl_1_l (bit k1)), <- !(Z.shiftl_1_l (bit k2)).
  rewrite !testbit_flip by assumption.
  rewrite !Z.shiftl_1_l.
  pose proof (popcount_nonneg (Z.land (Z.lxor det (2 ^ bit k1)) (mask k2))) as Hn12.
  pose proof (popcount_nonneg (Z.land (Z.lxor det (2 ^ bit k2)) (mask k1))) as Hn21.
  rewrite popcount_masked_flip in Hn12, Hn21 by assumption.
  rewrite !popcount_masked_flip by assumption.
  pose proof (popcount_nonneg (Z.land det (mask k1))).
  pose proof (popcount_nonneg (Z.land det (mask k2))).
  destruct (Z.eq_dec k1 k2) as [<-|Hne].
  - rewrite Z.eqb_refl.
    destruct (Z.testbit det (bit k1)), b; cbn [Bool.eqb xorb opposite_phase]; trivial.
  - destruct (Z.eqb_spec (bit k1) (bit k2)) as [E|_];
      [unfold orbital_bit in E; lia|].
    destruct (Z.eqb_spec (bit k2) (bit k1)) as [E|_];
      [unfold orbital_bit in E; lia|].
    rewrite !xorb_false_r.
    destruct (Z.testbit det (bit k1)), (Z.testbit det (bit k2)), b;
      cbn [Bool.eqb opposite_phase]; trivial;
      (split; [rewrite !Z.lxor_assoc; f_equal; apply Z.lxor_comm|]);
      destruct (Z.ltb_spec k1 k2), (Z.ltb_spec k2 k1); cbv iota in Hn12, Hn21; lia.
Qed.

(** Exchanging two neighbours anywhere in the list of a loop. *)
Lemma operator_loop_exchange_in (b : bool) (pre post : list Z) (k1 k2 : Z)
    (det phase_changes : Z) :
  active k1 -> active k2 -> 0 <= phase_changes ->
  opposite_phase
    (operator_loop (Z.b2z b) (pre ++ k1 :: k2 :: post) num_active_orbs table det
       phase_changes)
    (operator_loop (Z.b2z b) (pre ++ k2 :: k1 :: post) num_active_orbs table det
       phase_changes).
Proof.
  intros H1 H2 Hp.
  change (k1 :: k2 :: post) with ([k1; k2] ++ post).
  change (k2 :: k1 :: post) with ([k2; k1] ++ post).
  rewrite !operator_loop_app.
  pose proof (opposite_phase_same_loop (Z.b2z b) pre table det phase_changes Hp) as Hpre.
  destruct (operator_loop (Z.b2z b) pre num_active_orbs table det phase_changes)
    as [[[d q]|]|e]; unfold continue_loop; cbn [bind].
  - rewrite !operator_loop_app. apply opposite_phase_continue.
    now apply operator_loop_exchange.
  - exact I.
  - reflexivity.
Qed.

End Exchange.

Section ExchangeInStrings.

Variable num_active_orbs : Z.

Local Abbreviation table := (build_parity_check num_active_orbs).
Local Abbreviation active k := (0 <= k < 2 * num_active_orbs).

Lemma apply_string_exchange_anni (pre post create_idxs : list Z) (k1 k2 det : Z) :
  active k1 -> active k2 ->
  opposite_phase
    (apply_string (pre ++ k1 :: k2 :: post) create_idxs num_active_orbs table det)
    (apply_string (pre ++ k2 :: k1 :: post) create_idxs num_active_orbs table det).
Proof.
  intros H1 H2.
  apply (opposite_phase_continue num_active_orbs 1 create_idxs table).
  apply (operator_loop_exchange_in num_active_orbs false); [assumption..|lia].
Qed.

Lemma apply_string_exchange_create (anni_idxs pre post : list Z) (k1 k2 det : Z) :
  active k1 -> active k2 ->
  opposite_phase
    (apply_string anni_idxs (pre ++ k1 :: k2 :: post) num_active_orbs table det)
    (apply_string anni_idxs (pre ++ k2 :: k1 :: post) num_active_orbs table det).
Proof.
  intros H1 H2. unfold apply_string.
  destruct (operator_loop 0 anni_idxs num_active_orbs table det 0)
    as [[[d q]|]|e] eqn:Ha; cbn [bind].
  - apply operator_loop_phase in Ha.
    now apply (operator_loop_exchange_in num_active_orbs true).
  - exact I.
  - reflexivity.
Qed.

Lemma apply_operator_body_opposite (state tmp_state : state_vector)
    (anni_idxs create_idxs anni_idxs' create_idxs' : list Z) (parity_check : list Z)
    (det2idx : gmap Z Z) (do_unsafe : bool) (factor : R) (i : nat) (det : Z) :
  opposite_phase
    (apply_string anni_idxs create_idxs num_active_orbs parity_check det)
    (apply_string anni_idxs' create_idxs' num_active_orbs parity_check det) ->
  apply_operator_body state anni_idxs create_idxs num_active_orbs parity_check
    det2idx do_unsafe factor tmp_state i det
  = apply_operator_body state anni_idxs' create_idxs' num_active_orbs parity_check
      det2idx do_unsafe (- factor) tmp_state i det.
Proof.
  intros Hopp. unfold apply_operator_body.
  destruct (item_at state i) as [amplitude|e]; cbn [bind]; [|reflexivity].
  destruct (below_threshold amplitude); [reflexivity|].
  destruct (apply_string anni_idxs _ _ _ det) as [[[d q]|]|e],
    (apply_string anni_idxs' _ _ _ det) as [[[d' q']|]|e'];
    cbn [opposite_phase] in Hopp; try contradiction; cbn [bind];
    [| reflexivity | now subst].
  destruct Hopp as (<- & Hq & Hq' & Hdiff).
  destruct (do_unsafe && negb (dict_contains det2idx d)); [reflexivity|].
  destruct (dict_getitem det2idx d) as [idx|e]; cbn [bind]; [|reflexivity].
  replace (- factor * sign q' * amplitude)%R with (factor * sign q * amplitude)%R;
    [reflexivity|].
  destruct Hdiff as [-> | ->]; rewrite sign_succ by assumption; lra.
Qed.

Lemma add_operator_matrix_body_opposite (op_mat : matrix)
    (anni_idxs create_idxs anni_idxs' create_idxs' : list Z) (parity_check : list Z)
    (det2idx : gmap Z Z) (do_unsafe : bool) (factor : R) (i : nat) (det : Z) :
  opposite_phase
    (apply_string anni_idxs create_idxs num_active_orbs parity_check det)
    (apply_string anni_idxs' create_idxs' num_active_orbs parity_check det) ->
  add_operator_matrix_body anni_idxs create_idxs num_active_orbs parity_check
    det2idx do_unsafe factor op_mat i det
  = add_operator_matrix_body anni_idxs' create_idxs' num_active_orbs parity_check
      det2idx do_unsafe (- factor) op_mat i det.
Proof.
  intros Hopp. unfold add_operator_matrix_body.
  destruct (apply_string anni_idxs _ _ _ det) as [[[d q]|]|e],
    (apply_string anni_idxs' _ _ _ det) as [[[d' q']|]|e'];
    cbn [opposite_phase] in Hopp; try contradiction; cbn [bind];
    [| reflexivity | now subst].
  destruct Hopp as (<- & Hq & Hq' & Hdiff).
  destruct (do_unsafe && negb (dict_contains det2idx d)); [reflexivity|].
  destruct (dict_getitem det2idx d) as [idx|e]; cbn [bind]; [|reflexivity].
  replace (- factor * sign q')%R with (factor * sign q)%R; [reflexivity|].
  destruct Hdiff as [-> | ->]; rewrite sign_succ by assumption; lra.
Qed.

Lemma rev_exchange (pre post : list Z) (k1 k2 : Z) :
  rev (pre ++ k1 :: k2 :: post) = rev post ++ k2 :: k1 :: rev pre.
Proof.
  rewrite rev_app_distr. cbn [rev]. now rewrite <- !app_assoc.
Qed.

End ExchangeInStrings.

(** X24. Exchanging two neighbouring annihilation indices of a string, or
    two neighbouring creation indices, is the same as negating its factor:
    for two spin orbitals of the active space, equal or not, and whatever
    the rest of the string is, [apply_operator] returns the same state, or
    raises the same exception, and so does [add_operator_matrix]. *)
Theorem neighbour_exchange_negates (state tmp_state : state_vector) (op_mat : matrix)
    (pre post other : list Z) (k1 k2 : Z) (num_active_orbs : Z) (idx2det : list Z)
    (det2idx : gmap Z Z) (do_unsafe : bool) (factor : R) :
  0 <= k1 < 2 * num_active_orbs ->
  0 <= k2 < 2 * num_active_orbs ->
  (apply_operator state (pre ++ k1 :: k2 :: post) other num_active_orbs
     (build_parity_check num_active_orbs) idx2det det2idx do_unsafe tmp_state factor
   = apply_operator state (pre ++ k2 :: k1 :: post) other num_active_orbs
       (build_parity_check num_active_orbs) idx2det det2idx do_unsafe tmp_state
       (- factor)
   /\ apply_operator state other (pre ++ k1 :: k2 :: post) num_active_orbs
        (build_parity_check num_active_orbs) idx2det det2idx do_unsafe tmp_state
        factor
      = apply_operator state other (pre ++ k2 :: k1 :: post) num_active_orbs
          (build_parity_check num_active_orbs) idx2det det2idx do_unsafe tmp_state
          (- factor))
  /\ (add_operator_matrix op_mat (pre ++ k1 :: k2 :: post) other num_active_orbs
        (build_parity_check num_active_orbs) idx2det det2idx do_unsafe factor
      = add_operator_matrix op_mat (pre ++ k2 :: k1 :: post) other num_active_orbs
          (build_parity_check num_active_orbs) idx2det det2idx do_unsafe (- factor)
      /\ add_operator_matrix op_mat other (pre ++ k1 :: k2 :: post) num_active_orbs
           (build_parity_check num_active_orbs) idx2det det2idx do_unsafe factor
         = add_operator_matrix op_mat other (pre ++ k2 :: k1 :: post)
             num_active_orbs (build_parity_check num_active_orbs) idx2det det2idx
             do_unsafe (- factor)).
Proof.
  intros H1 H2. unfold apply_operator, add_operator_matrix.
  rewrite !rev_exchange.
  repeat split; apply foldM_ext; intros acc [i det].
  - apply apply_operator_body_opposite. now apply apply_string_exchange_anni.
  - apply apply_operator_body_opposite. now apply apply_string_exchange_create.
  - apply add_operator_matrix_body_opposite. now apply apply_string_exchange_anni.
  - apply add_operator_matrix_body_opposite. now apply apply_string_exchange_create.
Qed.

Lemma neighbour_exchange_negates_witness :
  0 <= 0 < 2 * 2 /\ 0 <= 1 < 2 * 2 /\
  apply_operator [1%R; 0%R] ([] ++ 0 :: 1 :: []) [2; 3] 2 (build_parity_check 2)
    (idx2det example_ci) (det2idx example_ci) true [0%R; 0%R] 1
  = apply_operator [1%R; 0%R] ([] ++ 1 :: 0 :: []) [2; 3] 2 (build_parity_check 2)
      (idx2det example_ci) (det2idx example_ci) true [0%R; 0%R] (- (1)).
Proof.
  assert (H1 : 0 <= 0 < 2 * 2) by lia.
  assert (H2 : 0 <= 1 < 2 * 2) by lia.
  split; [exact H1|]. split; [exact H2|].
  exact (proj1 (proj1 (neighbour_exchange_negates [1%R; 0%R] [0%R; 0%R] [] [] []
                         [2; 3] 0 1 2 (idx2det example_ci) (det2idx example_ci) true
                         1%R H1 H2))).
Defined.

(** ** The conjugate string *)

Section Conjugate.

Variable num_active_orbs : Z.

Local Abbreviation table := (build_parity_check num_active_orbs).

(** A loop run backwards with the opposite test undoes the loop, and counts
    the same phase changes. *)
Lemma operator_loop_reversed (b : bool) (idxs : list Z) :
  in_active_space num_active_orbs idxs ->
  forall det det' phase_changes,
    operator_loop (Z.b2z b) idxs num_active_orbs table det 0
    = Ok (Some (det', phase_changes)) ->
    operator_loop (Z.b2z (negb b)) (rev idxs) num_active_orbs table det' 0
    = Ok (Some (det, phase_changes)).
Proof.
  induction 1 as [|k idxs Hk _ IH]; intros det det' phase_changes H.
  - cbn [operator_loop] in H. injection H as -> <-. reflexivity.
  - rewrite operator_loop_active_round in H by assumption.
    destruct (Bool.eqb (Z.testbit det (orbital_bit num_active_orbs k)) b) eqn:Hbit;
      [discriminate|].
    rewrite operator_loop_shift in H.
    destruct (operator_loop (Z.b2z b) idxs num_active_orbs table _ 0)
      as [[[d q]|]|e] eqn:Hrest; cbn [shift_phase] in H; try discriminate.
    injection H as <- <-. apply IH in Hrest.
    cbn [rev]. rewrite operator_loop_app, Hrest. unfold continue_loop. cbn [bind].
    assert (Hs : 0 <= orbital_bit num_active_orbs k) by (unfold orbital_bit; lia).
    rewrite operator_loop_active_round by assumption.
    rewrite <- (Z.shiftl_1_l (orbital_bit num_active_orbs k)) at 1.
    rewrite testbit_flip, Z.eqb_refl by assumption.
    replace (Bool.eqb (xorb (Z.testbit det (orbital_bit num_active_orbs k)) true)
               (negb b)) with false
      by (destruct (Z.testbit det _), b; cbn in *; congruence).
    cbn [operator_loop]. rewrite Z.lxor_assoc, Z.lxor_nilpotent, Z.lxor_0_r.
    rewrite popcount_masked_flip by assumption.
    destruct (Z.ltb_spec k k); [lia|]. do 3 f_equal. lia.
Qed.

End Conjugate.

Lemma apply_string_conjugate (anni_idxs create_idxs : list Z)
    (num_active_orbs det det' phase_changes : Z) :
  in_active_space num_active_orbs anni_idxs ->
  in_active_space num_active_orbs create_idxs ->
  apply_string anni_idxs create_idxs num_active_orbs
    (build_parity_check num_active_orbs) det
  = Ok (Some (det', phase_changes)) ->
  apply_string (rev create_idxs) (rev anni_idxs) num_active_orbs
    (build_parity_check num_active_orbs) det'
  = Ok (Some (det, phase_changes)).
Proof.
  intros Ha Hc. unfold apply_string.
  destruct (operator_loop 0 anni_idxs _ _ det 0) as [[[d1 q1]|]|e] eqn:H1;
    cbn [bind]; try discriminate.
  replace q1 with (0 + q1) at 1 by lia. rewrite operator_loop_shift.
  destruct (operator_loop 1 create_idxs _ _ d1 0) as [[[d2 q2]|]|e] eqn:H2;
    cbn [shift_phase]; try discriminate.
  intros [= <- <-].
  apply (operator_loop_reversed num_active_orbs false _ Ha) in H1.
  apply (operator_loop_reversed num_active_orbs true _ Hc) in H2.
  cbn [negb Z.b2z] in H1, H2. rewrite H2. cbn [bind].
  replace q2 with (0 + q2) at 1 by lia.
  rewrite operator_loop_shift, H1. cbn [shift_phase]. do 3 f_equal. lia.
Qed.

(** X25. The conjugate string undoes a string: when [apply_string] takes
    [det] to [det'] with a phase count, then with the creation indices,
    reversed, as annihilation indices and the annihilation indices,
    reversed, as creation indices it takes [det'] back to [det] with the same
    phase count; spin orbitals of the active space. *)
Theorem conjugate_string_inverts (anni_idxs create_idxs : list Z)
    (num_active_orbs det det' phase_changes : Z) :
  in_active_space num_active_orbs anni_idxs ->
  in_active_space num_active_orbs create_idxs ->
  apply_string anni_idxs create_idxs num_active_orbs
    (build_parity_check num_active_orbs) det
  = Ok (Some (det', phase_changes)) ->
  apply_string (rev create_idxs) (rev anni_idxs) num_active_orbs
    (build_parity_check num_active_orbs) det'
  = Ok (Some (det, phase_changes)).
Proof. apply apply_string_conjugate. Qed.

Lemma conjugate_string_inverts_witness :
  in_active_space 2 [0] /\ in_active_space 2 [2] /\
  apply_string [0] [2] 2 (build_parity_check 2) 8 = Ok (Some (2, 0)) /\
  apply_string (rev [2]) (rev [0]) 2 (build_parity_check 2) 2 = Ok (Some (8, 0)).
Proof.
  assert (Ha : in_active_space 2 [0]) by (repeat constructor; lia).
  assert (Hc : in_active_space 2 [2]) by (repeat constructor; lia).
  assert (H : apply_string [0] [2] 2 (build_parity_check 2) 8 = Ok (Some (2, 0)))
    by reflexivity.
  split; [exact Ha|]. split; [exact Hc|]. split; [exact H|].
  exact (conjugate_string_inverts [0] [2] 2 8 2 0 Ha Hc H).
Defined.

(** ** The matrix elements of a string *)

Section UnitVectors.

Local Open Scope R_scope.

Lemma unit_vector_cons (n c : nat) :
  unit_vector (S n) c
  = match c with
    | O => 1 :: zeros n
    | S c' => 0 :: unit_vector n c'
    end.
Proof. now destruct c. Qed.

Lemma length_unit_vector (n c : nat) : length (unit_vector n c) = n.
Proof. unfold unit_vector. now rewrite length_update_at, length_zeros. Qed.

Lemma dot_cons (x y : R) (row v : list R) :
  dot (x :: row) (y :: v) = dot row v + x * y.
Proof.
  unfold dot. cbn [combine fold_left]. unfold dot_step at 2.
  apply dot_step_shift.
Qed.

Lemma dot_zeros_r (row : list R) (n : nat) : dot row (zeros n) = 0.
Proof.
  revert n. induction row as [|x row IH]; intros [|n]; try reflexivity.
  change (zeros (S n)) with (0 :: zeros n). rewrite dot_cons, IH. lra.
Qed.

Lemma dot_unit_vector (row : list R) (n c : nat) :
  (c < n)%nat -> dot row (unit_vector n c) = nth c row 0.
Proof.
  revert n c. induction row as [|x row IH]; intros n c Hc.
  - unfold dot. now destruct c.
  - destruct n as [|n]; [lia|].
    rewrite unit_vector_cons. destruct c as [|c].
    + rewrite dot_cons, dot_zeros_r. cbn [nth]. lra.
    + rewrite dot_cons, IH by lia. cbn [nth]. lra.
Qed.

Lemma nth_error_unit_vector (n c i : nat) :
  (i < n)%nat ->
  nth_error (unit_vector n c) i = Some (if (i =? c)%nat then 1 else 0).
Proof.
  revert c i. induction n as [|n IH]; intros c i Hi; [lia|].
  rewrite unit_vector_cons. destruct c as [|c], i as [|i]; cbn [nth_error Nat.eqb];
    try reflexivity.
  - unfold zeros. rewrite nth_error_repeat by lia. reflexivity.
  - apply IH. lia.
Qed.

Lemma clear_unit_vector (n c : nat) : clear_amplitudes (unit_vector n c).
Proof.
  revert c. induction n as [|n IH]; intros c.
  - destruct c; constructor.
  - rewrite unit_vector_cons. destruct c as [|c]; constructor.
    + right. apply below_threshold_1.
    + apply List.Forall_forall. intros x Hx. left.
      now apply repeat_spec in Hx.
    + now left.
    + apply IH.
Qed.

Lemma cell_matvec (n : nat) (m : matrix) (r c : nat) :
  (c < n)%nat -> cell m r c = nth r (matvec m (unit_vector n c)) 0.
Proof.
  intros Hc. unfold cell, matvec.
  change 0 with (dot [] (unit_vector n c)) at 2.
  rewrite (map_nth (fun row => dot row (unit_vector n c))).
  now rewrite dot_unit_vector.
Qed.

End UnitVectors.

Lemma in_enumerate_from {A : Type} (l : list A) (start i : nat) (x : A) :
  In (i, x) (enumerate_from start l) ->
  (start <= i)%nat /\ nth_error l (i - start) = Some x.
Proof.
  revert start. induction l as [|y l IH]; intros start; cbn [enumerate_from];
    [intros []|].
  intros [[= <- <-]|Hin].
  - rewrite Nat.sub_diag. split; [lia | reflexivity].
  - apply IH in Hin. destruct Hin as [Hle Hnth]. split; [lia|].
    replace (i - start)%nat with (S (i - S start)) by lia. exact Hnth.
Qed.

(** On the state that is one determinant, the loop of [apply_operator] is
    its round for that determinant. *)
Lemma apply_operator_unit_vector (n c : nat) (det : Z) (anni_idxs create_idxs : list Z)
    (num_active_orbs : Z) (parity_check idx2det : list Z) (det2idx : gmap Z Z)
    (do_unsafe : bool) (tmp_state : state_vector) (factor : R) :
  length idx2det = n ->
  nth_error idx2det c = Some det ->
  apply_operator (unit_vector n c) anni_idxs create_idxs num_active_orbs parity_check
    idx2det det2idx do_unsafe tmp_state factor
  = apply_operator_body (unit_vector n c) (rev anni_idxs) (rev create_idxs)
      num_active_orbs parity_check det2idx do_unsafe factor tmp_state c det.
Proof.
  intros Hn Hc. unfold apply_operator.
  assert (Hskip : forall (a : state_vector) (i : nat) (d : Z),
             nth_error idx2det i = Some d -> i <> c ->
             apply_operator_body (unit_vector n c) (rev anni_idxs) (rev create_idxs)
               num_active_orbs parity_check det2idx do_unsafe factor a i d = Ok a).
  { intros a i d Hi Hne. unfold apply_operator_body, item_at.
    rewrite nth_error_unit_vector
      by (rewrite <- Hn; apply nth_error_Some; congruence).
    destruct (Nat.eqb_spec i c); [contradiction|]. cbn [bind].
    now rewrite below_threshold_0. }
  rewrite (enumerate_split _ _ _ Hc), foldM_app.
  rewrite foldM_unchanged.
  2:{ intros [i d] Hin. apply in_enumerate in Hin.
      rewrite nth_error_firstn in Hin.
      destruct (Nat.ltb_spec i c); [|discriminate].
      apply Hskip; [assumption | lia]. }
  cbn [bind foldM].
  destruct (apply_operator_body _ _ _ _ _ _ _ _ tmp_state c det) as [a|e];
    cbn [bind]; [|reflexivity].
  apply foldM_unchanged. intros [i d] Hin.
  apply in_enumerate_from in Hin. destruct Hin as [Hle Hnth].
  rewrite nth_error_skipn in Hnth.
  apply Hskip; [|lia].
  now replace (S c + (i - S c))%nat with i in Hnth by lia.
Qed.

Lemma cell_zeros (n k r c : nat) : cell (repeat (zeros n) k) r c = 0%R.
Proof.
  unfold cell. destruct (Nat.ltb_spec r k).
  - rewrite nth_repeat_lt by assumption. apply nth_repeat.
  - rewrite (nth_overflow (repeat (zeros n) k)) by (rewrite repeat_length; lia).
    now destruct c.
Qed.

Lemma cell_outside (n : nat) (m : matrix) (r c : nat) :
  square n m -> (n <= r)%nat \/ (n <= c)%nat -> cell m r c = 0%R.
Proof.
  intros [Hlen Hrows] Hout. unfold cell.
  destruct (Nat.ltb_spec r n) as [Hr|Hr].
  - apply nth_overflow. rewrite List.Forall_forall in Hrows.
    rewrite (Hrows (nth r m [])) by (apply nth_In; lia). lia.
  - rewrite (nth_overflow m) by lia. now destruct c.
Qed.

Lemma add_operator_matrix_cell (op_mat op_mat' : matrix)
    (anni_idxs create_idxs : list Z) (num_active_orbs : Z) (idx2det : list Z)
    (det2idx : gmap Z Z) (do_unsafe : bool) (factor : R) (r c : nat) :
  square (length idx2det) op_mat ->
  indexed idx2det det2idx ->
  add_operator_matrix op_mat anni_idxs create_idxs num_active_orbs
    (build_parity_check num_active_orbs) idx2det det2idx do_unsafe factor
  = Ok op_mat' ->
  (r < length idx2det)%nat -> (c < length idx2det)%nat ->
  cell op_mat' r c
  = (cell op_mat r c
     + string_entry (rev anni_idxs) (rev create_idxs) num_active_orbs idx2det factor
         r c)%R.
Proof.
  intros Hsq [Hfwd Hbwd] HM Hr Hc. set (N := length idx2det) in *.
  destruct (nth_error idx2det c) as [det|] eqn:Edet;
    [|apply nth_error_None in Edet; lia].
  destruct (nth_error idx2det r) as [det_r|] eqn:Er;
    [|apply nth_error_None in Er; lia].
  destruct (string_related (unit_vector N c) N (length_unit_vector N c)
              (clear_unit_vector N c) anni_idxs create_idxs num_active_orbs
              (build_parity_check num_active_orbs) idx2det det2idx do_unsafe factor
              op_mat op_mat' (matvec op_mat (unit_vector N c)) eq_refl
              (conj Hsq eq_refl) HM) as (v' & Hv' & HsqM & Hv).
  rewrite (apply_operator_unit_vector N c det) in Hv' by (reflexivity || assumption).
  rewrite !(cell_matvec N) by assumption. rewrite <- Hv. clear Hv.
  unfold string_entry. rewrite Edet, Er.
  revert Hv'. unfold apply_operator_body, item_at.
  rewrite nth_error_unit_vector, Nat.eqb_refl by assumption. cbn [bind].
  rewrite below_threshold_1.
  destruct (apply_string _ _ _ _ det) as [[[det' q]|]|e]; cbn [bind];
    [| intros [= <-]; lra | discriminate].
  destruct (do_unsafe && negb (dict_contains det2idx det')) eqn:Hguard.
  - intros [= <-]. destruct (Z.eqb_spec det' det_r) as [->|_]; [|lra].
    apply Hfwd in Er. unfold dict_contains in Hguard. rewrite Er in Hguard.
    now rewrite andb_false_r in Hguard.
  - unfold dict_getitem. destruct (det2idx !! det') as [idx|] eqn:Hlook; cbn [bind];
      [|discriminate].
    destruct (Hbwd det' idx Hlook) as (j & -> & Hj).
    assert (Hjn : (j < N)%nat) by (apply nth_error_Some; congruence).
    assert (Hlen : length (matvec op_mat (unit_vector N c)) = N)
      by (unfold matvec; rewrite length_map; apply Hsq).
    unfold additem. rewrite normalize_index_nat by lia.
    intros [= <-]. rewrite nth_update_at by lia.
    destruct (Nat.eqb_spec r j) as [->|Hne].
    + replace det_r with det' by congruence. rewrite Z.eqb_refl. lra.
    + destruct (Z.eqb_spec det' det_r) as [->|_]; [|lra].
      apply Hfwd in Er. rewrite Er in Hlook. injection Hlook as Hlook. lia.
Qed.

(** X26. The matrix elements of one string: with [det2idx] the inverse of
    [idx2det], whenever [add_operator_matrix] returns, it has added to the
    cell in row [r] and column [c] the factor times the sign when the string
    takes determinant [c] to determinant [r], and nothing otherwise. *)
Theorem add_operator_matrix_entries (op_mat op_mat' : matrix)
    (anni_idxs create_idxs : list Z) (num_active_orbs : Z) (idx2det : list Z)
    (det2idx : gmap Z Z) (do_unsafe : bool) (factor : R) (r c : nat) :
  square (length idx2det) op_mat ->
  indexed idx2det det2idx ->
  add_operator_matrix op_mat anni_idxs create_idxs num_active_orbs
    (build_parity_check num_active_orbs) idx2det det2idx do_unsafe factor
  = Ok op_mat' ->
  (r < length idx2det)%nat -> (c < length idx2det)%nat ->
  cell op_mat' r c
  = (cell op_mat r c
     + string_entry (rev anni_idxs) (rev create_idxs) num_active_orbs idx2det factor
         r c)%R.
Proof. apply add_operator_matrix_cell. Qed.

Lemma example_ci_is_indexed : indexed (idx2det example_ci) (det2idx example_ci).
Proof.
  split.
  - apply example_ci_indexed.
  - intros det v. cbn [det2idx example_ci].
    destruct (Z.eq_dec det 8) as [->|H8].
    { rewrite lookup_insert. intros [= <-]. now exists 0%nat. }
    rewrite lookup_insert_ne by congruence.
    destruct (Z.eq_dec det 2) as [->|H2].
    { rewrite lookup_insert. intros [= <-]. now exists 1%nat. }
    rewrite lookup_insert_ne by congruence. now rewrite lookup_empty.
Qed.

Lemma add_operator_matrix_entries_witness :
  square (length (idx2det example_ci)) (repeat (zeros 2) 2) /\
  indexed (idx2det example_ci) (det2idx example_ci) /\
  add_operator_matrix (repeat (zeros 2) 2) [0] [2] 2 (build_parity_check 2)
    (idx2det example_ci) (det2idx example_ci) false 1
  = Ok [[0; 0]; [0 + 1 * sign 0; 0]]%R /\
  (1 < length (idx2det example_ci))%nat /\ (0 < length (idx2det example_ci))%nat /\
  cell [[0; 0]; [0 + 1 * sign 0; 0]]%R 1 0
  = (cell (repeat (zeros 2) 2) 1 0
     + string_entry (rev [0%Z]) (rev [2%Z]) 2 (idx2det example_ci) 1 1 0)%R.
Proof.
  assert (Hsq : square (length (idx2det example_ci)) (repeat (zeros 2) 2))
    by apply square_zeros.
  assert (HM : add_operator_matrix (repeat (zeros 2) 2) [0] [2] 2 (build_parity_check 2)
                 (idx2det example_ci) (det2idx example_ci) false 1
               = Ok [[0; 0]; [0 + 1 * sign 0; 0]]%R) by (evaluate; reflexivity).
  assert (H1 : (1 < length (idx2det example_ci))%nat) by (cbn; lia).
  assert (H0 : (0 < length (idx2det example_ci))%nat) by (cbn; lia).
  split; [exact Hsq|]. split; [exact example_ci_is_indexed|]. split; [exact HM|].
  split; [exact H1|]. split; [exact H0|].
  exact (add_operator_matrix_entries _ _ _ _ _ _ _ _ _ 1 0 Hsq example_ci_is_indexed
           HM H1 H0).
Defined.

(** ** The matrix of a string less its conjugate *)

Lemma anni_indices_app (l1 l2 : list (Z * bool)) :
  anni_indices (l1 ++ l2) = anni_indices l1 ++ anni_indices l2.
Proof. unfold anni_indices. now rewrite List.filter_app, map_app. Qed.

Lemma create_indices_app (l1 l2 : list (Z * bool)) :
  create_indices (l1 ++ l2) = create_indices l1 ++ create_indices l2.
Proof. unfold create_indices. now rewrite List.filter_app, map_app. Qed.

Lemma indices_conjugate (fermi_label : list (Z * bool)) :
  anni_indices (conjugate fermi_label) = rev (create_indices fermi_label)
  /\ create_indices (conjugate fermi_label) = rev (anni_indices fermi_label).
Proof.
  unfold conjugate. induction fermi_label as [|[k dagger] l [IHa IHc]];
    [split; reflexivity|].
  cbn [map rev fst snd]. rewrite anni_indices_app, create_indices_app, IHa, IHc.
  unfold anni_indices, create_indices.
  destruct dagger; cbn [List.filter map rev negb fst snd app]; split;
    try reflexivity; now rewrite app_nil_r.
Qed.

Lemma string_entry_conjugate (anni_idxs create_idxs : list Z) (num_active_orbs : Z)
    (idx2det : list Z) (factor : R) (r c : nat) :
  in_active_space num_active_orbs anni_idxs ->
  in_active_space num_active_orbs create_idxs ->
  string_entry anni_idxs create_idxs num_active_orbs idx2det factor r c
  = string_entry (rev create_idxs) (rev anni_idxs) num_active_orbs idx2det factor c r.
Proof.
  intros Ha Hc. unfold string_entry.
  destruct (nth_error idx2det c) as [det|], (nth_error idx2det r) as [det_r|];
    try reflexivity.
  destruct (apply_string anni_idxs create_idxs _ _ det) as [[[d q]|]|e] eqn:Hfwd.
  - destruct (Z.eqb_spec d det_r) as [->|Hne].
    + rewrite (apply_string_conjugate _ _ _ _ _ _ Ha Hc Hfwd).
      now rewrite Z.eqb_refl.
    + destruct (apply_string (rev create_idxs) (rev anni_idxs) _ _ det_r)
        as [[[d' q']|]|e'] eqn:Hbwd; try reflexivity.
      destruct (Z.eqb_spec d' det) as [->|_]; [|reflexivity].
      apply apply_string_conjugate in Hbwd; [|now apply Forall_rev..].
      rewrite !rev_involutive in Hbwd. congruence.
  - destruct (apply_string (rev create_idxs) (rev anni_idxs) _ _ det_r)
      as [[[d' q']|]|e'] eqn:Hbwd; try reflexivity.
    destruct (Z.eqb_spec d' det) as [->|_]; [|reflexivity].
    apply apply_string_conjugate in Hbwd; [|now apply Forall_rev..].
    rewrite !rev_involutive in Hbwd. congruence.
  - destruct (apply_string (rev create_idxs) (rev anni_idxs) _ _ det_r)
      as [[[d' q']|]|e'] eqn:Hbwd; try reflexivity.
    destruct (Z.eqb_spec d' det) as [->|_]; [|reflexivity].
    apply apply_string_conjugate in Hbwd; [|now apply Forall_rev..].
    rewrite !rev_involutive in Hbwd. congruence.
Qed.

Lemma string_entry_opp (anni_idxs create_idxs : list Z) (num_active_orbs : Z)
    (idx2det : list Z) (factor : R) (r c : nat) :
  string_entry anni_idxs create_idxs num_active_orbs idx2det (- factor) r c
  = (- string_entry anni_idxs create_idxs num_active_orbs idx2det factor r c)%R.
Proof.
  unfold string_entry.
  destruct (nth_error idx2det c), (nth_error idx2det r); try lra.
  destruct (apply_string _ _ _ _ _) as [[[d q]|]|e]; try lra.
  destruct (d =? _); lra.
Qed.

(** X27. The matrix of a string with a factor less its conjugate with the
    same factor is antisymmetric: with [det2idx] the inverse of [idx2det]
    and spin orbitals of the active space, whenever [build_operator_matrix]
    returns for that operator, the cell in row [r] and column [c] is the
    opposite of the cell in row [c] and column [r]. *)
Theorem anti_hermitian_pair_antisymmetric (fermi_label : list (Z * bool)) (factor : R)
    (ci_info : CI_Info) (do_unsafe : bool) (op_mat : matrix) :
  in_active_space (num_active_orbs ci_info) (anni_indices fermi_label) ->
  in_active_space (num_active_orbs ci_info) (create_indices fermi_label) ->
  indexed (idx2det ci_info) (det2idx ci_info) ->
  build_operator_matrix (anti_hermitian_pair fermi_label factor) ci_info do_unsafe
  = Ok op_mat ->
  forall r c, cell op_mat r c = (- cell op_mat c r)%R.
Proof.
  intros Ha Hc Hidx. unfold build_operator_matrix, anti_hermitian_pair.
  cbn [operators foldM].
  destruct (add_operator_matrix _ (anni_indices fermi_label) _ _ _ _ _ _ factor)
    as [m1|e] eqn:H1; cbn [bind]; [|discriminate].
  destruct (add_operator_matrix m1 _ _ _ _ _ _ _ _) as [m2|e] eqn:H2; cbn [bind];
    [|discriminate].
  intros [= <-] r c.
  set (N := length (idx2det ci_info)) in *.
  pose proof (square_zeros N) as Hsq0.
  pose proof (add_operator_matrix_square _ _ _ _ _ _ _ _ _ _ _ Hsq0 H1) as Hsq1.
  pose proof (add_operator_matrix_square _ _ _ _ _ _ _ _ _ _ _ Hsq1 H2) as Hsq2.
  destruct (Nat.ltb_spec r N) as [Hr|Hr], (Nat.ltb_spec c N) as [Hcn|Hcn].
  2-4: rewrite !(cell_outside N) by (assumption || lia); lra.
  destruct (indices_conjugate fermi_label) as [Eanni Ecreate].
  rewrite Eanni, Ecreate in H2.
  rewrite (add_operator_matrix_cell _ _ _ _ _ _ _ _ _ r c Hsq1 Hidx H2 Hr Hcn).
  rewrite (add_operator_matrix_cell _ _ _ _ _ _ _ _ _ c r Hsq1 Hidx H2 Hcn Hr).
  rewrite (add_operator_matrix_cell _ _ _ _ _ _ _ _ _ r c Hsq0 Hidx H1 Hr Hcn).
  rewrite (add_operator_matrix_cell _ _ _ _ _ _ _ _ _ c r Hsq0 Hidx H1 Hcn Hr).
  rewrite !cell_zeros, !string_entry_opp.
  rewrite (string_entry_conjugate (rev (anni_indices fermi_label)))
    by now apply Forall_rev.
  rewrite (string_entry_conjugate (rev (anni_indices fermi_label)) _ _ _ _ c r)
    by now apply Forall_rev.
  lra.
Qed.

Lemma anti_hermitian_pair_antisymmetric_witness :
  in_active_space (num_active_orbs example_ci) (anni_indices [(2, true); (0, false)]) /\
  in_active_space (num_active_orbs example_ci) (create_indices [(2, true); (0, false)]) /\
  indexed (idx2det example_ci) (det2idx example_ci) /\
  build_operator_matrix (anti_hermitian_pair [(2, true); (0, false)] 1) example_ci false
  = Ok [[0; 0 + - (1) * sign 0]; [0 + 1 * sign 0; 0]]%R /\
  cell [[0; 0 + - (1) * sign 0]; [0 + 1 * sign 0; 0]]%R 0 1
  = (- cell [[0; 0 + - (1) * sign 0]; [0 + 1 * sign 0; 0]] 1 0)%R.
Proof.
  assert (Ha : in_active_space (num_active_orbs example_ci)
                 (anni_indices [(2, true); (0, false)]))
    by (repeat constructor; cbn; lia).
  assert (Hc : in_active_space (num_active_orbs example_ci)
                 (create_indices [(2, true); (0, false)]))
    by (repeat constructor; cbn; lia).
  assert (HM : build_operator_matrix (anti_hermitian_pair [(2, true); (0, false)] 1)
                 example_ci false
               = Ok [[0; 0 + - (1) * sign 0]; [0 + 1 * sign 0; 0]]%R)
    by (evaluate; reflexivity).
  split; [exact Ha|]. split; [exact Hc|]. split; [exact example_ci_is_indexed|].
  split; [exact HM|].
  exact (anti_hermitian_pair_antisymmetric _ _ _ _ _ Ha Hc example_ci_is_indexed HM
           0%nat 1%nat).
Defined.

End OperatorStateAlgebraExtras.

(** * The exponential unitary: closed form and round trip *)

Module AnalyticUnitaryFacts.

Import stdpp.base stdpp.gmap.
Import Stdlib.Strings.String.
Import OperatorStateAlgebra OperatorStateAlgebraRest AnalyticUnitary.
Import DensityMatrixFacts OperatorStateAlgebraFacts OperatorStateAlgebraExtras.

Local Abbreviation length := Datatypes.length.

Local Open Scope Z_scope.
Local Open Scope result_scope.

(** ** The code's application of a generator and its matrix *)

Lemma build_operator_matrix_shape (op : FermionicOperator) (ci_info : CI_Info)
    (do_unsafe : bool) (op_mat : matrix) :
  build_operator_matrix op ci_info do_unsafe = Ok op_mat ->
  square (length (idx2det ci_info)) op_mat.
Proof.
  unfold build_operator_matrix. intros H.
  apply (foldM_invariant (square (length (idx2det ci_info))) _ _) in H;
    [assumption | | apply square_zeros].
  intros m [fermi_label coefficient] m' Hm. now apply add_operator_matrix_square.
Qed.

Lemma length_matvec (m : matrix) (v : state_vector) : length (matvec m v) = length m.
Proof. apply length_map. Qed.

(** On a state with no amplitude below the threshold but zeros, the code
    applies the matrix. *)
Lemma apply_generator_matrix (ext : Externals) (ci_info : CI_Info)
    (T : FermionicOperator) (T_mat : matrix) (psi : state_vector) :
  length psi = length (idx2det ci_info) ->
  clear_amplitudes psi ->
  matrix_of ci_info T T_mat ->
  apply_generator ext ci_info T psi = Ok (matvec T_mat psi).
Proof.
  intros Hlen Hclear Hmat. unfold apply_generator.
  rewrite propagate_operators_one. unfold propagate_operator.
  unfold matrix_of, build_operator_matrix in Hmat.
  set (n := length (idx2det ci_info)) in *.
  assert (Hinit : square n (repeat (zeros n) n)
                  /\ zeros (length psi) = matvec (repeat (zeros n) n) psi).
  { split; [apply square_zeros|]. rewrite matvec_zeros. congruence. }
  assert (Hstep : forall (a : matrix) (b : state_vector)
                         (x : list (Z * bool) * R) (a' : matrix),
             In x (operators T) ->
             square n a /\ b = matvec a psi ->
             (let '(fermi_label, coefficient) := x in
              add_operator_matrix a (anni_indices fermi_label)
                (create_indices fermi_label) (num_active_orbs ci_info)
                (build_parity_check (num_active_orbs ci_info)) (idx2det ci_info)
                (det2idx ci_info) false coefficient) = Ok a' ->
             exists b',
               (let '(fermi_label, coefficient) := x in
                apply_operator psi (anni_indices fermi_label)
                  (create_indices fermi_label) (num_active_orbs ci_info)
                  (build_parity_check (num_active_orbs ci_info)) (idx2det ci_info)
                  (det2idx ci_info) false b coefficient) = Ok b'
               /\ (square n a' /\ b' = matvec a' psi)).
  { intros a b [label c] a' _ Hab Ha.
    exact (string_related psi n Hlen Hclear _ _ _ _ _ _ _ _ a a' b eq_refl Hab Ha). }
  destruct (foldM_related _ _ _ (operators T) Hstep _ _ T_mat Hinit Hmat)
    as (v & Hv & _ & ->).
  cbv beta in Hv. rewrite <- Hv.
  apply foldM_ext. now intros a [label c].
Qed.

Section ClosedForm.

Variable ext : Externals.
Variable ci_info : CI_Info.

(** The expression of a step is the closed form of the specification on a
    regular state. *)
Lemma loop_rotation_closed_form (T : FermionicOperator) (T_mat : matrix) (theta : R)
    (psi : state_vector) :
  matrix_of ci_info T T_mat ->
  regular ci_info T_mat psi ->
  loop_rotation ext ci_info T theta psi = Ok (rotation T_mat theta psi).
Proof.
  intros Hmat (Hlen & Hclear & Hclear1). unfold loop_rotation.
  rewrite (apply_generator_matrix ext ci_info T T_mat psi) by assumption.
  cbn [bind].
  rewrite (apply_generator_matrix ext ci_info T T_mat (matvec T_mat psi));
    [reflexivity | | assumption | assumption].
  rewrite length_matvec. apply (build_operator_matrix_shape _ _ _ _ Hmat).
Qed.

Lemma ups_step_closed_form (dagger : bool) (psi out : state_vector)
    (exc_type : string) (exc_indices : list Z) (theta : R) :
  step_closed_form ext ci_info dagger psi exc_type exc_indices theta out ->
  ups_step ext ci_info dagger psi exc_type exc_indices theta = Ok out.
Proof.
  unfold step_closed_form.
  destruct (below_threshold theta) eqn:Hthr.
  { intros ->. now apply ups_step_skipped. }
  destruct (exc_type =? "sa_single")%string eqn:Hsa.
  - apply String.eqb_eq in Hsa. subst exc_type.
    intros (i & a & Ta_mat & Tb_mat & Hu & Ha & Hb & Hra & Hrb & ->).
    rewrite ups_step_sa_single by assumption.
    rewrite Hu. cbn [bind fst snd].
    rewrite (loop_rotation_closed_form _ _ _ _ Ha Hra). cbn [bind].
    now apply loop_rotation_closed_form.
  - destruct ((exc_type =? "single") || (exc_type =? "double"))%string eqn:Htag;
      [|intros []].
    intros (T & T_mat & HT & HM & Hr & ->).
    rewrite ups_step_analytic by assumption.
    rewrite HT. cbn [bind]. now apply loop_rotation_closed_form.
Qed.

Lemma pass_closed_form_steps (dagger : bool) (steps : list (string * list Z * R)) :
  forall psi out,
    pass_closed_form ext ci_info dagger steps psi out ->
    foldM (fun tmp '(exc_type, exc_indices, theta) =>
             ups_step ext ci_info dagger tmp exc_type exc_indices theta) steps psi
    = Ok out.
Proof.
  induction steps as [|[[exc_type exc_indices] theta] steps IH]; intros psi out H;
    cbn [pass_closed_form foldM] in *.
  - now subst.
  - destruct H as (mid & Hstep & Hrest).
    rewrite (ups_step_closed_form _ _ _ _ _ _ Hstep). cbn [bind]. now apply IH.
Qed.

End ClosedForm.

(** C3, as the code has it. On states none of whose amplitudes is lost to
    the threshold, [construct_ups_state] returns what the closed form of the
    specification gives step after step (nothing for a parameter below the
    threshold, the rotation by the generator's matrix for "single" and
    "double", the alpha and then the beta rotation for "sa_single", the
    parameter negated and the steps reversed under [dagger]), and
    [propagate_unitary] returns what it gives for the step [idx]. *)
Theorem analytic_unitary_step (ext : Externals) (ci_info : CI_Info) :
  (forall (dagger : bool) (state out : state_vector) (thetas : list R)
          (ups_struct : UpsStructure),
      pass_closed_form ext ci_info dagger (ordered_steps dagger thetas ups_struct)
        state out ->
      construct_ups_state ext state ci_info thetas ups_struct dagger = Ok out)
  /\ (forall (state out : state_vector) (idx : Z) (thetas : list R)
             (ups_struct : UpsStructure) (exc_type : string) (exc_indices : list Z)
             (theta : R),
         getitem (ups_excitation_operator_type ups_struct) idx = Ok exc_type ->
         getitem (ups_excitation_indices ups_struct) idx = Ok exc_indices ->
         getitem thetas idx = Ok theta ->
         step_closed_form ext ci_info false state exc_type exc_indices theta out ->
         propagate_unitary ext state idx ci_info thetas ups_struct = Ok out).
Proof.
  split.
  - intros dagger state out thetas ups_struct H.
    unfold construct_ups_state. now apply pass_closed_form_steps.
  - intros state out idx thetas ups_struct exc_type exc_indices theta Ht Hi Hth H.
    rewrite propagate_unitary_step, Ht, Hi, Hth. cbn [bind].
    now apply ups_step_closed_form.
Qed.

(** ** The example space *)

Lemma example_matrix_of :
  matrix_of example_ci (G1_model 0 2 true) example_matrix.
Proof. unfold matrix_of, example_matrix. evaluate. equal_reals. Qed.

Lemma example_rotation (theta x y : R) :
  rotation example_matrix theta [x; y]
  = [(x - sin theta * y - (1 - cos theta) * x)%R;
     (y + sin theta * x - (1 - cos theta) * y)%R].
Proof. unfold rotation, example_matrix. evaluate. equal_reals. Qed.

Lemma below_threshold_unit (x : R) : (x = 1 \/ x = -1)%R -> below_threshold x = false.
Proof.
  intros [-> | ->]; apply below_threshold_false; unfold threshold, Rabs;
    destruct (Rcase_abs _); lra.
Qed.

Lemma analytic_unitary_step_witness :
  pass_closed_form example_externals example_ci false
    (ordered_steps false [(PI / 2)%R] example_ups) [1%R; 0%R] [0%R; 1%R]
  /\ construct_ups_state example_externals [1%R; 0%R] example_ci [(PI / 2)%R]
       example_ups false = Ok [0%R; 1%R]
  /\ propagate_unitary example_externals [1%R; 0%R] 0 example_ci [(PI / 2)%R]
       example_ups = Ok [0%R; 1%R].
Proof.
  assert (Hstep : step_closed_form example_externals example_ci false [1%R; 0%R]
                    "single" [0; 2] (PI / 2) [0%R; 1%R]).
  { unfold step_closed_form. rewrite below_threshold_half_pi.
    cbn [String.eqb Ascii.eqb Bool.eqb orb andb].
    exists (G1_model 0 2 true), example_matrix.
    split; [reflexivity |].
    split; [exact example_matrix_of |].
    split.
    - split; [reflexivity |].
      split.
      + constructor; [right; apply below_threshold_unit; now left |].
        constructor; [now left | constructor].
      + unfold example_matrix. evaluate.
        constructor; [left; lra |].
        constructor; [right; apply below_threshold_unit; left; lra | constructor].
    - cbn [applied_theta]. rewrite example_rotation, sin_PI2, cos_PI2. equal_reals. }
  assert (Hpass : pass_closed_form example_externals example_ci false
                    (ordered_steps false [(PI / 2)%R] example_ups) [1%R; 0%R]
                    [0%R; 1%R]).
  { exists [0%R; 1%R]. split; [exact Hstep | reflexivity]. }
  split; [exact Hpass |].
  split.
  - exact (proj1 (analytic_unitary_step example_externals example_ci) false
             [1%R; 0%R] [0%R; 1%R] [(PI / 2)%R] example_ups Hpass).
  - exact (proj2 (analytic_unitary_step example_externals example_ci)
             [1%R; 0%R] [0%R; 1%R] 0 [(PI / 2)%R] example_ups "single"%string [0; 2]
             (PI / 2)%R eq_refl eq_refl eq_refl Hstep).
Defined.

(** C3, as the claim words it, fails: [apply_operator] passes over the
    amplitude [10 ** -15] of the second determinant of [example_ci]. With
    the parameter [PI / 2], not below the threshold, the "single" step takes
    the state [(1, 10 ** -15)] to [(0, 1 + 10 ** -15)], in
    [construct_ups_state] and in [propagate_unitary] alike, where
    [psi + sin(theta) T psi + (1 - cos(theta)) T^2 psi] is
    [(- 10 ** -15, 1)]. *)
Lemma analytic_unitary_step_not_every_state :
  exists (T : FermionicOperator) (T_mat : matrix) (out : state_vector),
    below_threshold (PI / 2) = false
    /\ step_generator example_externals (space_extension_offset example_ci)
         "single" [0; 2] = Ok T
    /\ matrix_of example_ci T T_mat
    /\ construct_ups_state example_externals [1%R; tiny] example_ci [(PI / 2)%R]
         example_ups false = Ok out
    /\ propagate_unitary example_externals [1%R; tiny] 0 example_ci [(PI / 2)%R]
         example_ups = Ok out
    /\ out = [0%R; (1 + tiny)%R]
    /\ rotation T_mat (PI / 2) [1%R; tiny] = [(- tiny)%R; 1%R]
    /\ out <> rotation T_mat (PI / 2) [1%R; tiny].
Proof.
  exists (G1_model 0 2 true), example_matrix, [0%R; (1 + tiny)%R].
  assert (Hstep : ups_step example_externals example_ci false [1%R; tiny] "single"
                    [0; 2] (PI / 2) = Ok [0%R; (1 + tiny)%R]).
  { rewrite ups_step_analytic by (reflexivity || exact below_threshold_half_pi).
    change (step_generator example_externals (space_extension_offset example_ci)
              "single" [0; 2]) with (Ok (G1_model 0 2 true)).
    cbn [bind applied_theta]. rewrite example_loop_rotation.
    cbn [example_rotated]. rewrite sin_PI2, cos_PI2. decide_kept. equal_reals. }
  assert (Hrot : rotation example_matrix (PI / 2) [1%R; tiny] = [(- tiny)%R; 1%R]).
  { rewrite example_rotation, sin_PI2, cos_PI2. equal_reals. }
  split; [exact below_threshold_half_pi |].
  split; [reflexivity |].
  split; [exact example_matrix_of |].
  split.
  { unfold construct_ups_state.
    cbn [ordered example_ups ups_excitation_operator_type ups_excitation_indices
         combine foldM].
    rewrite Hstep. reflexivity. }
  split.
  { rewrite propagate_unitary_step.
    change (getitem (ups_excitation_operator_type example_ups) 0)
      with (Ok (A := string) "single"%string).
    change (getitem (ups_excitation_indices example_ups) 0) with (Ok [0; 2]).
    change (getitem [(PI / 2)%R] 0) with (Ok (PI / 2)%R).
    cbn [bind]. exact Hstep. }
  split; [reflexivity |].
  split; [exact Hrot |].
  rewrite Hrot. intros H. injection H as H1 H2. unfold tiny in *. lra.
Qed.

(** ** The algebra of vectors *)

Section Vectors.

Local Open Scope R_scope.

Lemma nth_vadd (u v : state_vector) (i : nat) :
  length u = length v -> nth i (vadd u v) 0 = nth i u 0 + nth i v 0.
Proof.
  revert v i. induction u as [|a u IH]; intros [|b v] i H; try discriminate.
  - destruct i; cbn; lra.
  - destruct i as [|i]; [reflexivity|].
    change (nth i (vadd u v) 0 = nth i u 0 + nth i v 0). apply IH. cbn in H. lia.
Qed.

Lemma nth_vscale (a : R) (v : state_vector) (i : nat) :
  nth i (vscale a v) 0 = a * nth i v 0.
Proof.
  revert i. induction v as [|b v IH]; intros [|i]; cbn; try lra.
  change (nth i (vscale a v) 0 = a * nth i v 0). apply IH.
Qed.

Lemma nth_matvec (m : matrix) (x : state_vector) (r : nat) :
  nth r (matvec m x) 0 = dot (nth r m []) x.
Proof.
  unfold matvec. change 0 with (dot [] x) at 1.
  apply (map_nth (fun row => dot row x)).
Qed.

Lemma vec_ext (u v : state_vector) :
  length u = length v ->
  (forall i, (i < length u)%nat -> nth i u 0 = nth i v 0) -> u = v.
Proof. intros Hlen H. now apply (nth_ext u v 0 0). Qed.

Lemma dot_nil_r (row : list R) : dot row [] = 0.
Proof. now destruct row. Qed.

Lemma dot_vadd (row : list R) (u v : state_vector) :
  length u = length v -> dot row (vadd u v) = dot row u + dot row v.
Proof.
  revert u v. induction row as [|a row IH]; intros [|b u] [|c v] H;
    try discriminate; try (unfold dot; cbn; lra).
  change (vadd (b :: u) (c :: v)) with ((b + c) :: vadd u v).
  rewrite !dot_cons, IH by (cbn in H; lia). lra.
Qed.

Lemma dot_vscale (row : list R) (a : R) (v : state_vector) :
  dot row (vscale a v) = a * dot row v.
Proof.
  revert v. induction row as [|b row IH]; intros [|c v];
    try (unfold dot; cbn; lra).
  change (vscale a (c :: v)) with ((a * c) :: vscale a v).
  rewrite !dot_cons, IH. lra.
Qed.

Lemma matvec_vadd (m : matrix) (u v : state_vector) :
  length u = length v -> matvec m (vadd u v) = vadd (matvec m u) (matvec m v).
Proof.
  intros H. unfold matvec. induction m as [|row m IH]; [reflexivity|].
  cbn [map]. rewrite IH, dot_vadd by assumption. reflexivity.
Qed.

Lemma matvec_vscale (m : matrix) (a : R) (v : state_vector) :
  matvec m (vscale a v) = vscale a (matvec m v).
Proof.
  unfold matvec. induction m as [|row m IH]; [reflexivity|].
  cbn [map]. rewrite IH, dot_vscale. reflexivity.
Qed.

(** A row with all cells zero, and a row with one cell that may not be. *)
Lemma dot_zero_row (row : list R) (x : state_vector) :
  (forall c, nth c row 0 = 0) -> dot row x = 0.
Proof.
  revert x. induction row as [|a row IH]; intros [|b x] H; try reflexivity.
  rewrite dot_cons, IH by (intros c; apply (H (S c))).
  pose proof (H 0%nat) as H0. cbn in H0. rewrite H0. lra.
Qed.

Lemma dot_single (row : list R) (x : state_vector) (p : nat) :
  (forall c, c <> p -> nth c row 0 = 0) -> dot row x = nth p row 0 * nth p x 0.
Proof.
  revert x p. induction row as [|a row IH]; intros [|b x] p H.
  - unfold dot. destruct p; cbn; lra.
  - unfold dot. destruct p; cbn; lra.
  - rewrite dot_nil_r. destruct p; cbn; lra.
  - rewrite dot_cons. destruct p as [|p].
    + rewrite dot_zero_row by (intros c; apply (H (S c)); lia). cbn. lra.
    + rewrite (IH x p) by (intros c Hc; apply (H (S c)); lia).
      pose proof (H 0%nat ltac:(lia)) as H0. cbn in H0. rewrite H0. cbn. lra.
Qed.

Lemma sign_square (q : Z) : sign q * sign q = 1.
Proof.
  unfold sign. rewrite <- Rpow_mult_distr.
  replace (-1 * -1) with 1 by lra. apply pow1.
Qed.

Lemma sign_add (a b : Z) : (0 <= a)%Z -> (0 <= b)%Z -> sign (a + b) = sign a * sign b.
Proof.
  intros Ha Hb. unfold sign. rewrite Z2Nat.inj_add by assumption. apply pow_add.
Qed.

End Vectors.

(** ** The matrix of an excitation generator *)

Lemma foldM_each {A B : Type} (f : A -> B -> result A) (l : list B) :
  forall a a', foldM f l a = Ok a' ->
  forall x, In x l -> exists a1 a2, f a1 x = Ok a2.
Proof.
  induction l as [|y l IH]; intros a a' H x Hin; [destruct Hin|].
  cbn [foldM] in H. destruct (f a y) as [a1|e] eqn:E; cbn [bind] in H;
    [|discriminate].
  destruct Hin as [<-|Hin]; [now exists a, a1 | exact (IH a1 a' H x Hin)].
Qed.

(** A matrix that was built holds no string that leaves the space. *)
Lemma add_operator_matrix_closed (op_mat op_mat' : matrix)
    (anni_idxs create_idxs : list Z) (num_active_orbs : Z) (parity_check : list Z)
    (idx2det : list Z) (det2idx : gmap Z Z) (factor : R) (c : nat) (det d q : Z) :
  add_operator_matrix op_mat anni_idxs create_idxs num_active_orbs parity_check
    idx2det det2idx false factor = Ok op_mat' ->
  nth_error idx2det c = Some det ->
  apply_string (rev anni_idxs) (rev create_idxs) num_active_orbs parity_check det
  = Ok (Some (d, q)) ->
  exists v, det2idx !! d = Some v.
Proof.
  unfold add_operator_matrix. intros H Hc Hs.
  assert (Hin : In (c, det) (enumerate idx2det)).
  { apply (nth_error_In _ c). unfold enumerate.
    now rewrite nth_error_enumerate_from, Hc. }
  destruct (foldM_each _ _ _ _ H _ Hin) as (a1 & a2 & Hbody).
  cbv beta iota in Hbody. unfold add_operator_matrix_body in Hbody.
  rewrite Hs in Hbody. cbn [bind andb] in Hbody. unfold dict_getitem in Hbody.
  destruct (det2idx !! d) as [v|]; [now exists v | discriminate].
Qed.

Section Generator.

Variable ci_info : CI_Info.
Variable fermi_label : list (Z * bool).
Variable T_mat : matrix.

Local Abbreviation n := (num_active_orbs ci_info).
Local Abbreviation N := (length (idx2det ci_info)).
Local Abbreviation table := (build_parity_check (num_active_orbs ci_info)).
Local Abbreviation anni_idxs := (anni_indices fermi_label).
Local Abbreviation create_idxs := (create_indices fermi_label).

Hypothesis Hindexed : indexed (idx2det ci_info) (det2idx ci_info).
Hypothesis Hexc : excitation n fermi_label.
Hypothesis Hmat : matrix_of ci_info (anti_hermitian_pair fermi_label 1) T_mat.

Lemma generator_calls :
  exists m1,
    add_operator_matrix (repeat (zeros N) N) anni_idxs create_idxs n table
      (idx2det ci_info) (det2idx ci_info) false 1 = Ok m1
    /\ add_operator_matrix m1 (rev create_idxs) (rev anni_idxs) n table
         (idx2det ci_info) (det2idx ci_info) false (- (1)) = Ok T_mat.
Proof using Hmat.
  unfold matrix_of, build_operator_matrix, anti_hermitian_pair in Hmat.
  cbn [operators foldM] in Hmat.
  destruct (add_operator_matrix _ anni_idxs _ _ _ _ _ _ 1) as [m1|e] eqn:H1;
    cbn [bind] in Hmat; [|discriminate].
  destruct (indices_conjugate fermi_label) as [Ea Ec]. rewrite Ea, Ec in Hmat.
  destruct (add_operator_matrix m1 _ _ _ _ _ _ _ _) as [m2|e] eqn:H2;
    cbn [bind] in Hmat; [|discriminate].
  injection Hmat as <-. now exists m1.
Qed.

Lemma generator_square : square N T_mat.
Proof using Hmat. exact (build_operator_matrix_shape _ _ _ _ Hmat). Qed.

(** The string and its conjugate apply to no common determinant. *)
Lemma string_or_conjugate (det d d' q q' : Z) :
  apply_string (rev anni_idxs) (rev create_idxs) n table det = Ok (Some (d, q)) ->
  apply_string create_idxs anni_idxs n table det = Ok (Some (d', q')) ->
  False.
Proof using Hexc.
  destruct Hexc as (_ & _ & k & Hka & Hkc).
  unfold apply_string. intros H1 H2.
  destruct (operator_loop 0 (rev anni_idxs) n table det 0) as [[[d1 q1]|]|e] eqn:E1;
    cbn [bind] in H1; try discriminate.
  destruct (operator_loop 0 create_idxs n table det 0) as [[[d2 q2]|]|e] eqn:E2;
    cbn [bind] in H2; try discriminate.
  apply (operator_loop_accepts n false) in E1. destruct E1 as (_ & Hin1 & _).
  apply (operator_loop_accepts n false) in E2. destruct E2 as (_ & _ & Hout2).
  apply (operator_loop_accepts n true) in H2. destruct H2 as (_ & Hin2 & _).
  destruct (Hin1 k (proj1 (in_rev _ _) Hka)) as (_ & Hset & _).
  destruct (Hin2 k Hka) as (_ & Hclear & _).
  rewrite Hout2 in Hclear.
  - cbn [negb] in *. congruence.
  - intros j Hj E. apply Hkc. unfold orbital_bit in E. now replace k with j by lia.
Qed.

Lemma active_lists :
  in_active_space n anni_idxs /\ in_active_space n create_idxs.
Proof using Hexc. destruct Hexc as (Ha & Hc & _). now split. Qed.

(** The cells of a row, from what the generator does to its determinant. *)
Lemma generator_cell (r c : nat) (det_r det_c : Z) :
  nth_error (idx2det ci_info) r = Some det_r ->
  nth_error (idx2det ci_info) c = Some det_c ->
  cell T_mat r c
  = match row_action n fermi_label det_r with
    | Some (d, a) => if d =? det_c then a else 0%R
    | None => 0%R
    end.
Proof using Hindexed Hexc Hmat.
  intros Hr Hc. destruct active_lists as [Ha Hcr].
  destruct generator_calls as (m1 & H1 & H2).
  assert (Hrn : (r < N)%nat) by (apply nth_error_Some; congruence).
  assert (Hcn : (c < N)%nat) by (apply nth_error_Some; congruence).
  pose proof (square_zeros N) as Hsq0.
  pose proof (add_operator_matrix_square _ _ _ _ _ _ _ _ _ _ _ Hsq0 H1) as Hsq1.
  rewrite (add_operator_matrix_cell _ _ _ _ _ _ _ _ _ r c Hsq1 Hindexed H2 Hrn Hcn).
  rewrite (add_operator_matrix_cell _ _ _ _ _ _ _ _ _ r c Hsq0 Hindexed H1 Hrn Hcn).
  rewrite cell_zeros, !rev_involutive.
  rewrite (string_entry_conjugate (rev anni_idxs)) by now apply Forall_rev.
  rewrite (string_entry_conjugate create_idxs) by assumption.
  rewrite !rev_involutive.
  unfold string_entry, row_action. rewrite Hr, Hc.
  destruct (apply_string create_idxs anni_idxs n table det_r) as [[[d q]|]|e] eqn:E1;
    destruct (apply_string (rev anni_idxs) (rev create_idxs) n table det_r)
      as [[[d' q']|]|e'] eqn:E2;
    try (exfalso; exact (string_or_conjugate _ _ _ _ _ E2 E1));
    repeat match goal with |- context [?a =? ?b] => destruct (a =? b) end; lra.
Qed.

(** The determinant a row leads to is in the space. *)
Lemma row_action_closed (r : nat) (det d : Z) (a : R) :
  nth_error (idx2det ci_info) r = Some det ->
  row_action n fermi_label det = Some (d, a) ->
  exists p, nth_error (idx2det ci_info) p = Some d
            /\ det2idx ci_info !! d = Some (Z.of_nat p).
Proof using Hindexed Hmat.
  intros Hr Hact. destruct generator_calls as (m1 & H1 & H2).
  assert (Hlook : exists v, det2idx ci_info !! d = Some v).
  { unfold row_action in Hact.
    destruct (apply_string create_idxs anni_idxs n table det) as [[[d1 q1]|]|e] eqn:E1.
    - injection Hact as -> _.
      apply (add_operator_matrix_closed _ _ _ _ _ _ _ _ _ r det d q1 H2 Hr).
      now rewrite !rev_involutive.
    - destruct (apply_string (rev anni_idxs) _ n table det) as [[[d2 q2]|]|e] eqn:E2;
        try discriminate.
      injection Hact as -> _.
      exact (add_operator_matrix_closed _ _ _ _ _ _ _ _ _ r det d q2 H1 Hr E2).
    - destruct (apply_string (rev anni_idxs) _ n table det) as [[[d2 q2]|]|e'] eqn:E2;
        try discriminate.
      injection Hact as -> _.
      exact (add_operator_matrix_closed _ _ _ _ _ _ _ _ _ r det d q2 H1 Hr E2). }
  destruct Hlook as [v Hv]. destruct Hindexed as [_ Hbwd].
  destruct (Hbwd d v Hv) as (p & -> & Hp). now exists p.
Qed.

(** The generator takes the determinant it leads to back, with the
    opposite sign. *)
Lemma row_action_involution (det d : Z) (a : R) :
  row_action n fermi_label det = Some (d, a) ->
  row_action n fermi_label d = Some (det, (- a)%R) /\ (a * a = 1)%R.
Proof using Hexc.
  destruct active_lists as [Ha Hc]. unfold row_action. intros Hact.
  destruct (apply_string create_idxs anni_idxs n table det) as [[[d1 q1]|]|e] eqn:E1.
  - injection Hact as -> <-. split; [|apply sign_square].
    pose proof (apply_string_conjugate _ _ _ _ _ _ Hc Ha E1) as Hback.
    destruct (apply_string create_idxs anni_idxs n table d) as [[[d2 q2]|]|e] eqn:E3;
      [exfalso; exact (string_or_conjugate _ _ _ _ _ Hback E3) | |];
      now rewrite Hback.
  - destruct (apply_string (rev anni_idxs) _ n table det) as [[[d2 q2]|]|e] eqn:E2;
      try discriminate.
    injection Hact as -> <-.
    split; [|pose proof (sign_square q2); lra].
    pose proof (apply_string_conjugate _ _ _ _ _ _ (Forall_rev Ha) (Forall_rev Hc) E2)
      as Hback.
    rewrite !rev_involutive in Hback. rewrite Hback. do 2 f_equal. lra.
  - destruct (apply_string (rev anni_idxs) _ n table det) as [[[d2 q2]|]|e'] eqn:E2;
      try discriminate.
    injection Hact as -> <-.
    split; [|pose proof (sign_square q2); lra].
    pose proof (apply_string_conjugate _ _ _ _ _ _ (Forall_rev Ha) (Forall_rev Hc) E2)
      as Hback.
    rewrite !rev_involutive in Hback. rewrite Hback. do 2 f_equal. lra.
Qed.

Lemma position_amplitude (x : state_vector) (p : nat) (d : Z) :
  det2idx ci_info !! d = Some (Z.of_nat p) ->
  amplitude_of (det2idx ci_info) x d = nth p x 0%R.
Proof. intros H. unfold amplitude_of. now rewrite H, Nat2Z.id. Qed.

(** The component of [T x] on a determinant of the space. *)
Lemma generator_row (x : state_vector) (r : nat) (det : Z) :
  nth_error (idx2det ci_info) r = Some det ->
  nth r (matvec T_mat x) 0%R = row_value n (det2idx ci_info) fermi_label x det.
Proof using Hindexed Hexc Hmat.
  intros Hr. rewrite nth_matvec. unfold row_value.
  assert (Hout : forall c, (N <= c)%nat -> nth c (nth r T_mat []) 0%R = 0%R).
  { intros c Hc. apply (cell_outside N T_mat r c generator_square). now right. }
  destruct (row_action n fermi_label det) as [[d a]|] eqn:Hact.
  - destruct (row_action_closed r det d a Hr Hact) as (p & Hp & Hlook).
    rewrite (position_amplitude x p d Hlook).
    rewrite (dot_single _ x p).
    + change (nth p (nth r T_mat []) 0%R) with (cell T_mat r p).
      rewrite (generator_cell r p det d Hr Hp), Hact, Z.eqb_refl. reflexivity.
    + intros c Hne. destruct (Nat.ltb_spec c N) as [Hc|Hc]; [|now apply Hout].
      destruct (nth_error (idx2det ci_info) c) as [det_c|] eqn:Ec;
        [|apply nth_error_None in Ec; lia].
      change (nth c (nth r T_mat []) 0%R) with (cell T_mat r c).
      rewrite (generator_cell r c det det_c Hr Ec), Hact.
      destruct (Z.eqb_spec d det_c) as [->|_]; [|reflexivity].
      destruct Hindexed as [Hfwd _]. apply Hfwd in Ec.
      rewrite Ec in Hlook. injection Hlook as Hlook. lia.
  - apply dot_zero_row. intros c.
    destruct (Nat.ltb_spec c N) as [Hc|Hc]; [|now apply Hout].
    destruct (nth_error (idx2det ci_info) c) as [det_c|] eqn:Ec;
      [|apply nth_error_None in Ec; lia].
    change (nth c (nth r T_mat []) 0%R) with (cell T_mat r c).
    now rewrite (generator_cell r c det det_c Hr Ec), Hact.
Qed.

(** [T^3 = -T] on the states of the space. *)
Lemma generator_cube (x : state_vector) :
  matvec T_mat (matvec T_mat (matvec T_mat x)) = vscale (-1) (matvec T_mat x).
Proof using Hindexed Hexc Hmat.
  pose proof generator_square as [HlenM _].
  apply vec_ext; [now rewrite length_vscale, !length_matvec|].
  rewrite length_matvec, HlenM. intros r Hr.
  destruct (nth_error (idx2det ci_info) r) as [det|] eqn:Er;
    [|apply nth_error_None in Er; lia].
  rewrite nth_vscale, (generator_row _ r det Er), (generator_row x r det Er).
  unfold row_value.
  destruct (row_action n fermi_label det) as [[d a]|] eqn:Hact; [|lra].
  destruct (row_action_closed r det d a Er Hact) as (p & Hp & Hlook).
  destruct (row_action_involution det d a Hact) as [Hback Hone].
  rewrite (position_amplitude _ p d Hlook), (generator_row _ p d Hp).
  unfold row_value. rewrite Hback.
  destruct Hindexed as [Hfwd _].
  rewrite (position_amplitude _ r det (Hfwd r det Er)), (generator_row x r det Er).
  unfold row_value. rewrite Hact.
  rewrite (position_amplitude _ p d Hlook).
  replace (a * (- a * (a * nth p x 0)))%R with (- (a * a) * (a * nth p x 0))%R by ring.
  rewrite Hone. ring.
Qed.

End Generator.

(** ** Rotations *)

Section Rotations.

Local Open Scope R_scope.

Variable N : nat.

Lemma length_vadd_n (u v : state_vector) :
  length u = N -> length v = N -> length (vadd u v) = N.
Proof. intros Hu Hv. rewrite length_vadd; congruence. Qed.

Lemma length_vscale_n (a : R) (v : state_vector) :
  length v = N -> length (vscale a v) = N.
Proof. intros Hv. now rewrite length_vscale. Qed.

Lemma length_matvec_n (m : matrix) (x : state_vector) :
  length m = N -> length (matvec m x) = N.
Proof. intros Hm. now rewrite length_matvec. Qed.

Lemma same_length (u v : state_vector) :
  length u = N -> length v = N -> length u = length v.
Proof. congruence. Qed.

Ltac vlen :=
  repeat first
    [ assumption
    | apply length_vadd_n
    | apply length_vscale_n
    | apply length_matvec_n ].

Ltac pointwise :=
  apply vec_ext; [apply same_length; vlen|];
  let i := fresh "i" in
  intros i _;
  repeat first
    [ rewrite nth_vscale
    | rewrite nth_vadd by (apply same_length; vlen) ];
  try ring.

Lemma length_rotation (m : matrix) (theta : R) (x : state_vector) :
  length m = N -> length x = N -> length (rotation m theta x) = N.
Proof. intros Hm Hx. unfold rotation. vlen. Qed.

(** With [T^3 = -T], the rotation by [- theta] undoes the rotation by
    [theta]. *)
Lemma rotation_undone (m : matrix) (theta : R) (x : state_vector) :
  length m = N -> length x = N ->
  (forall y, matvec m (matvec m (matvec m y)) = vscale (-1) (matvec m y)) ->
  rotation m (- theta) (rotation m theta x) = x.
Proof.
  intros Hm Hx Hcube.
  assert (E1 : matvec m (rotation m theta x)
               = vadd (vscale (cos theta) (matvec m x))
                   (vscale (sin theta) (matvec m (matvec m x)))).
  { unfold rotation.
    rewrite !matvec_vadd by (apply same_length; vlen).
    rewrite !matvec_vscale, Hcube. pointwise. }
  assert (E2 : matvec m (matvec m (rotation m theta x))
               = vadd (vscale (cos theta) (matvec m (matvec m x)))
                   (vscale (- sin theta) (matvec m x))).
  { rewrite E1. rewrite !matvec_vadd by (apply same_length; vlen).
    rewrite !matvec_vscale, Hcube. pointwise. }
  unfold rotation at 1. rewrite E2, E1, sin_neg, cos_neg.
  unfold rotation.
  apply rotation_algebra; [| rewrite length_matvec; congruence..].
  pose proof (sin2_cos2 theta) as H. unfold Rsqr in H. exact H.
Qed.

(** The rotations of two matrices that commute, commute. *)
Lemma rotations_commute (ma mb : matrix) (alpha beta : R) (x : state_vector) :
  length ma = N -> length mb = N -> length x = N ->
  (forall y, matvec ma (matvec mb y) = matvec mb (matvec ma y)) ->
  rotation ma alpha (rotation mb beta x) = rotation mb beta (rotation ma alpha x).
Proof.
  intros Ha Hb Hx Hcomm. unfold rotation.
  repeat first
    [ rewrite matvec_vscale
    | rewrite matvec_vadd by (apply same_length; vlen) ].
  rewrite !Hcomm.
  pointwise.
Qed.

End Rotations.

(** ** Single excitations *)

Section Pair.

Variable num_active_orbs : Z.

Local Abbreviation bit := (orbital_bit num_active_orbs).
Local Abbreviation mask := (parity_mask num_active_orbs).
Local Abbreviation table := (build_parity_check num_active_orbs).
Local Abbreviation active k := (0 <= k < 2 * num_active_orbs).
Local Abbreviation flip det k := (Z.lxor det (2 ^ bit k)).

Lemma annihilate_one (k det phase_changes : Z) :
  active k ->
  operator_loop 0 [k] num_active_orbs table det phase_changes
  = if Z.testbit det (bit k)
    then Ok (Some (flip det k,
                   phase_changes + popcount (Z.land det (mask k))))
    else Ok None.
Proof.
  intros Hk.
  pose proof (operator_loop_active_round num_active_orbs false k [] det phase_changes Hk)
    as H.
  cbn [Z.b2z] in H. rewrite H. cbn [operator_loop].
  now destruct (Z.testbit det (bit k)).
Qed.

Lemma create_one (k det phase_changes : Z) :
  active k ->
  operator_loop 1 [k] num_active_orbs table det phase_changes
  = if Z.testbit det (bit k)
    then Ok None
    else Ok (Some (flip det k,
                   phase_changes + popcount (Z.land det (mask k)))).
Proof.
  intros Hk.
  pose proof (operator_loop_active_round num_active_orbs true k [] det phase_changes Hk)
    as H.
  cbn [Z.b2z] in H. rewrite H. cbn [operator_loop].
  now destruct (Z.testbit det (bit k)).
Qed.

Lemma testbit_flip_other (det k j : Z) :
  active k -> active j -> k <> j ->
  Z.testbit (flip det k) (bit j) = Z.testbit det (bit j).
Proof.
  intros Hk Hj Hne. rewrite Z.lxor_spec, Z.pow2_bits_eqb by (unfold orbital_bit; lia).
  destruct (Z.eqb_spec (bit k) (bit j)) as [E|_]; [unfold orbital_bit in E; lia|].
  apply xorb_false_r.
Qed.

Lemma flip_flip (det k j : Z) : flip (flip det k) j = flip (flip det j) k.
Proof. rewrite !Z.lxor_assoc. f_equal. apply Z.lxor_comm. Qed.

Lemma parity_sign_flip (det k j : Z) :
  active k -> active j ->
  parity_sign num_active_orbs k (flip det j)
  = (parity_sign num_active_orbs k det * crossing (j <? k))%R.
Proof.
  intros Hk Hj. unfold parity_sign, crossing.
  pose proof (popcount_nonneg (Z.land (flip det j) (mask k))) as Hnew.
  pose proof (popcount_nonneg (Z.land det (mask k))) as Hold.
  rewrite popcount_masked_flip in * by assumption.
  destruct (j <? k); [|rewrite Z.add_0_r; lra].
  destruct (Z.testbit det (bit j)).
  - set (q := popcount (Z.land det (mask k)) + -1) in *.
    replace (popcount (Z.land det (mask k))) with (q + 1) by (subst q; lia).
    rewrite sign_succ by assumption. lra.
  - rewrite sign_succ by assumption. lra.
Qed.

Lemma crossing_opposite (k j : Z) :
  k <> j -> crossing (j <? k) = (- crossing (k <? j))%R.
Proof.
  intros Hne. unfold crossing.
  destruct (Z.ltb_spec j k), (Z.ltb_spec k j); try lia; lra.
Qed.

(** What the generator of the single excitation from [k] to [c] does to a
    determinant: it moves the electron between the two spin orbitals when
    exactly one is occupied. *)
Lemma pair_row_action (k c det : Z) :
  active k -> active c -> k <> c ->
  row_action num_active_orbs [(c, true); (k, false)] det
  = if xorb (Z.testbit det (bit k)) (Z.testbit det (bit c))
    then Some (flip (flip det k) c,
               (- (parity_sign num_active_orbs k det
                   * parity_sign num_active_orbs c det * crossing (k <? c)))%R)
    else None.
Proof.
  intros Hk Hc Hne. unfold row_action.
  change (anni_indices [(c, true); (k, false)]) with [k].
  change (create_indices [(c, true); (k, false)]) with [c].
  cbn [rev app]. unfold apply_string.
  rewrite !annihilate_one by assumption.
  destruct (Z.testbit det (bit k)) eqn:Ek, (Z.testbit det (bit c)) eqn:Ec;
    cbn [bind xorb]; rewrite ?create_one by assumption;
    rewrite ?testbit_flip_other by (assumption || congruence);
    rewrite ?Ek, ?Ec; try reflexivity.
  - f_equal. f_equal.
    rewrite sign_add
      by (apply popcount_nonneg
          || (pose proof (popcount_nonneg (Z.land det (mask k))); lia)).
    change (sign (0 + popcount (Z.land det (mask k))))
      with (parity_sign num_active_orbs k det).
    change (sign (popcount (Z.land (flip det k) (mask c))))
      with (parity_sign num_active_orbs c (flip det k)).
    rewrite parity_sign_flip by assumption. lra.
  - f_equal. f_equal; [apply flip_flip|].
    rewrite sign_add
      by (apply popcount_nonneg
          || (pose proof (popcount_nonneg (Z.land det (mask c))); lia)).
    change (sign (0 + popcount (Z.land det (mask c))))
      with (parity_sign num_active_orbs c det).
    change (sign (popcount (Z.land (flip det c) (mask k))))
      with (parity_sign num_active_orbs k (flip det c)).
    rewrite parity_sign_flip, (crossing_opposite k c) by assumption. lra.
Qed.

Lemma flips_exchange (det ka ca kb cb : Z) :
  flip (flip (flip (flip det ka) ca) kb) cb = flip (flip (flip (flip det kb) cb) ka) ca.
Proof.
  apply Z.bits_inj'. intros j _. rewrite !Z.lxor_spec.
  repeat match goal with |- context [Z.testbit ?a j] => destruct (Z.testbit a j) end;
    reflexivity.
Qed.

Lemma pair_excitation (k c : Z) :
  active k -> active c -> k <> c ->
  excitation num_active_orbs [(c, true); (k, false)].
Proof.
  intros Hk Hc Hne. unfold excitation.
  change (anni_indices [(c, true); (k, false)]) with [k].
  change (create_indices [(c, true); (k, false)]) with [c].
  split; [now repeat constructor|]. split; [now repeat constructor|].
  exists k. split; [now left|]. intros [E|[]]. congruence.
Qed.

(** Two single excitations on four distinct spin orbitals commute on
    every determinant. *)
Lemma pair_commute (det2idx : gmap Z Z) (y : state_vector) (ka ca kb cb det : Z) :
  active ka -> active ca -> active kb -> active cb ->
  ka <> ca -> kb <> cb -> ka <> kb -> ka <> cb -> ca <> kb -> ca <> cb ->
  match row_action num_active_orbs [(ca, true); (ka, false)] det with
  | Some (d, wa) =>
      (wa * row_value num_active_orbs det2idx [(cb, true); (kb, false)] y d)%R
  | None => 0%R
  end
  = match row_action num_active_orbs [(cb, true); (kb, false)] det with
    | Some (d, wb) =>
        (wb * row_value num_active_orbs det2idx [(ca, true); (ka, false)] y d)%R
    | None => 0%R
    end.
Proof.
  intros Hka Hca Hkb Hcb H1 H2 H3 H4 H5 H6. unfold row_value.
  rewrite (pair_row_action ka ca det), (pair_row_action kb cb det) by assumption.
  destruct (xorb (Z.testbit det (bit ka)) (Z.testbit det (bit ca))) eqn:Xa,
    (xorb (Z.testbit det (bit kb)) (Z.testbit det (bit cb))) eqn:Xb;
    rewrite ?pair_row_action by assumption;
    rewrite ?testbit_flip_other by (assumption || congruence);
    rewrite ?Xa, ?Xb; try lra.
  rewrite (flips_exchange det ka ca kb cb).
  rewrite !parity_sign_flip by assumption.
  rewrite (crossing_opposite kb ka), (crossing_opposite cb ka),
    (crossing_opposite kb ca), (crossing_opposite cb ca) by congruence.
  ring.
Qed.

End Pair.

Section TwoGenerators.

Variable ci_info : CI_Info.
Variables label_a label_b : list (Z * bool).
Variables Ta_mat Tb_mat : matrix.

Local Abbreviation n := (num_active_orbs ci_info).

Hypothesis Hindexed : indexed (idx2det ci_info) (det2idx ci_info).
Hypothesis Hexc_a : excitation n label_a.
Hypothesis Hexc_b : excitation n label_b.
Hypothesis Hmat_a : matrix_of ci_info (anti_hermitian_pair label_a 1) Ta_mat.
Hypothesis Hmat_b : matrix_of ci_info (anti_hermitian_pair label_b 1) Tb_mat.

(** The component of [Ta (Tb y)] on a determinant of the space. *)
Lemma generator_row_composed (y : state_vector) (r : nat) (det : Z) :
  nth_error (idx2det ci_info) r = Some det ->
  nth r (matvec Ta_mat (matvec Tb_mat y)) 0%R
  = match row_action n label_a det with
    | Some (d, wa) => (wa * row_value n (det2idx ci_info) label_b y d)%R
    | None => 0%R
    end.
Proof using Hindexed Hexc_a Hexc_b Hmat_a Hmat_b.
  intros Hr.
  rewrite (generator_row ci_info label_a Ta_mat Hindexed Hexc_a Hmat_a _ r det Hr).
  unfold row_value at 1.
  destruct (row_action n label_a det) as [[d wa]|] eqn:Hact; [|reflexivity].
  destruct (row_action_closed ci_info label_a Ta_mat Hindexed Hmat_a r det d wa Hr Hact)
    as (p & Hp & Hlook).
  rewrite (position_amplitude ci_info _ p d Hlook).
  now rewrite (generator_row ci_info label_b Tb_mat Hindexed Hexc_b Hmat_b y p d Hp).
Qed.

End TwoGenerators.

(** The matrices of two single excitations on four distinct spin orbitals
    commute. *)
Lemma generators_commute (ci_info : CI_Info) (ka ca kb cb : Z) (Ta_mat Tb_mat : matrix) :
  let n := num_active_orbs ci_info in
  indexed (idx2det ci_info) (det2idx ci_info) ->
  0 <= ka < 2 * n -> 0 <= ca < 2 * n -> 0 <= kb < 2 * n -> 0 <= cb < 2 * n ->
  ka <> ca -> kb <> cb -> ka <> kb -> ka <> cb -> ca <> kb -> ca <> cb ->
  matrix_of ci_info (anti_hermitian_pair [(ca, true); (ka, false)] 1) Ta_mat ->
  matrix_of ci_info (anti_hermitian_pair [(cb, true); (kb, false)] 1) Tb_mat ->
  forall y, matvec Ta_mat (matvec Tb_mat y) = matvec Tb_mat (matvec Ta_mat y).
Proof.
  intros n Hidx Hka Hca Hkb Hcb H1 H2 H3 H4 H5 H6 Ha Hb y.
  pose proof (pair_excitation n ka ca Hka Hca H1) as Ea.
  pose proof (pair_excitation n kb cb Hkb Hcb H2) as Eb.
  pose proof (generator_square ci_info _ Ta_mat Ha) as [La _].
  pose proof (generator_square ci_info _ Tb_mat Hb) as [Lb _].
  apply vec_ext; [rewrite !length_matvec; congruence|].
  rewrite length_matvec, La. intros r Hr.
  destruct (nth_error (idx2det ci_info) r) as [det|] eqn:Er;
    [|apply nth_error_None in Er; lia].
  rewrite (generator_row_composed ci_info _ _ Ta_mat Tb_mat Hidx Ea Eb Ha Hb y r det Er).
  rewrite (generator_row_composed ci_info _ _ Tb_mat Ta_mat Hidx Eb Ea Hb Ha y r det Er).
  now apply pair_commute.
Qed.

(** ** The unitary and its adjoint *)

Section RoundTrip.

Variable ext : Externals.
Variable ci_info : CI_Info.

Local Abbreviation n := (num_active_orbs ci_info).
Local Abbreviation N := (length (idx2det ci_info)).

Hypothesis Hindexed : indexed (idx2det ci_info) (det2idx ci_info).

(** The rotation of an excitation generator is undone by the rotation with
    the opposite parameter. *)
Lemma generator_rotation_undone (T : FermionicOperator) (T_mat : matrix) (theta : R)
    (psi : state_vector) :
  excitation_generator n T -> matrix_of ci_info T T_mat -> length psi = N ->
  rotation T_mat (- theta) (rotation T_mat theta psi) = psi.
Proof using Hindexed.
  intros (fermi_label & Hexc & ->) Hmat Hlen.
  pose proof (generator_square ci_info _ T_mat Hmat) as [HlenM _].
  apply (rotation_undone N); [assumption..|].
  exact (generator_cube ci_info fermi_label T_mat Hindexed Hexc Hmat).
Qed.

Lemma single_excitation_is_excitation (i a : Z) (T : FermionicOperator) :
  single_excitation_generator n i a T -> excitation_generator n T.
Proof.
  intros (Hi & Ha & Hne & ->). exists [(a, true); (i, false)].
  split; [now apply pair_excitation | reflexivity].
Qed.

(** A reversible step, taken forwards and then backwards. *)
Lemma step_round_trip (psi : state_vector) (exc_type : string) (exc_indices : list Z)
    (theta : R) :
  step_reversible ext ci_info psi exc_type exc_indices theta ->
  exists mid,
    step_closed_form ext ci_info false psi exc_type exc_indices theta mid
    /\ step_closed_form ext ci_info true mid exc_type exc_indices theta psi.
Proof using Hindexed.
  unfold step_reversible, step_closed_form. cbn [applied_theta].
  destruct (below_threshold theta); [intros _; now exists psi|].
  destruct (exc_type =? "sa_single")%string.
  - intros (i & a & Ta_mat & Tb_mat & Hu & Hga & Hgb & Hma & Hmb & R1 & R2 & R3 & R4).
    pose proof (build_operator_matrix_shape _ _ _ _ Hma) as [La _].
    pose proof (build_operator_matrix_shape _ _ _ _ Hmb) as [Lb _].
    assert (Hlen : length psi = N) by apply R1.
    assert (Hcomm : forall y, matvec Ta_mat (matvec Tb_mat y)
                              = matvec Tb_mat (matvec Ta_mat y)).
    { destruct Hga as (Hi & Ha & Hne & Ea), Hgb as (Hi' & Ha' & Hne' & Eb).
      rewrite Ea in Hma. rewrite Eb in Hmb.
      apply (generators_commute ci_info (i * 2) (a * 2) (i * 2 + 1) (a * 2 + 1));
        (assumption || lia). }
    assert (Hback : rotation Ta_mat (- theta)
                      (rotation Tb_mat theta (rotation Ta_mat theta psi))
                    = rotation Tb_mat theta psi).
    { rewrite (rotations_commute N) by (assumption || now apply length_rotation).
      f_equal.
      apply (generator_rotation_undone (G1 ext (i * 2) (a * 2) true));
        [exact (single_excitation_is_excitation _ _ _ Hga) | assumption..]. }
    exists (rotation Tb_mat theta (rotation Ta_mat theta psi)). split.
    + exists i, a, Ta_mat, Tb_mat.
      split; [assumption|]. split; [assumption|]. split; [assumption|].
      split; [assumption|]. split; [assumption | reflexivity].
    + exists i, a, Ta_mat, Tb_mat.
      split; [assumption|]. split; [assumption|]. split; [assumption|].
      split; [assumption|]. rewrite Hback. split; [assumption|].
      symmetry.
      apply (generator_rotation_undone (G1 ext (i * 2 + 1) (a * 2 + 1) true));
        [exact (single_excitation_is_excitation _ _ _ Hgb) | assumption..].
  - destruct ((exc_type =? "single") || (exc_type =? "double"))%string; [|intros []].
    intros (T & T_mat & HT & Hgen & Hmat & R1 & R2).
    exists (rotation T_mat theta psi). split.
    + exists T, T_mat.
      split; [assumption|]. split; [assumption|]. split; [assumption | reflexivity].
    + exists T, T_mat.
      split; [assumption|]. split; [assumption|]. split; [assumption|].
      symmetry. apply (generator_rotation_undone T); [assumption..|apply R1].
Qed.

(** The loop over reversible steps, and the loop over them reversed with
    [dagger]. *)
Lemma steps_round_trip (steps : list (string * list Z * R)) :
  forall psi,
    pass_reversible ext ci_info steps psi ->
    exists psi',
      foldM (fun tmp '(exc_type, exc_indices, theta) =>
               ups_step ext ci_info false tmp exc_type exc_indices theta) steps psi
      = Ok psi'
      /\ foldM (fun tmp '(exc_type, exc_indices, theta) =>
                  ups_step ext ci_info true tmp exc_type exc_indices theta)
           (rev steps) psi'
         = Ok psi.
Proof using Hindexed.
  induction steps as [|[[exc_type exc_indices] theta] steps IH]; intros psi Hpass.
  - exists psi. now split.
  - destruct Hpass as [Hstep Hrest].
    destruct (step_round_trip _ _ _ _ Hstep) as (mid & Hfw & Hbw).
    destruct (IH mid (Hrest mid Hfw)) as (psi' & Hfws & Hbws).
    exists psi'. split.
    + cbn [foldM]. rewrite (ups_step_closed_form _ _ _ _ _ _ _ _ Hfw). exact Hfws.
    + cbn [rev]. rewrite foldM_app, Hbws. cbn [bind foldM].
      rewrite (ups_step_closed_form _ _ _ _ _ _ _ _ Hbw). reflexivity.
Qed.

Lemma ups_round_trip (thetas : list R) (ups_struct : UpsStructure) (s : state_vector)
    (do_folding do_unsafe : bool) :
  length (ups_excitation_operator_type ups_struct)
  = length (ups_excitation_indices ups_struct) ->
  length (ups_excitation_indices ups_struct) = length thetas ->
  pass_reversible ext ci_info (ups_steps thetas ups_struct) s ->
  exists s',
    propagate_state ext [OpStr "U"] s ci_info thetas (Ups ups_struct)
      do_folding do_unsafe = Ok s'
    /\ propagate_state ext [OpStr "Ud"] s' ci_info thetas (Ups ups_struct)
         do_folding do_unsafe = Ok s.
Proof using Hindexed.
  intros Hl1 Hl2 Hpass.
  destruct (steps_round_trip _ s Hpass) as (s' & Hfw & Hbw).
  exists s'.
  unfold propagate_state. cbn [length Nat.eqb rev app foldM].
  cbn [String.eqb Ascii.eqb Bool.eqb orb andb negb].
  rewrite !bind_ok. unfold construct_ups_state, ordered.
  split; [exact Hfw|].
  rewrite !combine_rev; [exact Hbw | | assumption].
  rewrite length_combine. lia.
Qed.

Lemma ucc_round_trip (thetas : list R) (ucc_struct : UccStructure)
    (T : FermionicOperator) (Tmat : matrix) (s : state_vector)
    (do_folding do_unsafe : bool) :
  expm_inverse ext ->
  length s = N ->
  get_ucc_T ext thetas ucc_struct (space_extension_offset ci_info) = Ok T ->
  build_operator_matrix T ci_info false = Ok Tmat ->
  exists s',
    propagate_state ext [OpStr "U"] s ci_info thetas (Ucc ucc_struct)
      do_folding do_unsafe = Ok s'
    /\ propagate_state ext [OpStr "Ud"] s' ci_info thetas (Ucc ucc_struct)
         do_folding do_unsafe = Ok s.
Proof.
  intros Hexpm Hlen HT HM.
  exists (expm_multiply ext Tmat s).
  unfold propagate_state. cbn [length Nat.eqb rev app foldM].
  cbn [String.eqb Ascii.eqb Bool.eqb orb andb negb].
  rewrite !bind_ok. unfold construct_ucc_state. rewrite HT. cbn [bind].
  rewrite HM. cbn [bind]. split; [reflexivity|].
  f_equal. apply (Hexpm N); [|assumption].
  exact (build_operator_matrix_shape _ _ _ _ HM).
Qed.

End RoundTrip.

(** C4, as the code has it. For a UPS structure, applying "U" and then
    "Ud" returns the state when the determinants are indexed by [det2idx],
    the three lists of the structure and the parameters have one length,
    and every step is reversible from the state the pass brings to it: its
    generators are excitation generators and no amplitude they are applied
    to is lost to the threshold. For a UCC structure, it returns the state
    whenever the operator and its matrix are built, with an
    [expm_multiply] for which the exponential of the opposite matrix
    undoes the exponential of a matrix. *)
Theorem unitary_then_adjoint (ext : Externals) (ci_info : CI_Info) (thetas : list R)
    (s : state_vector) (do_folding do_unsafe : bool) :
  (forall ups_struct : UpsStructure,
      indexed (idx2det ci_info) (det2idx ci_info) ->
      length (ups_excitation_operator_type ups_struct)
      = length (ups_excitation_indices ups_struct) ->
      length (ups_excitation_indices ups_struct) = length thetas ->
      pass_reversible ext ci_info (ups_steps thetas ups_struct) s ->
      exists s',
        propagate_state ext [OpStr "U"] s ci_info thetas (Ups ups_struct)
          do_folding do_unsafe = Ok s'
        /\ propagate_state ext [OpStr "Ud"] s' ci_info thetas (Ups ups_struct)
             do_folding do_unsafe = Ok s)
  /\ (forall (ucc_struct : UccStructure) (T : FermionicOperator) (Tmat : matrix),
         expm_inverse ext ->
         length s = length (idx2det ci_info) ->
         get_ucc_T ext thetas ucc_struct (space_extension_offset ci_info) = Ok T ->
         build_operator_matrix T ci_info false = Ok Tmat ->
         exists s',
           propagate_state ext [OpStr "U"] s ci_info thetas (Ucc ucc_struct)
             do_folding do_unsafe = Ok s'
           /\ propagate_state ext [OpStr "Ud"] s' ci_info thetas (Ucc ucc_struct)
                do_folding do_unsafe = Ok s).
Proof.
  split.
  - intros ups_struct Hidx Hl1 Hl2 Hpass. now apply ups_round_trip.
  - intros ucc_struct T Tmat Hexpm Hlen HT HM. now apply (ucc_round_trip _ _ _ _ T Tmat).
Qed.

(** ** The example spaces *)

Lemma plane_expm_inverse : expm_inverse plane_externals.
Proof.
  intros k m v _ _. cbn [expm_multiply plane_externals].
  destruct m as [|[|a [|b [|? ?]]] [|[|c [|d [|? ?]]] [|? ?]]]; try reflexivity;
    try (destruct v as [|x [|y [|? ?]]]; reflexivity).
  destruct v as [|x [|y [|? ?]]]; try reflexivity.
  cbn [mneg map plane_expm].
  destruct (Req_dec_T a 0) as [Ea|Ea], (Req_dec_T d 0) as [Ed|Ed],
    (Req_dec_T b (- c)) as [Eb|Eb];
    cbn [plane_expm];
    repeat match goal with
    | |- context [Req_dec_T ?u ?w] => destruct (Req_dec_T u w); try lra
    end;
    try reflexivity.
  rewrite sin_neg, cos_neg.
  pose proof (sin2_cos2 c) as H. unfold Rsqr in H.
  f_equal; [|f_equal].
  - transitivity ((sin c * sin c + cos c * cos c) * x)%R; [ring | rewrite H; ring].
  - transitivity ((sin c * sin c + cos c * cos c) * y)%R; [ring | rewrite H; ring].
Qed.

Lemma paired_ci_is_indexed : indexed (idx2det paired_ci) (det2idx paired_ci).
Proof.
  split.
  - intros i det. destruct i as [|[|[|[|i]]]];
      cbn [paired_ci idx2det det2idx nth_error]; intros H;
      try (injection H as <-; vm_compute; reflexivity).
    now destruct i.
  - intros det v. cbn [det2idx paired_ci].
    destruct (Z.eq_dec det 12) as [->|H12].
    { rewrite lookup_insert. intros [= <-]. now exists 0%nat. }
    rewrite lookup_insert_ne by congruence.
    destruct (Z.eq_dec det 9) as [->|H9].
    { rewrite lookup_insert. intros [= <-]. now exists 1%nat. }
    rewrite lookup_insert_ne by congruence.
    destruct (Z.eq_dec det 6) as [->|H6].
    { rewrite lookup_insert. intros [= <-]. now exists 2%nat. }
    rewrite lookup_insert_ne by congruence.
    destruct (Z.eq_dec det 3) as [->|H3].
    { rewrite lookup_insert. intros [= <-]. now exists 3%nat. }
    rewrite lookup_insert_ne by congruence. now rewrite lookup_empty.
Qed.

Lemma paired_alpha_matrix_of :
  matrix_of paired_ci (G1_model 0 2 true) paired_alpha_matrix.
Proof. unfold matrix_of, paired_alpha_matrix. evaluate. equal_reals. Qed.

Lemma paired_beta_matrix_of :
  matrix_of paired_ci (G1_model 1 3 true) paired_beta_matrix.
Proof. unfold matrix_of, paired_beta_matrix. evaluate. equal_reals. Qed.

Lemma paired_double_matrix_of :
  matrix_of paired_ci (G2_model 0 1 2 3 true) paired_double_matrix.
Proof. unfold matrix_of, paired_double_matrix. evaluate. equal_reals. Qed.

Lemma paired_double_action (x0 x1 x2 x3 : R) :
  matvec paired_double_matrix [x0; x1; x2; x3] = [(- x3)%R; 0%R; 0%R; x0].
Proof. unfold paired_double_matrix. evaluate. equal_reals. Qed.

Lemma paired_double_rotation (x0 x1 x2 x3 : R) :
  rotation paired_double_matrix (PI / 2) [x0; x1; x2; x3] = [(- x3)%R; x1; x2; x0].
Proof.
  unfold rotation. rewrite !paired_double_action, sin_PI2, cos_PI2.
  cbn [vadd vscale combine map]. equal_reals.
Qed.

Lemma paired_alpha_action (x0 x1 x2 x3 : R) :
  matvec paired_alpha_matrix [x0; x1; x2; x3] = [x2; (- x3)%R; (- x0)%R; x1].
Proof. unfold paired_alpha_matrix. evaluate. equal_reals. Qed.

Lemma paired_beta_action (x0 x1 x2 x3 : R) :
  matvec paired_beta_matrix [x0; x1; x2; x3] = [(- x1)%R; x0; x3; (- x2)%R].
Proof. unfold paired_beta_matrix. evaluate. equal_reals. Qed.

Lemma paired_alpha_rotation (x0 x1 x2 x3 : R) :
  rotation paired_alpha_matrix (PI / 2) [x0; x1; x2; x3]
  = [x2; (- x3)%R; (- x0)%R; x1].
Proof.
  unfold rotation. rewrite !paired_alpha_action, sin_PI2, cos_PI2.
  cbn [vadd vscale combine map]. equal_reals.
Qed.

Lemma paired_beta_rotation (x0 x1 x2 x3 : R) :
  rotation paired_beta_matrix (PI / 2) [x0; x1; x2; x3]
  = [(- x1)%R; x0; x3; (- x2)%R].
Proof.
  unfold rotation. rewrite !paired_beta_action, sin_PI2, cos_PI2.
  cbn [vadd vscale combine map]. equal_reals.
Qed.

(** Amplitudes that are 0, 1 or -1 are clear of the threshold. *)
Lemma clear_signs (state : state_vector) :
  Forall (fun x => x = 0 \/ x = 1 \/ x = -1)%R state -> clear_amplitudes state.
Proof.
  unfold clear_amplitudes. intros H. eapply List.Forall_impl; [|exact H].
  intros x [E|E]; [now left | right]. now apply below_threshold_unit.
Qed.

Ltac signs :=
  apply clear_signs;
  repeat (constructor; [first [left; lra | right; left; lra | right; right; lra] |]);
  constructor.

Lemma model_single_excitation (i a : Z) :
  0 <= i < 2 * 2 -> 0 <= a < 2 * 2 -> i <> a ->
  single_excitation_generator 2 i a (G1_model i a true).
Proof.
  intros Hi Ha Hne. split; [assumption|]. split; [assumption|]. split; [assumption|].
  unfold G1_model, anti_hermitian_pair, conjugate. cbn [map rev app fst snd negb].
  equal_reals.
Qed.

Lemma model_double_excitation :
  excitation_generator 2 (G2_model 0 1 2 3 true).
Proof.
  exists [(2, true); (3, true); (1, false); (0, false)]. split.
  - unfold excitation.
    change (anni_indices [(2, true); (3, true); (1, false); (0, false)]) with [1; 0].
    change (create_indices [(2, true); (3, true); (1, false); (0, false)])
      with [2; 3].
    split; [repeat constructor; lia|]. split; [repeat constructor; lia|].
    exists 1. split; [now left|]. intros [E|[E|[]]]; discriminate.
  - unfold G2_model, anti_hermitian_pair, conjugate. cbn [map rev app fst snd negb].
    equal_reals.
Qed.

Ltac regular_signs :=
  split; [reflexivity|];
  rewrite ?paired_double_action, ?paired_alpha_action, ?paired_beta_action;
  split; signs.

(** The pass of [paired_ups] with the parameters [paired_thetas] from the
    first determinant of [paired_ci]: every step is reversible. *)
Lemma paired_pass_reversible :
  pass_reversible example_externals paired_ci
    (ups_steps paired_thetas paired_ups) [1%R; 0%R; 0%R; 0%R].
Proof.
  unfold paired_thetas.
  cbn [ups_steps paired_ups ups_excitation_operator_type ups_excitation_indices
       combine pass_reversible].
  split.
  { unfold step_reversible. rewrite below_threshold_half_pi.
    cbn [String.eqb Ascii.eqb Bool.eqb orb andb].
    exists (G2_model 0 1 2 3 true), paired_double_matrix.
    split; [reflexivity|].
    split; [exact model_double_excitation|].
    split; [exact paired_double_matrix_of|].
    rewrite paired_double_rotation. split; regular_signs. }
  intros mid Hmid. unfold step_closed_form in Hmid.
  rewrite below_threshold_half_pi in Hmid.
  cbn [String.eqb Ascii.eqb Bool.eqb orb andb applied_theta] in Hmid.
  destruct Hmid as (T & T_mat & HT & HM & _ & ->).
  change (Ok (G2_model 0 1 2 3 true) = Ok T) in HT. injection HT as <-.
  unfold matrix_of in HM. rewrite paired_double_matrix_of in HM. injection HM as <-.
  rewrite paired_double_rotation.
  split.
  { unfold step_reversible. rewrite below_threshold_half_pi.
    cbn [String.eqb Ascii.eqb Bool.eqb orb andb].
    exists (G1_model 0 2 true), paired_alpha_matrix.
    split; [reflexivity|].
    split.
    { apply (single_excitation_is_excitation paired_ci 0 2).
      apply model_single_excitation; lia. }
    split; [exact paired_alpha_matrix_of|].
    rewrite paired_alpha_rotation. split; regular_signs. }
  intros mid Hmid. unfold step_closed_form in Hmid.
  rewrite below_threshold_half_pi in Hmid.
  cbn [String.eqb Ascii.eqb Bool.eqb orb andb applied_theta] in Hmid.
  destruct Hmid as (T & T_mat & HT & HM & _ & ->).
  change (Ok (G1_model 0 2 true) = Ok T) in HT. injection HT as <-.
  unfold matrix_of in HM. rewrite paired_alpha_matrix_of in HM. injection HM as <-.
  rewrite paired_alpha_rotation.
  split; [|intros mid' _; exact I].
  unfold step_reversible. rewrite below_threshold_half_pi.
  cbn [String.eqb Ascii.eqb Bool.eqb orb andb].
  exists 0, 1, paired_alpha_matrix, paired_beta_matrix.
  split; [reflexivity|].
  split; [apply (model_single_excitation (0 * 2) (1 * 2)); lia|].
  split; [apply (model_single_excitation (0 * 2 + 1) (1 * 2 + 1)); lia|].
  split; [exact paired_alpha_matrix_of|].
  split; [exact paired_beta_matrix_of|].
  rewrite !paired_alpha_rotation, !paired_beta_rotation.
  split; [regular_signs|]. split; [regular_signs|]. split; regular_signs.
Qed.

Lemma example_ucc_operator_built :
  get_ucc_T plane_externals [(PI / 2)%R] example_ucc (space_extension_offset example_ci)
  = Ok example_ucc_operator.
Proof. evaluate. rewrite below_threshold_half_pi. reflexivity. Qed.

Lemma example_ucc_matrix_built :
  build_operator_matrix example_ucc_operator example_ci false = Ok example_ucc_matrix.
Proof. evaluate. reflexivity. Qed.

Lemma unitary_then_adjoint_witness :
  (indexed (idx2det paired_ci) (det2idx paired_ci)
   /\ length (ups_excitation_operator_type paired_ups)
      = length (ups_excitation_indices paired_ups)
   /\ length (ups_excitation_indices paired_ups) = length paired_thetas
   /\ pass_reversible example_externals paired_ci
        (ups_steps paired_thetas paired_ups) [1%R; 0%R; 0%R; 0%R]
   /\ exists s',
        propagate_state example_externals [OpStr "U"] [1%R; 0%R; 0%R; 0%R] paired_ci
          paired_thetas (Ups paired_ups) true false = Ok s'
        /\ propagate_state example_externals [OpStr "Ud"] s' paired_ci
             paired_thetas (Ups paired_ups) true false
           = Ok [1%R; 0%R; 0%R; 0%R])
  /\ (expm_inverse plane_externals
      /\ length [1%R; 0%R] = length (idx2det example_ci)
      /\ get_ucc_T plane_externals [(PI / 2)%R] example_ucc
           (space_extension_offset example_ci)
         = Ok example_ucc_operator
      /\ build_operator_matrix example_ucc_operator example_ci false
         = Ok example_ucc_matrix
      /\ exists s',
           propagate_state plane_externals [OpStr "U"] [1%R; 0%R] example_ci
             [(PI / 2)%R] (Ucc example_ucc) true false = Ok s'
           /\ propagate_state plane_externals [OpStr "Ud"] s' example_ci
                [(PI / 2)%R] (Ucc example_ucc) true false = Ok [1%R; 0%R]).
Proof.
  split.
  - split; [exact paired_ci_is_indexed|].
    split; [reflexivity|]. split; [reflexivity|].
    split; [exact paired_pass_reversible|].
    exact (proj1 (unitary_then_adjoint example_externals paired_ci paired_thetas
                    [1%R; 0%R; 0%R; 0%R] true false)
             paired_ups paired_ci_is_indexed eq_refl eq_refl paired_pass_reversible).
  - split; [exact plane_expm_inverse|].
    split; [reflexivity|].
    split; [exact example_ucc_operator_built|].
    split; [exact example_ucc_matrix_built|].
    exact (proj2 (unitary_then_adjoint plane_externals example_ci [(PI / 2)%R]
                    [1%R; 0%R] true false)
             example_ucc example_ucc_operator example_ucc_matrix plane_expm_inverse
             eq_refl example_ucc_operator_built example_ucc_matrix_built).
Defined.

End AnalyticUnitaryFacts.
